(** * Verification of the project-generation server (assistant-server.js)

    A shallow embedding of the code-block extraction engine, the deployment
    URL canonicalisation, the build-validate-repair helper, the background
    job pipeline and the status endpoint, followed by the theorems that
    settle the claims made about them. *)

From Stdlib Require Import String Ascii List Arith NArith Bool Lia PeanoNat.
From Stdlib Require DecimalString DecimalNat Decimal DecimalFacts.
Import ListNotations.

Set Implicit Arguments.

(** ** JavaScript strings

    A string is a sequence of code units.  The embedding covers the code
    units 0..255, which is enough for every literal of the source and keeps
    the Latin-1 white space (U+00A0) that [\s] and [trim] recognise. *)

Definition str : Type := list ascii.

Definition lit (s : string) : str := list_ascii_of_string s.
Arguments lit s%_string.

Definition code (c : ascii) : nat := nat_of_ascii c.

Definition chr_eqb (a b : ascii) : bool := Ascii.eqb a b.

Definition in_range (lo hi : nat) (c : ascii) : bool :=
  (lo <=? code c) && (code c <=? hi).

Fixpoint str_eqb (a b : str) : bool :=
  match a, b with
  | [], [] => true
  | x :: a', y :: b' => chr_eqb x y && str_eqb a' b'
  | _, _ => false
  end.

(** White space of the language: TAB, LF, VT, FF, CR, SP and NBSP.  It is the
    set used both by the [\s] class and by [String.prototype.trim]. *)
Definition is_space (c : ascii) : bool :=
  in_range 9 13 c || (code c =? 32) || (code c =? 160).

(** Line terminators, excluded by the [.] class. *)
Definition is_line_terminator (c : ascii) : bool :=
  (code c =? 10) || (code c =? 13).

Fixpoint trimStart (s : str) : str :=
  match s with
  | c :: s' => if is_space c then trimStart s' else s
  | [] => []
  end.

Definition trimEnd (s : str) : str := rev (trimStart (rev s)).

Definition trim (s : str) : str := trimEnd (trimStart s).

Definition lower_chr (c : ascii) : ascii :=
  if in_range 65 90 c || in_range 192 214 c || in_range 216 222 c
  then ascii_of_nat (code c + 32) else c.

Definition toLowerCase (s : str) : str := map lower_chr s.

Fixpoint startsWith (p s : str) : bool :=
  match p, s with
  | [], _ => true
  | x :: p', y :: s' => chr_eqb x y && startsWith p' s'
  | _ :: _, [] => false
  end.

Definition endsWith (suffix s : str) : bool := startsWith (rev suffix) (rev s).

Fixpoint includes (needle s : str) : bool :=
  startsWith needle s ||
  match s with
  | [] => false
  | _ :: s' => includes needle s'
  end.

Definition nl : str := [ascii_of_nat 10].

(** Decimal rendering of a number, as a template literal does it. *)
Definition nat_to_str (n : nat) : str :=
  lit (DecimalString.NilEmpty.string_of_uint (Nat.to_uint n)).

(** ** Regular expressions

    A backtracking matcher in the style of the language specification: every
    node maps a match state to the list of states it can end in, ordered by
    priority, so that the head of the list is the match a backtracking engine
    reports. *)

Inductive regex : Type :=
| Eps
| Chr (p : ascii -> bool)
| Bol
| Seq (r1 r2 : regex)
| Alt (r1 r2 : regex)
| Group (g : nat) (r : regex)
| Rep (greedy : bool) (min : nat) (max : option nat) (r : regex).

Record mstate : Type := MState {
  endIndex : nat;
  rest : str;
  captures : nat -> option str
}.

Definition no_captures : nat -> option str := fun _ => None.

Fixpoint groups (r : regex) : list nat :=
  match r with
  | Eps | Chr _ | Bol => []
  | Seq r1 r2 | Alt r1 r2 => groups r1 ++ groups r2
  | Group g r' => g :: groups r'
  | Rep _ _ _ r' => groups r'
  end.

Definition mem_nat (g : nat) (l : list nat) : bool := existsb (Nat.eqb g) l.

Definition reset_captures (gs : list nat) (c : nat -> option str) : nat -> option str :=
  fun g => if mem_nat g gs then None else c g.

Definition set_capture (g : nat) (v : str) (c : nat -> option str) : nat -> option str :=
  fun g' => if Nat.eqb g' g then Some v else c g'.

Definition max_is_zero (max : option nat) : bool :=
  match max with Some 0 => true | _ => false end.

Definition max_pred (max : option nat) : option nat :=
  match max with Some m => Some (Nat.pred m) | None => None end.

(** One quantifier: [fuel] bounds the number of iterations, which never
    exceeds [min] plus the length of the remaining input, because an
    iteration that consumes nothing is rejected once [min] is exhausted. *)
Fixpoint repeat_matcher (m : mstate -> list mstate) (gs : list nat) (greedy : bool)
    (fuel min : nat) (max : option nat) (x : mstate) : list mstate :=
  if max_is_zero max then [x]
  else
    match fuel with
    | 0 => []
    | S fuel' =>
        let xr := MState (endIndex x) (rest x) (reset_captures gs (captures x)) in
        let again :=
          flat_map (fun y =>
            if (min =? 0) && (endIndex y =? endIndex x) then []
            else repeat_matcher m gs greedy fuel' (Nat.pred min) (max_pred max) y)
            (m xr) in
        if negb (min =? 0) then again
        else if greedy then again ++ [x]
        else x :: again
    end.

Fixpoint matcher (r : regex) (x : mstate) : list mstate :=
  match r with
  | Eps => [x]
  | Chr p =>
      match rest x with
      | c :: s' => if p c then [MState (S (endIndex x)) s' (captures x)] else []
      | [] => []
      end
  | Bol => if endIndex x =? 0 then [x] else []
  | Seq r1 r2 => flat_map (matcher r2) (matcher r1 x)
  | Alt r1 r2 => matcher r1 x ++ matcher r2 x
  | Group g r' =>
      map (fun y =>
             MState (endIndex y) (rest y)
               (set_capture g (firstn (endIndex y - endIndex x) (rest x)) (captures y)))
          (matcher r' x)
  | Rep greedy min max r' =>
      repeat_matcher (matcher r') (groups r') greedy
        (S (min + length (rest x))) min max x
  end.

(** The result of a successful match: where it starts, where it ends, the
    matched text and the captures. *)
Record match_result : Type := MatchResult {
  m_index : nat;
  m_end : nat;
  m_text : str;
  m_group : nat -> option str
}.

Definition match_at (r : regex) (index : nat) (s : str) : option match_result :=
  match matcher r (MState index s no_captures) with
  | y :: _ =>
      Some (MatchResult index (endIndex y) (firstn (endIndex y - index) s) (captures y))
  | [] => None
  end.

(** [search_from r index s]: the leftmost match in [s], which is the input
    from position [index] on; positions are tried one by one up to and
    including the end of the input. *)
Fixpoint search_from (r : regex) (index : nat) (s : str) : option match_result :=
  match match_at r index s with
  | Some m => Some m
  | None =>
      match s with
      | [] => None
      | _ :: s' => search_from r (S index) s'
      end
  end.

(** [RegExp.prototype.exec] for a pattern with the [g] flag: the search starts
    at [lastIndex]; a failed search, or a [lastIndex] past the end, gives
    [None]. *)
Definition regex_exec (r : regex) (s : str) (lastIndex : nat) : option match_result :=
  if length s <? lastIndex then None
  else search_from r lastIndex (skipn lastIndex s).

(** [String.prototype.match] with a pattern without the [g] flag. *)
Definition str_match (r : regex) (s : str) : option match_result :=
  search_from r 0 s.

(** [String.prototype.replace] with a pattern without the [g] flag and a
    replacement text that holds no [$] pattern. *)
Definition str_replace (r : regex) (replacement s : str) : str :=
  match str_match r s with
  | Some m => firstn (m_index m) s ++ replacement ++ skipn (m_end m) s
  | None => s
  end.

(** Smart constructors for the notation of the source patterns. *)
Fixpoint Lit (s : str) : regex :=
  match s with
  | [] => Eps
  | [c] => Chr (chr_eqb c)
  | c :: s' => Seq (Chr (chr_eqb c)) (Lit s')
  end.

Fixpoint seqs (rs : list regex) : regex :=
  match rs with
  | [] => Eps
  | [r] => r
  | r :: rs' => Seq r (seqs rs')
  end.

Definition Star (r : regex) : regex := Rep true 0 None r.
Definition Plus (r : regex) : regex := Rep true 1 None r.
Definition PlusLazy (r : regex) : regex := Rep false 1 None r.
Definition Opt (r : regex) : regex := Rep true 0 (Some 1) r.

Definition one_of (s : string) (c : ascii) : bool := existsb (chr_eqb c) (lit s).

Definition is_alnum (c : ascii) : bool :=
  in_range 97 122 c || in_range 65 90 c || in_range 48 57 c.

(** [.]: any code unit but a line terminator. *)
Definition dot (c : ascii) : bool := negb (is_line_terminator c).

Definition Lt (s : string) : regex := Lit (lit s).
Arguments Lt s%_string.

(** ** Plain objects used as dictionaries

    [extractedFiles] is an object literal [{}] filled by assignment.  Its own
    properties are kept in insertion order; an assignment to an existing key
    replaces the value in place.  The key [__proto__] is not an own property:
    the assignment reaches the accessor inherited from [Object.prototype],
    which ignores a value that is neither an object nor [null], so that a
    string stored under that key is dropped.  The order in which the keys of
    the object are enumerated is given by [Object_entries] below. *)

Definition obj : Type := list (str * str).

Definition proto_key : str := lit "__proto__".

Fixpoint own_set (o : obj) (k v : str) : obj :=
  match o with
  | [] => [(k, v)]
  | (k', v') :: o' =>
      if str_eqb k' k then (k', v) :: o' else (k', v') :: own_set o' k v
  end.

Definition obj_set (o : obj) (k v : str) : obj :=
  if str_eqb k proto_key then o else own_set o k v.

Fixpoint own_get (o : obj) (k : str) : option str :=
  match o with
  | [] => None
  | (k', v') :: o' => if str_eqb k' k then Some v' else own_get o' k
  end.

(** The own keys in insertion order.  The code reads the number of keys and
    asks whether some key has a property; both are independent of the order
    of enumeration. *)
Definition obj_keys (o : obj) : list str := map fst o.

(** A key that is an array index: the canonical decimal numeral of an
    integer below 2^32 - 1. *)
Definition array_index (k : str) : option N :=
  match k with
  | [] => None
  | c :: k' =>
      if forallb (in_range 48 57) k && (negb (chr_eqb c "0"%char) || str_eqb k' [])
      then
        let n := fold_left (fun acc d => (10 * acc + N.of_nat (code d - 48))%N) k 0%N in
        if (n <? 4294967295)%N then Some n else None
      else None
  end.

Fixpoint insert_indexed (e : N * (str * str)) (l : list (N * (str * str)))
    : list (N * (str * str)) :=
  match l with
  | [] => [e]
  | e' :: l' => if (fst e <? fst e')%N then e :: l else e' :: insert_indexed e l'
  end.

(** [Object.entries(o)]: the entries under the keys that are array indices
    come first, in ascending numeric order, then the other entries in
    insertion order. *)
Definition Object_entries (o : obj) : list (str * str) :=
  map snd (fold_right insert_indexed []
             (flat_map (fun e => match array_index (fst e) with
                                 | Some n => [(n, e)]
                                 | None => []
                                 end) o))
  ++ filter (fun e => match array_index (fst e) with
                      | Some _ => false
                      | None => true
                      end) o.

(** ** getExtensionFromLanguage *)

Definition langMap : obj :=
  [ (lit "javascript", lit ".js"); (lit "js", lit ".js");
    (lit "typescript", lit ".ts"); (lit "ts", lit ".ts");
    (lit "jsx", lit ".jsx"); (lit "tsx", lit ".tsx");
    (lit "python", lit ".py"); (lit "py", lit ".py");
    (lit "ruby", lit ".rb"); (lit "java", lit ".java");
    (lit "c", lit ".c"); (lit "cpp", lit ".cpp");
    (lit "csharp", lit ".cs"); (lit "cs", lit ".cs");
    (lit "go", lit ".go"); (lit "html", lit ".html");
    (lit "css", lit ".css"); (lit "json", lit ".json");
    (lit "yaml", lit ".yml"); (lit "shell", lit ".sh");
    (lit "bash", lit ".sh"); (lit "php", lit ".php");
    (lit "swift", lit ".swift"); (lit "rust", lit ".rs");
    (lit "kotlin", lit ".kt"); (lit "sql", lit ".sql") ].

(** [langMap] is an object literal too, so [langMap[key]] also sees what
    [Object.prototype] provides.  After [toLowerCase] only two inherited names
    can be asked for: [constructor] (the function [Object]) and [__proto__]
    (the prototype object); both are truthy and are rendered by the template
    literal of the caller as the texts below. *)
Definition inherited_as_text (k : str) : option str :=
  if str_eqb k (lit "constructor") then Some (lit "function Object() { [native code] }")
  else if str_eqb k proto_key then Some (lit "[object Object]")
  else None.

Definition getExtensionFromLanguage (language : str) : str :=
  let key := toLowerCase language in
  match own_get langMap key with
  | Some ext => ext
  | None =>
      match inherited_as_text key with
      | Some t => t
      | None => lit ".txt"
      end
  end.

(** ** extractCodeFromResponse *)

Inductive Framework : Type := react | next.
Inductive Language : Type := javascript | typescript.
Inductive CssFramework : Type := tailwind.

Record ProjectInfo : Type := mkProjectInfo {
  framework : Framework;
  language : Language;
  cssFramework : option CssFramework;
  features : list str
}.

Record GenerationResult : Type := mkGenerationResult {
  files : obj;
  projectInfo : ProjectInfo
}.

Definition backtick : ascii := "`"%char.

(** [[a-zA-Z0-9_+\.]] *)
Definition lang_chr (c : ascii) : bool := is_alnum c || one_of "_+." c.

(** [[a-zA-Z0-9_\-\.\/]] *)
Definition filename_chr (c : ascii) : bool := is_alnum c || one_of "_-./" c.

(** [[^`]] *)
Definition not_backtick (c : ascii) : bool := negb (chr_eqb c backtick).

(** [/```([a-zA-Z0-9_+\.]+)?\s*(?:(?:\/\/|#)\s*filename:\s*([a-zA-Z0-9_\-\.\/]+))?\s*([^`]+)```/g] *)
Definition codeBlockRegex : regex :=
  seqs [ Lt "```";
         Opt (Group 1 (Plus (Chr lang_chr)));
         Star (Chr is_space);
         Opt (seqs [ Alt (Lt "//") (Lt "#");
                     Star (Chr is_space);
                     Lt "filename:";
                     Star (Chr is_space);
                     Group 2 (Plus (Chr filename_chr)) ]);
         Star (Chr is_space);
         Group 3 (Plus (Chr not_backtick));
         Lt "```" ].

(** The pattern of [firstLineMatch]: at the start of the text, one of the
    comment openers (two slashes, a hash, or a slash and a star), then
    [\s*filename:\s*([a-zA-Z0-9_\-\.\/]+)]. *)
Definition firstLineRegex : regex :=
  seqs [ Bol;
         Alt (Lt "//") (Alt (Lt "#") (Lt "/*"));
         Star (Chr is_space);
         Lt "filename:";
         Star (Chr is_space);
         Group 1 (Plus (Chr filename_chr)) ].

Definition group_text (m : match_result) (g : nat) : str :=
  match m_group m g with
  | Some v => v
  | None => []
  end.

(** The name under which one matched block is stored, given the files
    extracted so far. *)
Definition block_lang (m : match_result) : str :=
  match m_group m 1 with
  | Some l => l
  | None => lit "txt"
  end.

Definition block_filename (extractedFiles : obj) (m : match_result) : str :=
  let lang := block_lang m in
  let code := trim (group_text m 3) in
  match m_group m 2 with
  | Some explicitFilename => explicitFilename
  | None =>
      match str_match firstLineRegex code with
      | Some firstLineMatch => group_text firstLineMatch 1
      | None =>
          let extension := getExtensionFromLanguage lang in
          lit "file" ++ nat_to_str (length (obj_keys extractedFiles) + 1) ++ extension
      end
  end.

(** The body of the [while] loop: one block is stored. *)
Definition store_block (extractedFiles : obj) (m : match_result) : obj :=
  obj_set extractedFiles (block_filename extractedFiles m) (trim (group_text m 3)).

(** The [while ((match = codeBlockRegex.exec(response)) !== null)] loop.  The
    pattern carries the [g] flag, so each search resumes where the previous
    match ended.  [fuel] bounds the number of iterations. *)
Fixpoint extract_loop (fuel : nat) (response : str) (lastIndex : nat)
    (extractedFiles : obj) : obj :=
  match fuel with
  | 0 => extractedFiles
  | S fuel' =>
      match regex_exec codeBlockRegex response lastIndex with
      | None => extractedFiles
      | Some m =>
          extract_loop fuel' response (m_end m) (store_block extractedFiles m)
      end
  end.

Definition detect_language (response : str) (extractedFiles : obj) : Language :=
  if includes (lit "typescript") (toLowerCase response)
     || existsb (fun file => endsWith (lit ".ts") file || endsWith (lit ".tsx") file)
          (obj_keys extractedFiles)
  then typescript else javascript.

Definition package_json_includes (extractedFiles : obj) (needle : str) : bool :=
  match own_get extractedFiles (lit "package.json") with
  | Some content => negb (str_eqb content []) && includes needle content
  | None => false
  end.

Definition detect_cssFramework (response : str) (extractedFiles : obj) : option CssFramework :=
  if includes (lit "tailwind") (toLowerCase response)
     || package_json_includes extractedFiles (lit "tailwindcss")
  then Some tailwind else None.

Definition detect_framework (response : str) (extractedFiles : obj) : Framework :=
  if includes (lit "next.js") (toLowerCase response)
     || package_json_includes extractedFiles (lit "next")
  then next else react.

Definition project_info_of (response : str) (extractedFiles : obj) : ProjectInfo :=
  mkProjectInfo (detect_framework response extractedFiles)
                (detect_language response extractedFiles)
                (detect_cssFramework response extractedFiles)
                [].

(** Each match holds at least the two fences, so the loop runs at most once
    per code unit of the response; one more iteration sees the failed search. *)
Definition extractCodeFromResponse (response : str) : GenerationResult :=
  let extractedFiles := extract_loop (S (length response)) response 0 [] in
  mkGenerationResult extractedFiles (project_info_of response extractedFiles).

(** The successive results of [codeBlockRegex.exec(response)]: the blocks of
    the response, in the order in which the loop stores them. *)
Fixpoint code_blocks_from (fuel : nat) (response : str) (lastIndex : nat)
    : list match_result :=
  match fuel with
  | 0 => []
  | S fuel' =>
      match regex_exec codeBlockRegex response lastIndex with
      | None => []
      | Some m => m :: code_blocks_from fuel' response (m_end m)
      end
  end.

Definition code_blocks (response : str) : list match_result :=
  code_blocks_from (S (length response)) response 0.

(** The names under which a sequence of blocks is stored, one after the
    other, starting from the files [o]. *)
Fixpoint block_names (o : obj) (bs : list match_result) : list str :=
  match bs with
  | [] => []
  | b :: bs' => block_filename o b :: block_names (store_block o b) bs'
  end.


(** ** Paths (the POSIX flavour of the [path] module) *)

Definition slash : ascii := "/"%char.

(** [s.split(sep)] for a one-character separator. *)
Fixpoint split_on (sep : ascii) (s : str) : list str :=
  match s with
  | [] => [[]]
  | c :: s' =>
      if chr_eqb c sep then [] :: split_on sep s'
      else
        match split_on sep s' with
        | seg :: segs => (c :: seg) :: segs
        | [] => [[c]]
        end
  end.

Fixpoint join_with (sep : str) (parts : list str) : str :=
  match parts with
  | [] => []
  | [x] => x
  | x :: parts' => x ++ sep ++ join_with sep parts'
  end.

(** One step of [normalizeString]: [acc] holds the segments kept so far, the
    last one first. *)
Definition normalize_step (allowAboveRoot : bool) (acc : list str) (seg : str) : list str :=
  if str_eqb seg [] || str_eqb seg (lit ".") then acc
  else if str_eqb seg (lit "..") then
    match acc with
    | top :: acc' =>
        if str_eqb top (lit "..") then seg :: acc else acc'
    | [] => if allowAboveRoot then [seg] else []
    end
  else seg :: acc.

Definition normalize_segments (allowAboveRoot : bool) (segs : list str) : list str :=
  rev (fold_left (normalize_step allowAboveRoot) segs []).

Definition path_normalize (p : str) : str :=
  match p with
  | [] => lit "."
  | _ =>
      let isAbsolute := startsWith [slash] p in
      let trailingSeparator := endsWith [slash] p in
      let body := join_with [slash]
                    (normalize_segments (negb isAbsolute) (split_on slash p)) in
      match body with
      | [] => if isAbsolute then [slash]
              else if trailingSeparator then lit "./" else lit "."
      | _ =>
          let body' := if trailingSeparator then body ++ [slash] else body in
          if isAbsolute then slash :: body' else body'
      end
  end.

Definition path_join (parts : list str) : str :=
  match filter (fun a => negb (str_eqb a [])) parts with
  | [] => lit "."
  | nonempty => path_normalize (join_with [slash] nonempty)
  end.

Fixpoint drop_while (f : ascii -> bool) (s : str) : str :=
  match s with
  | c :: s' => if f c then drop_while f s' else s
  | [] => []
  end.

Fixpoint take_while (f : ascii -> bool) (s : str) : str :=
  match s with
  | c :: s' => if f c then c :: take_while f s' else []
  | [] => []
  end.

Definition is_slash (c : ascii) : bool := chr_eqb c slash.
Definition not_slash (c : ascii) : bool := negb (is_slash c).

(** [path.basename(p)]: the last portion, trailing separators ignored. *)
Definition path_basename (p : str) : str :=
  rev (take_while not_slash (drop_while is_slash (rev p))).

(** [path.dirname(p)]: the scan runs from the end down to the second code
    unit, skips the trailing separators and stops at the separator before the
    last portion. *)
Definition path_dirname (p : str) : str :=
  match p with
  | [] => lit "."
  | c0 :: tail =>
      let hasRoot := is_slash c0 in
      match drop_while not_slash (drop_while is_slash (rev tail)) with
      | [] => if hasRoot then [slash] else lit "."
      | _ :: before =>
          match before with
          | [] => if hasRoot then lit "//" else [c0]
          | _ => c0 :: rev before
          end
      end
  end.

Definition is_dot (c : ascii) : bool := chr_eqb c "."%char.

(** [path.extname(p)]: from the last dot of the last portion on; empty when
    there is no dot, when the dot opens the portion, or for [..]. *)
Definition path_extname (p : str) : str :=
  let b := path_basename p in
  let r := rev b in
  match drop_while (fun c => negb (is_dot c)) r with
  | [] => []
  | _ :: before_rev =>
      match before_rev with
      | [] => []
      | _ =>
          if str_eqb b (lit "..") then []
          else "."%char :: rev (take_while (fun c => negb (is_dot c)) r)
      end
  end.

(** The segments the file system walks for a path. *)
Definition path_segments (p : str) : list str :=
  normalize_segments false (split_on slash p).

(** ** The file system

    A tree of directories and regular files.  The paths handed to it by the
    code are absolute. *)

#[warnings="-register-all"]
Inductive node : Type :=
| File (content : str)
| Dir (entries : list (str * node)).

Fixpoint lookup_entry (name : str) (es : list (str * node)) : option node :=
  match es with
  | [] => None
  | (n, c) :: es' => if str_eqb n name then Some c else lookup_entry name es'
  end.

Fixpoint set_entry (name : str) (c : node) (es : list (str * node)) : list (str * node) :=
  match es with
  | [] => [(name, c)]
  | (n, c') :: es' =>
      if str_eqb n name then (n, c) :: es' else (n, c') :: set_entry name c es'
  end.

Fixpoint remove_entry (name : str) (es : list (str * node)) : list (str * node) :=
  match es with
  | [] => []
  | (n, c') :: es' =>
      if str_eqb n name then remove_entry name es' else (n, c') :: remove_entry name es'
  end.

Fixpoint fs_lookup (n : node) (segs : list str) : option node :=
  match segs with
  | [] => Some n
  | s :: segs' =>
      match n with
      | Dir es =>
          match lookup_entry s es with
          | Some c => fs_lookup c segs'
          | None => None
          end
      | File _ => None
      end
  end.

Inductive outcome (A : Type) : Type :=
| Ok (a : A)
| Throw (message : str).
Arguments Ok {A} a.
Arguments Throw {A} message.

(** [mkdir -p]: fails when a component of the path is a regular file. *)
Fixpoint fs_mkdirp (n : node) (segs : list str) : option node :=
  match n with
  | File _ => None
  | Dir es =>
      match segs with
      | [] => Some n
      | s :: segs' =>
          let child := match lookup_entry s es with
                       | Some c => c
                       | None => Dir []
                       end in
          match fs_mkdirp child segs' with
          | Some c' => Some (Dir (set_entry s c' es))
          | None => None
          end
      end
  end.

Inductive fs_error : Type := ENOENT | ENOTDIR | EISDIR | EEXIST.

(** Creating or truncating the regular file at [segs]. *)
Fixpoint fs_write (n : node) (segs : list str) (content : str) : node + fs_error :=
  match segs with
  | [] =>
      match n with
      | File _ => inl (File content)
      | Dir _ => inr EISDIR
      end
  | s :: segs' =>
      match n with
      | File _ => inr ENOTDIR
      | Dir es =>
          match lookup_entry s es with
          | Some c =>
              match fs_write c segs' content with
              | inl c' => inl (Dir (set_entry s c' es))
              | inr e => inr e
              end
          | None =>
              match segs' with
              | [] => inl (Dir (set_entry s (File content) es))
              | _ => inr ENOENT
              end
          end
      end
  end.

(** Removing the entry at [segs] with what it holds; nothing happens when it
    does not exist. *)
Fixpoint fs_remove (n : node) (segs : list str) : node :=
  match segs, n with
  | [s], Dir es => Dir (remove_entry s es)
  | s :: segs', Dir es =>
      match lookup_entry s es with
      | Some c => Dir (set_entry s (fs_remove c segs') es)
      | None => n
      end
  | _, _ => n
  end.

Definition fs_error_text (e : fs_error) : str :=
  match e with
  | ENOENT => lit "ENOENT: no such file or directory"
  | ENOTDIR => lit "ENOTDIR: not a directory"
  | EISDIR => lit "EISDIR: illegal operation on a directory"
  | EEXIST => lit "EEXIST: file already exists"
  end.

Definition fs_message (e : fs_error) (syscall path : str) : str :=
  fs_error_text e ++ lit ", " ++ syscall ++ lit " '" ++ path ++ lit "'".

(** The size in bytes of a text once encoded in UTF-8. *)
Definition utf8_size (s : str) : N :=
  fold_right (fun c n => N.add (if code c <? 128 then 1%N else 2%N) n) 0%N s.

Definition relative_name (rel name : str) : str :=
  match rel with
  | [] => name
  | _ => rel ++ [slash] ++ name
  end.

(** [listFilesRecursively(dir, baseDir)], on the directory node found at
    [dir]; [rel] is the path of [dir] relative to [baseDir].  Reading a
    directory and asking for the kind of each entry is the walk of the
    tree. *)
Fixpoint list_files (rel : str) (n : node) : list str :=
  match n with
  | File _ => []
  | Dir es =>
      (fix walk (es : list (str * node)) : list str :=
         match es with
         | [] => []
         | (name, c) :: es' =>
             match c with
             | Dir _ => list_files (relative_name rel name) c
             | File _ => [relative_name rel name]
             end ++ walk es'
         end) es
  end.

Definition textExtensions : list str :=
  map lit [".txt"; ".js"; ".jsx"; ".ts"; ".tsx"; ".py"; ".html"; ".css"; ".scss";
           ".json"; ".md"; ".yaml"; ".yml"; ".xml"; ".csv"; ".sh"; ".bat"; ".ps1";
           ".gitignore"; ".env"; ".c"; ".cpp"; ".h"; ".hpp"; ".java"; ".rb"; ".php";
           ".go"; ".rs"; ".swift"; ".kt"; ".kts"; ".sql"; ".prisma"; ".graphql"]%string.

Definition isTextFile (filename : str) : bool :=
  let ext := toLowerCase (path_extname filename) in
  existsb (str_eqb ext) textExtensions.

(** ** Jobs and the world the server runs in *)

Inductive Status : Type :=
| pending
| generating
| scaffolding
| deploying
| completed
| completed_without_deployment
| deployment_failed
| failed.

Definition status_text (s : Status) : str :=
  match s with
  | pending => lit "pending"
  | generating => lit "generating"
  | scaffolding => lit "scaffolding"
  | deploying => lit "deploying"
  | completed => lit "completed"
  | completed_without_deployment => lit "completed_without_deployment"
  | deployment_failed => lit "deployment_failed"
  | failed => lit "failed"
  end.

(** A job object.  The fields of the second group do not exist until they
    are assigned. *)
Record Job : Type := mkJob {
  job_id : str;
  job_prompt : str;
  job_outputDir : str;
  job_status : Status;
  job_created : nat;
  job_lastUpdated : nat;
  job_completed : bool;
  job_apiProvider : str;
  job_files : option (list str);
  job_fileContents : option obj;
  job_deploymentUrl : option str;
  job_deploymentOutput : option str;
  job_error : option str
}.

(** [deploymentJobs]: a [Map] from job id to job object.  The background task
    and the status endpoint reach the same object through it. *)
Definition JobStore : Type := list (str * Job).

Fixpoint jobs_get (jobs : JobStore) (id : str) : option Job :=
  match jobs with
  | [] => None
  | (k, j) :: jobs' => if str_eqb k id then Some j else jobs_get jobs' id
  end.

Fixpoint jobs_set (jobs : JobStore) (id : str) (j : Job) : JobStore :=
  match jobs with
  | [] => [(id, j)]
  | (k, j') :: jobs' =>
      if str_eqb k id then (k, j) :: jobs' else (k, j') :: jobs_set jobs' id j
  end.

(** The state of the process and of its surroundings.  [w_commands] is the
    log of the shell commands run so far, [w_calls] counts the requests that
    left the process, and [w_observed] keeps what the job store looked like
    each time the running task was suspended: these are the states another
    request can see.  [w_history] lists every assignment to a job object (the
    job id and the object after the assignment), the most recent first. *)
Record World : Type := mkWorld {
  w_fs : node;
  w_jobs : JobStore;
  w_now : nat;
  w_calls : nat;
  w_commands : list (str * str);
  w_observed : list JobStore;
  w_history : list (str * Job)
}.

Record Message : Type := mkMessage {
  msg_role : str;
  msg_text_parts : list (option str)
}.

Record ContentBlock : Type := mkContentBlock {
  block_type : str;
  block_text : str
}.

(** What lies outside the code: the configuration read from the process
    environment and the behaviour of the external programs and services.
    Every request is answered according to its position [w_calls] in the run,
    so that two identical requests may be answered differently. *)
Record Env : Type := mkEnv {
  dirname : str;
  VERCEL_TOKEN : option str;
  ASSISTANT_ID : option str;
  genAI : bool;
  anthropic : bool;
  exec : nat -> str -> str -> node -> outcome str * node;
  threads_create : nat -> outcome str;
  threads_messages_create : nat -> str -> str -> outcome unit;
  threads_runs_create : nat -> str -> outcome str;
  threads_runs_retrieve : nat -> str -> str -> outcome str;
  threads_messages_list : nat -> str -> outcome (list Message);
  generateContent : nat -> str -> outcome str;
  messages_create : nat -> str -> outcome (list ContentBlock);
  randomBytes_hex : nat -> str;
  elapsed : nat -> nat
}.

(** Truthiness of a text that may be undefined. *)
Definition truthy (v : option str) : bool :=
  match v with
  | Some (_ :: _) => true
  | _ => false
  end.

(** ** Computations that change the world and may throw *)

Definition M (A : Type) : Type := World -> outcome A * World.

Definition ret {A} (a : A) : M A := fun w => (Ok a, w).

Definition bind {A B} (c : M A) (k : A -> M B) : M B :=
  fun w =>
    match c w with
    | (Ok a, w') => k a w'
    | (Throw e, w') => (Throw e, w')
    end.

Definition throw {A} (message : str) : M A := fun w => (Throw message, w).

Definition try_catch {A} (c : M A) (handler : str -> M A) : M A :=
  fun w =>
    match c w with
    | (Ok a, w') => (Ok a, w')
    | (Throw e, w') => handler e w'
    end.

Declare Scope js_scope.
Delimit Scope js_scope with js.
Notation "x <- c ;; k" := (bind c (fun x => k))
  (at level 61, c at next level, right associativity) : js_scope.
Notation "c ;; k" := (bind c (fun _ => k))
  (at level 61, right associativity) : js_scope.
Open Scope js_scope.

Definition get_world : M World := fun w => (Ok w, w).

Definition set_fs (fs : node) : M unit :=
  fun w => (Ok tt, mkWorld fs (w_jobs w) (w_now w) (w_calls w) (w_commands w) (w_observed w) (w_history w)).

Definition Date_now : M nat := fun w => (Ok (w_now w), w).

(** The task is suspended while a request is outside the process: the job
    store is visible as it stands, the clock moves on, and the request is
    counted. *)
Definition suspend (env : Env) : M nat :=
  fun w =>
    (Ok (w_calls w),
     mkWorld (w_fs w) (w_jobs w) (w_now w + elapsed env (w_calls w)) (S (w_calls w))
             (w_commands w) (w_jobs w :: w_observed w) (w_history w)).

Definition await {A} (env : Env) (request : nat -> outcome A) : M A :=
  n <- suspend env ;;
  match request n with
  | Ok a => ret a
  | Throw e => throw e
  end.

(** [executeCommand(command, cwd)]: the promise resolves with the standard
    output of the command, or rejects with the error of [exec]. *)
Definition executeCommand (env : Env) (command cwd : str) : M str :=
  fun w =>
    let '(r, fs') := exec env (w_calls w) command cwd (w_fs w) in
    (r, mkWorld fs' (w_jobs w) (w_now w + elapsed env (w_calls w)) (S (w_calls w))
                (w_commands w ++ [(command, cwd)]) (w_jobs w :: w_observed w) (w_history w)).

(** The synchronous calls of the [fs] module. *)
Definition existsSync (p : str) : M bool :=
  fun w => (Ok (match fs_lookup (w_fs w) (path_segments p) with
                | Some _ => true
                | None => false
                end), w).

Definition mkdirSync_recursive (p : str) : M unit :=
  w <- get_world ;;
  match fs_mkdirp (w_fs w) (path_segments p) with
  | Some fs' => set_fs fs'
  | None => throw (fs_message ENOTDIR (lit "mkdir") p)
  end.

Definition writeFileSync (p content : str) : M unit :=
  w <- get_world ;;
  if endsWith [slash] p then throw (fs_message EISDIR (lit "open") p)
  else
    match fs_write (w_fs w) (path_segments p) content with
    | inl fs' => set_fs fs'
    | inr e => throw (fs_message e (lit "open") p)
    end.

Definition rmSync_recursive_force (p : str) : M unit :=
  w <- get_world ;;
  set_fs (fs_remove (w_fs w) (path_segments p)).

Definition readdir_files (dir : str) : M (list str) :=
  w <- get_world ;;
  match fs_lookup (w_fs w) (path_segments dir) with
  | Some (Dir es) => ret (list_files [] (Dir es))
  | Some (File _) => throw (fs_message ENOTDIR (lit "scandir") dir)
  | None => throw (fs_message ENOENT (lit "scandir") dir)
  end.

Definition sleep (ms : nat) : M unit :=
  fun w =>
    (Ok tt, mkWorld (w_fs w) (w_jobs w) (w_now w + ms) (w_calls w)
                    (w_commands w) (w_jobs w :: w_observed w) (w_history w)).

(** An assignment to a field of the job object held by the store under [id].
    Without such an object the assignment is a [TypeError]. *)
Definition job_assign (id : str) (f : Job -> Job) : M unit :=
  fun w =>
    match jobs_get (w_jobs w) id with
    | Some j =>
        (Ok tt, mkWorld (w_fs w) (jobs_set (w_jobs w) id (f j)) (w_now w) (w_calls w)
                        (w_commands w) (w_observed w) ((id, f j) :: w_history w))
    | None => (Throw (lit "Cannot set properties of undefined"), w)
    end.

Definition set_status (s : Status) (j : Job) : Job :=
  mkJob (job_id j) (job_prompt j) (job_outputDir j) s (job_created j) (job_lastUpdated j)
        (job_completed j) (job_apiProvider j) (job_files j) (job_fileContents j)
        (job_deploymentUrl j) (job_deploymentOutput j) (job_error j).

Definition set_lastUpdated (t : nat) (j : Job) : Job :=
  mkJob (job_id j) (job_prompt j) (job_outputDir j) (job_status j) (job_created j) t
        (job_completed j) (job_apiProvider j) (job_files j) (job_fileContents j)
        (job_deploymentUrl j) (job_deploymentOutput j) (job_error j).

Definition set_completed (b : bool) (j : Job) : Job :=
  mkJob (job_id j) (job_prompt j) (job_outputDir j) (job_status j) (job_created j)
        (job_lastUpdated j) b (job_apiProvider j) (job_files j) (job_fileContents j)
        (job_deploymentUrl j) (job_deploymentOutput j) (job_error j).

Definition set_files (l : list str) (j : Job) : Job :=
  mkJob (job_id j) (job_prompt j) (job_outputDir j) (job_status j) (job_created j)
        (job_lastUpdated j) (job_completed j) (job_apiProvider j) (Some l) (job_fileContents j)
        (job_deploymentUrl j) (job_deploymentOutput j) (job_error j).

Definition set_fileContents (c : obj) (j : Job) : Job :=
  mkJob (job_id j) (job_prompt j) (job_outputDir j) (job_status j) (job_created j)
        (job_lastUpdated j) (job_completed j) (job_apiProvider j) (job_files j) (Some c)
        (job_deploymentUrl j) (job_deploymentOutput j) (job_error j).

Definition set_deploymentUrl (u : str) (j : Job) : Job :=
  mkJob (job_id j) (job_prompt j) (job_outputDir j) (job_status j) (job_created j)
        (job_lastUpdated j) (job_completed j) (job_apiProvider j) (job_files j)
        (job_fileContents j) (Some u) (job_deploymentOutput j) (job_error j).

Definition set_deploymentOutput (o : str) (j : Job) : Job :=
  mkJob (job_id j) (job_prompt j) (job_outputDir j) (job_status j) (job_created j)
        (job_lastUpdated j) (job_completed j) (job_apiProvider j) (job_files j)
        (job_fileContents j) (job_deploymentUrl j) (Some o) (job_error j).

Definition set_error (e : str) (j : Job) : Job :=
  mkJob (job_id j) (job_prompt j) (job_outputDir j) (job_status j) (job_created j)
        (job_lastUpdated j) (job_completed j) (job_apiProvider j) (job_files j)
        (job_fileContents j) (job_deploymentUrl j) (job_deploymentOutput j) (Some e).

(** [job.lastUpdated = Date.now()] *)
Definition touch (id : str) : M unit :=
  t <- Date_now ;; job_assign id (set_lastUpdated t).

(** ** createScaffoldedProject and addGeneratedCodeToProject *)

Definition scaffold_command (info : ProjectInfo) : str :=
  match framework info with
  | next =>
      let template := match language info with
                      | typescript => lit "--typescript"
                      | javascript => []
                      end in
      lit "npx create-next-app@latest . " ++ template ++
      lit " --eslint --use-npm --src-dir --app --tailwind=false"
  | react =>
      let template := match language info with
                      | typescript => lit "react-ts"
                      | javascript => lit "react"
                      end in
      lit "npx create-vite@latest . --template " ++ template
  end.

Definition createScaffoldedProject (env : Env) (outputDir : str) (info : ProjectInfo) : M str :=
  let scaffoldCmd := scaffold_command info in
  executeCommand env scaffoldCmd outputDir ;;
  match cssFramework info, framework info with
  | Some tailwind, react =>
      executeCommand env (lit "npm install -D tailwindcss postcss autoprefixer") outputDir ;;
      executeCommand env (lit "npx tailwindcss init -p") outputDir ;;
      ret outputDir
  | _, _ => ret outputDir
  end.

(** The loop of [addGeneratedCodeToProject(projectDir, files)], over the
    entries that [Object.entries(files)] yields: the caller hands them over
    as [Object_entries files]. *)
Fixpoint addGeneratedCodeToProject (projectDir : str) (entries : list (str * str)) : M unit :=
  match entries with
  | [] => ret tt
  | (filename, content) :: entries' =>
      let filePath := path_join [projectDir; filename] in
      let directory := path_dirname filePath in
      present <- existsSync directory ;;
      (if present then ret tt else mkdirSync_recursive directory) ;;
      writeFileSync filePath content ;;
      addGeneratedCodeToProject projectDir entries'
  end.

(** ** testBuildProject *)

Definition dquote : ascii := ascii_of_nat 34.
Definition is_quote (c : ascii) : bool := chr_eqb c dquote || chr_eqb c "'"%char.

(** [/Could not resolve ["'](.+?.css)["']/] *)
Definition missingFileRegex : regex :=
  seqs [ Lt "Could not resolve ";
         Chr is_quote;
         Group 1 (seqs [ PlusLazy (Chr dot); Chr dot; Lt "css" ]);
         Chr is_quote ].

(** [/from ["'](.+?)["']/] *)
Definition componentRegex : regex :=
  seqs [ Lt "from "; Chr is_quote; Group 1 (PlusLazy (Chr dot)); Chr is_quote ].

Definition build_command : str := lit "npm run build".

Definition has_source_extension (p : str) : bool :=
  endsWith (lit ".js") p || endsWith (lit ".jsx") p ||
  endsWith (lit ".ts") p || endsWith (lit ".tsx") p.

(** The [for (const ext of ['.jsx', '.js', '.tsx', '.ts'])] loop with its
    [break]. *)
Fixpoint try_extensions (componentFullPath : str) (exts : list str) : M str :=
  match exts with
  | [] => ret componentFullPath
  | ext :: exts' =>
      present <- existsSync (componentFullPath ++ ext) ;;
      if present then ret (componentFullPath ++ ext)
      else try_extensions componentFullPath exts'
  end.

Definition placeholder_css (componentFullPath : str) : str :=
  lit "/* Auto-generated CSS file for " ++ path_basename componentFullPath ++ lit " */" ++ nl.

(** What the [catch] block does with the message of the failed build. *)
Definition repair_and_retry (env : Env) (projectDir message : str) : M bool :=
  if includes (lit "Could not resolve") message && includes (lit ".css") message then
    match str_match missingFileRegex message with
    | Some missingFileMatch =>
        if truthy (m_group missingFileMatch 1) then
          let missingFile := group_text missingFileMatch 1 in
          match str_match componentRegex message with
          | Some componentMatch =>
              if truthy (m_group componentMatch 1) then
                let componentPath := group_text componentMatch 1 in
                let joined := path_join [projectDir; lit "src"; componentPath] in
                componentFullPath <-
                  (if has_source_extension joined then ret joined
                   else try_extensions joined (map lit [".jsx"; ".js"; ".tsx"; ".ts"]%string)) ;;
                found <- existsSync componentFullPath ;;
                if found then
                  let cssFileName := path_basename missingFile in
                  let cssFilePath := path_join [path_dirname componentFullPath; cssFileName] in
                  writeFileSync cssFilePath (placeholder_css componentFullPath) ;;
                  try_catch
                    (executeCommand env build_command projectDir ;; ret true)
                    (fun _ => ret false)
                else ret false
              else ret false
          | None => ret false
          end
        else ret false
    | None => ret false
    end
  else ret false.

Definition testBuildProject (env : Env) (projectDir : str) : M bool :=
  try_catch
    (executeCommand env build_command projectDir ;; ret true)
    (fun message => repair_and_retry env projectDir message).

(** ** deployToVercel *)

Inductive DeployResult : Type :=
| DeploySuccess (url output : str)
| DeployFailure (error : str).

Definition not_space (c : ascii) : bool := negb (is_space c).

(** [/(https:\/\/[^\s]+)/] *)
Definition urlRegex : regex :=
  Group 1 (seqs [ Lt "https://"; Plus (Chr not_space) ]).

(** [[a-z0-9]] *)
Definition lower_alnum (c : ascii) : bool := in_range 97 122 c || in_range 48 57 c.

(** [/-[a-z0-9]+\.vercel\.app/] *)
Definition previewSuffixRegex : regex :=
  seqs [ Lt "-"; Plus (Chr lower_alnum); Lt ".vercel.app" ].

(** From the output of the deployment command to the address that is
    reported, or [None] when no address is found. *)
Definition parse_deployment_url (deployOutput : str) : option str :=
  let deploymentUrl :=
    match str_match urlRegex deployOutput with
    | Some urlMatch => Some (trim (m_text urlMatch))
    | None => None
    end in
  if truthy deploymentUrl then
    let url := match deploymentUrl with Some u => u | None => [] end in
    let url := str_replace previewSuffixRegex (lit ".vercel.app") url in
    let url := if endsWith [slash] url then url else url ++ [slash] in
    if truthy (Some url) then Some url else None
  else None.

Definition deploy_command (token projectName : str) : str :=
  lit "npx vercel deploy --token=" ++ token ++ lit " --name=" ++ projectName ++
  lit " --confirm --prod".

Definition deployToVercel (env : Env) (projectDir projectName : str) : M DeployResult :=
  if negb (truthy (VERCEL_TOKEN env)) then
    throw (lit "Vercel token not configured. Cannot deploy project.")
  else
    let token := match VERCEL_TOKEN env with Some t => t | None => [] end in
    try_catch
      (executeCommand env (lit "npm install") projectDir ;;
       executeCommand env (lit "npm install @vitejs/plugin-react --save-dev") projectDir ;;
       let vercelConfigDir := path_join [projectDir; lit ".vercel"] in
       stale <- existsSync vercelConfigDir ;;
       (if stale then rmSync_recursive_force vercelConfigDir else ret tt) ;;
       writeFileSync (path_join [projectDir; lit ".vercelignore"])
                     (lit "README.md" ++ nl ++ lit "node_modules" ++ nl ++ lit ".git") ;;
       deployOutput <- executeCommand env (deploy_command token projectName) projectDir ;;
       match parse_deployment_url deployOutput with
       | Some deploymentUrl => ret (DeploySuccess deploymentUrl deployOutput)
       | None => throw (lit "Could not extract deployment URL from Vercel output")
       end)
      (fun message => ret (DeployFailure message)).

(** ** The generation backends *)

Definition POLLING_INTERVAL_MS : nat := 2000.
Definition MAX_POLLING_ATTEMPTS : nat := 300.

(** The request text sent to the OpenAI assistant and to Gemini. *)
Definition enhancedPrompt (prompt : str) : str :=
  lit "
I need you to generate code for a web application based on the following requirements:

" ++ prompt ++ lit "

Please provide ALL the code files needed for this project including:
1. React components (.jsx/.tsx files)
2. CSS/Styling files
3. Configuration files (like package.json, vite.config.js, etc.)
4. Any utility functions or hooks
5. Main entry points (index.js, App.js, etc.)

For each code file, please use the format:
```language
// filename: path/to/filename.ext
// Code content here
```

DO NOT try to execute npm or npx commands - just provide the code files.
I will handle the setup and installation myself.
".

(** The request text sent to Claude. *)
Definition claudePrompt (prompt : str) : str :=
  lit "
You are an expert web development coding assistant. Generate ALL the necessary code files for a web application based on the following requirements:

" ++ prompt ++ lit "

Instructions:
1. Provide complete, working code for each file.
2. Include React components (.jsx or .tsx), CSS/styling, configuration files (package.json, vite.config.js, etc.), utility functions, hooks, and main entry points (index.html, main.jsx/tsx, App.jsx/tsx).
3. VERY IMPORTANT: Format each code file within a markdown code block like this:
```language
// filename: path/to/filename.ext
// Code content starts here
```
   Replace 'language' with the appropriate language identifier (e.g., javascript, jsx, css, json, html).
   Ensure the '// filename: ...' comment is on the line immediately after the opening backticks.
4. Do NOT include explanations outside the code blocks. Only provide the code blocks as requested.
5. Do NOT attempt to execute any commands (like npm install). I will handle the project setup.
".

Definition is_terminal_run_status (s : str) : bool :=
  existsb (str_eqb s) (map lit ["completed"; "failed"; "cancelled"; "expired"]%string).

(** [pollForRunCompletion]: [attempts_left] is what remains of
    [MAX_POLLING_ATTEMPTS]. *)
Fixpoint poll_loop (env : Env) (threadId runId : str) (attempts_left : nat) : M str :=
  match attempts_left with
  | 0 => throw (lit "Run polling timed out after maximum attempts")
  | S n =>
      run_status <- await env (fun k => threads_runs_retrieve env k threadId runId) ;;
      if is_terminal_run_status run_status then ret run_status
      else if str_eqb run_status (lit "requires_action") then ret (lit "failed")
      else sleep POLLING_INTERVAL_MS ;; poll_loop env threadId runId n
  end.

Definition pollForRunCompletion (env : Env) (threadId runId : str) : M str :=
  poll_loop env threadId runId MAX_POLLING_ATTEMPTS.

Definition text_of_parts (parts : list (option str)) : str :=
  fold_left (fun textContent part =>
               match part with
               | Some value => textContent ++ value
               | None => textContent
               end) parts [].

(** [extractCodeFromAssistantResponse]: the most recent assistant message of
    the thread is read, and its text goes through the same loop and the same
    detection as in [extractCodeFromResponse]. *)
Definition extractCodeFromAssistantResponse (env : Env) (threadId : str) : M GenerationResult :=
  messagesList <- await env (fun k => threads_messages_list env k threadId) ;;
  match find (fun m => str_eqb (msg_role m) (lit "assistant")) messagesList with
  | None => throw (lit "No assistant message found in thread")
  | Some assistantMessage =>
      ret (extractCodeFromResponse (text_of_parts (msg_text_parts assistantMessage)))
  end.

Definition generateCodeWithGemini (env : Env) (prompt : str) : M GenerationResult :=
  text <- await env (fun k => generateContent env k (enhancedPrompt prompt)) ;;
  ret (extractCodeFromResponse text).

Definition generateCodeWithClaude (env : Env) (prompt : str) : M GenerationResult :=
  if negb (anthropic env) then
    throw (lit "Anthropic client not initialized. Check ANTHROPIC_API_KEY.")
  else
    content <- await env (fun k => messages_create env k (claudePrompt prompt)) ;;
    let responseText :=
      match content with
      | b :: _ => if str_eqb (block_type b) (lit "text") then block_text b else []
      | [] => []
      end in
    match responseText with
    | [] => throw (lit "Received empty response from Claude API")
    | _ => ret (extractCodeFromResponse responseText)
    end.

Definition generate_with (env : Env) (prompt apiProvider : str) : M GenerationResult :=
  if str_eqb apiProvider (lit "openai") then
    threadId <- await env (threads_create env) ;;
    await env (fun k => threads_messages_create env k threadId (enhancedPrompt prompt)) ;;
    runId <- await env (fun k => threads_runs_create env k threadId) ;;
    run_status <- pollForRunCompletion env threadId runId ;;
    if negb (str_eqb run_status (lit "completed")) then
      throw (lit "Assistant Run failed: " ++ run_status)
    else extractCodeFromAssistantResponse env threadId
  else if str_eqb apiProvider (lit "gemini") then generateCodeWithGemini env prompt
  else if str_eqb apiProvider (lit "claude") then generateCodeWithClaude env prompt
  else throw (lit "Unsupported API provider: " ++ apiProvider).

(** ** processGenerateAndDeploy *)

Definition OUTPUT_DIR_BASE (env : Env) : str :=
  path_join [dirname env; lit "generated_projects"].

Definition ONE_MEGABYTE : N := (1024 * 1024)%N.

(** Step 9: the content of the small text files.  A file that cannot be read
    is skipped. *)
Definition read_small_text_files (fs : node) (outputDir : str) (projectFiles : list str) : obj :=
  fold_left
    (fun fileContents file =>
       match fs_lookup fs (path_segments (path_join [outputDir; file])) with
       | Some (File content) =>
           if (utf8_size content <? ONE_MEGABYTE)%N && isTextFile file
           then obj_set fileContents file content
           else fileContents
       | _ => fileContents
       end)
    projectFiles [].

Definition NO_TOKEN_MESSAGE : str :=
  lit "Vercel token not configured. Project generated but not deployed.".

Definition NO_FILES_MESSAGE : str := lit "No code files found in API response".

(** The body of the [try] block. *)
Definition pipeline (env : Env) (prompt uniqueId apiProvider outputDir : str) : M unit :=
  job_assign uniqueId (set_status generating) ;;
  touch uniqueId ;;
  result <- generate_with env prompt apiProvider ;;
  match obj_keys (files result) with
  | [] => throw NO_FILES_MESSAGE
  | _ =>
      job_assign uniqueId (set_status scaffolding) ;;
      touch uniqueId ;;
      createScaffoldedProject env outputDir (projectInfo result) ;;
      addGeneratedCodeToProject outputDir (Object_entries (files result)) ;;
      projectFiles <- readdir_files outputDir ;;
      w <- get_world ;;
      let fileContents := read_small_text_files (w_fs w) outputDir projectFiles in
      job_assign uniqueId (set_files projectFiles) ;;
      job_assign uniqueId (set_fileContents fileContents) ;;
      job_assign uniqueId (set_status deploying) ;;
      touch uniqueId ;;
      (if truthy (VERCEL_TOKEN env) then
         let projectName := lit "ai-project-" ++ uniqueId in
         deployResult <- deployToVercel env outputDir projectName ;;
         match deployResult with
         | DeploySuccess url output =>
             job_assign uniqueId (set_status completed) ;;
             job_assign uniqueId (set_deploymentUrl url) ;;
             job_assign uniqueId (set_deploymentOutput output)
         | DeployFailure error =>
             job_assign uniqueId (set_status deployment_failed) ;;
             job_assign uniqueId (set_error error)
         end
       else
         job_assign uniqueId (set_status completed_without_deployment) ;;
         job_assign uniqueId (set_error NO_TOKEN_MESSAGE)) ;;
      touch uniqueId ;;
      job_assign uniqueId (set_completed true)
  end.

(** The [catch] block, also used by the handler attached to the promise of
    the task. *)
Definition record_failure (uniqueId message : str) : M unit :=
  job_assign uniqueId (set_status failed) ;;
  job_assign uniqueId (set_error message) ;;
  touch uniqueId ;;
  job_assign uniqueId (set_completed true).

Definition processGenerateAndDeploy (env : Env) (prompt uniqueId apiProvider : str) : M unit :=
  let outputDir := path_join [OUTPUT_DIR_BASE env; uniqueId] in
  try_catch (pipeline env prompt uniqueId apiProvider outputDir)
            (fun message => record_failure uniqueId message).

(** The background task as the request handler starts it: a rejection of the
    promise is handled by recording the failure when the job exists. *)
Definition background_task (env : Env) (prompt uniqueId apiProvider : str) : M unit :=
  try_catch (processGenerateAndDeploy env prompt uniqueId apiProvider)
            (fun message =>
               w <- get_world ;;
               match jobs_get (w_jobs w) uniqueId with
               | Some _ => record_failure uniqueId message
               | None => ret tt
               end).

(** ** POST /generateProject *)

Record GenerateRequest : Type := mkGenerateRequest {
  body_prompt : option str;
  body_apiProvider : option str
}.

Inductive GenerateResponse : Type :=
| BadRequest (error : str)
| Started (jobId status statusUrl : str).

Definition validProviders : list str := map lit ["openai"; "gemini"; "claude"]%string.

Definition new_job (uniqueId prompt apiProvider : str) (now : nat) : Job :=
  mkJob uniqueId prompt (lit "generated_projects/" ++ uniqueId) pending now now false
        apiProvider None None None None None.

Definition store_job (uniqueId : str) (j : Job) : M unit :=
  fun w =>
    (Ok tt, mkWorld (w_fs w) (jobs_set (w_jobs w) uniqueId j) (w_now w) (w_calls w)
                    (w_commands w) (w_observed w) ((uniqueId, j) :: w_history w)).

(** The handler up to the point where the background task is started: the
    answer, and the job to process when the request is accepted. *)
Definition generateProject (env : Env) (req : GenerateRequest)
    : M (GenerateResponse * option (str * str * str)) :=
  let apiProvider := match body_apiProvider req with
                     | Some p => p
                     | None => lit "openai"
                     end in
  if negb (truthy (body_prompt req)) then
    ret (BadRequest (lit "Missing required field: prompt"), None)
  else if negb (existsb (str_eqb apiProvider) validProviders) then
    ret (BadRequest (lit "Invalid apiProvider. Must be one of: " ++
                     join_with (lit ", ") validProviders), None)
  else if str_eqb apiProvider (lit "openai") && negb (truthy (ASSISTANT_ID env)) then
    ret (BadRequest (lit "OpenAI provider selected, but OPENAI_API_KEY or ASSISTANT_ID is missing or invalid."), None)
  else if str_eqb apiProvider (lit "gemini") && negb (genAI env) then
    ret (BadRequest (lit "Gemini provider selected, but GOOGLE_API_KEY is missing or invalid."), None)
  else if str_eqb apiProvider (lit "claude") && negb (anthropic env) then
    ret (BadRequest (lit "Claude provider selected, but ANTHROPIC_API_KEY is missing or invalid."), None)
  else
    let prompt := match body_prompt req with Some p => p | None => [] end in
    w <- get_world ;;
    let uniqueId := randomBytes_hex env (w_calls w) in
    let outputDir := path_join [OUTPUT_DIR_BASE env; uniqueId] in
    mkdirSync_recursive outputDir ;;
    now <- Date_now ;;
    store_job uniqueId (new_job uniqueId prompt apiProvider now) ;;
    ret (Started uniqueId (lit "pending") (lit "/getDeploymentStatus?jobId=" ++ uniqueId),
         Some (prompt, uniqueId, apiProvider)).

(** The handler followed by the background task it started, run to its end. *)
Definition submit_and_process (env : Env) (req : GenerateRequest) : M GenerateResponse :=
  r <- generateProject env req ;;
  match r with
  | (response, Some (prompt, uniqueId, apiProvider)) =>
      background_task env prompt uniqueId apiProvider ;;
      ret response
  | (response, None) => ret response
  end.

(** ** GET /getDeploymentStatus *)

Record StatusQuery : Type := mkStatusQuery {
  query_jobId : option str;
  query_includeFiles : option str
}.

(** The body of a successful answer; a field that is [None] is absent. *)
Record StatusBody : Type := mkStatusBody {
  r_success : bool;
  r_jobId : str;
  r_status : str;
  r_created : nat;
  r_lastUpdated : nat;
  r_outputDir : option str;
  r_error : option str;
  r_files : option (list str);
  r_deploymentUrl : option str;
  r_fileContents : option obj
}.

Inductive StatusResponse : Type :=
| Status400 (error : str)
| Status404 (error : str)
| Status200 (body : StatusBody).

Definition is_true_text (v : option str) : bool :=
  match v with
  | Some t => str_eqb t (lit "true")
  | None => false
  end.

Definition status_body (job : Job) (includeFiles : option str) : StatusBody :=
  if job_completed job then
    mkStatusBody true (job_id job) (status_text (job_status job))
      (job_created job) (job_lastUpdated job)
      (Some (job_outputDir job))
      (if truthy (job_error job) then job_error job else None)
      (job_files job)
      (if truthy (job_deploymentUrl job) then job_deploymentUrl job else None)
      (if is_true_text includeFiles then job_fileContents job else None)
  else
    mkStatusBody true (job_id job) (status_text (job_status job))
      (job_created job) (job_lastUpdated job) None None None None None.

Definition getDeploymentStatus (jobs : JobStore) (q : StatusQuery) : StatusResponse :=
  if negb (truthy (query_jobId q)) then
    Status400 (lit "Missing required parameter: jobId")
  else
    let jobId := match query_jobId q with Some i => i | None => [] end in
    match jobs_get jobs jobId with
    | None => Status404 (lit "Job not found")
    | Some job => Status200 (status_body job (query_includeFiles q))
    end.

Unset Implicit Arguments.

(** ** Vocabulary of the statements *)

(** Every character test of [r] accepts only code units that satisfy [P]. *)
Fixpoint atoms_sat (P : ascii -> bool) (r : regex) : Prop :=
  match r with
  | Eps | Bol => True
  | Chr p => forall c, p c = true -> P c = true
  | Seq r1 r2 | Alt r1 r2 => atoms_sat P r1 /\ atoms_sat P r2
  | Group _ r' | Rep _ _ _ r' => atoms_sat P r'
  end.

(** Every group numbered [g] in [r] has a body made of such tests. *)
Fixpoint groups_sat (P : ascii -> bool) (g : nat) (r : regex) : Prop :=
  match r with
  | Eps | Bol | Chr _ => True
  | Seq r1 r2 | Alt r1 r2 => groups_sat P g r1 /\ groups_sat P g r2
  | Group g' r' => (g' = g -> atoms_sat P r') /\ groups_sat P g r'
  | Rep _ _ _ r' => groups_sat P g r'
  end.

Definition cap_ok (P : ascii -> bool) (g : nat) (c : nat -> option str) : Prop :=
  forall v, c g = Some v -> forallb P v = true.

(** [y] is reached from [x] by consuming a prefix [w] of the input, at least
    [n] code units long. *)
Definition step_ok (P : ascii -> bool) (g : nat) (atoms grps : Prop) (n : nat)
    (x y : mstate) : Prop :=
  exists w,
    rest x = w ++ rest y /\
    endIndex y = endIndex x + length w /\
    n <= length w /\
    (atoms -> forallb P w = true) /\
    (grps -> cap_ok P g (captures x) -> cap_ok P g (captures y)).

(** A lower bound on what a match of [r] consumes. *)
Fixpoint min_len (r : regex) : nat :=
  match r with
  | Eps | Bol => 0
  | Chr _ => 1
  | Seq r1 r2 => min_len r1 + min_len r2
  | Alt r1 r2 => Nat.min (min_len r1) (min_len r2)
  | Group _ r' => min_len r'
  | Rep _ _ _ _ => 0
  end.

(** A text without backtick. *)
Definition backtick_free (s : str) : Prop := forallb not_backtick s = true.


Definition is_digit (c : ascii) : bool := in_range 48 57 c.

(** What the proofs need to know of an extension: it holds no backtick and
    starts with a code unit that is not a digit. *)
Definition ext_ok (e : str) : bool :=
  forallb not_backtick e &&
  match e with
  | c :: _ => negb (is_digit c)
  | [] => false
  end.

(** The scenario of the specification: a [jsx] block whose first line is the
    filename directive. *)
Definition scenario_text : str :=
  lit "```jsx" ++ nl ++ lit "// filename: src/App.jsx" ++ nl ++
  lit "export default () => null;" ++ nl ++ lit "```".

Definition entries_backtick_free (o : obj) : Prop :=
  forall k v, In (k, v) o -> backtick_free k /\ backtick_free v.

(** The address of the deployment scenario and its stable form. *)
Definition preview_url : str := lit "https://ai-project-abc-xyz12.vercel.app".
Definition production_url : str := lit "https://ai-project-abc.vercel.app/".



(** A fenced block written the way the prompts ask for it: the language tag,
    the filename directive on the next line, the content, the closing
    fence. *)
Definition fenced_block (lang filename content : str) : str :=
  lit "```" ++ lang ++ nl ++ lit "// filename: " ++ filename ++ nl ++
  content ++ nl ++ lit "```".

(** Two blocks for the same file; the second one uses a template literal. *)
Definition first_version : str := lit "export const greet = (n) => 'hi ' + n;".
Definition second_version : str := lit "export const greet = (n) => `hi ${n}`;".

Definition two_versions_text : str :=
  fenced_block (lit "js") (lit "src/greet.js") first_version ++ nl ++ nl ++
  fenced_block (lit "js") (lit "src/greet.js") second_version.

(** The same, with a second version that holds no backtick. *)
Definition third_version : str := lit "export const greet = (n) => 'hello ' + n;".

Definition two_plain_versions_text : str :=
  fenced_block (lit "js") (lit "src/greet.js") first_version ++ nl ++ nl ++
  fenced_block (lit "js") (lit "src/greet.js") third_version.


Definition str_dec : forall a b : str, {a = b} + {a <> b} := list_eq_dec ascii_dec.

(** ** Vocabulary for the runs of the server *)

(** A computation keeps a relation between the world before and after. *)
Definition preserved (R : World -> World -> Prop) {A : Type} (c : M A) : Prop :=
  forall w, R w (snd (c w)).

(** A Hoare triple: from a world that satisfies [P], the outcome and the
    world reached satisfy [Q]. *)
Definition hoare {A : Type} (P : World -> Prop) (c : M A)
    (Q : outcome A -> World -> Prop) : Prop :=
  forall w, P w -> Q (fst (c w)) (snd (c w)).

(** A step that leaves the jobs alone: the store and the history are the
    same, and what was observed meanwhile is the store as it stands. *)
Definition quiet_step (w w' : World) : Prop :=
  w_jobs w' = w_jobs w /\
  w_history w' = w_history w /\
  exists k, w_observed w' = repeat (w_jobs w) k ++ w_observed w.

(** A step that runs no build: the commands it adds to the log are other
    commands than [npm run build]. *)
Definition no_build_step (w w' : World) : Prop :=
  exists cmds, w_commands w' = w_commands w ++ cmds /\
               Forall (fun c => fst c <> build_command) cmds.

(** ** Vocabulary for the life of a job *)

Definition is_terminal (s : Status) : bool :=
  match s with
  | completed | completed_without_deployment | deployment_failed | failed => true
  | _ => false
  end.

(** The graph of the state machine: the path from [pending] to [deploying],
    the three ways out of [deploying], and the jump to [failed]. *)
Definition edge (a b : Status) : bool :=
  match a, b with
  | pending, generating
  | generating, scaffolding
  | scaffolding, deploying
  | deploying, completed
  | deploying, completed_without_deployment
  | deploying, deployment_failed => true
  | _, failed => true
  | _, _ => false
  end.

(** How far a status is along the graph. *)
Definition rank (s : Status) : nat :=
  match s with
  | pending => 0
  | generating => 1
  | scaffolding => 2
  | deploying => 3
  | _ => 4
  end.

(** One assignment to the job: the status stays, or follows an edge out of a
    state that is not terminal. *)
Definition step (a b : Status) : Prop :=
  a = b \/ (edge a b = true /\ is_terminal a = false).

(** A sequence of statuses, the oldest first, that only advances. *)
Fixpoint advances (l : list Status) : Prop :=
  match l with
  | a :: l' =>
      match l' with
      | b :: _ => step a b /\ advances l'
      | [] => True
      end
  | [] => True
  end.

(** The same, read from the most recent status back to [pending]. *)
Fixpoint descends (l : list Status) : Prop :=
  match l with
  | b :: l' =>
      match l' with
      | a :: _ => step a b /\ descends l'
      | [] => b = pending
      end
  | [] => False
  end.

Definition statuses (hist : list (str * Job)) : list Status :=
  map (fun e => job_status (snd e)) hist.

(** The job [id] is in the store with this status and this flag. *)
Definition job_at (id : str) (s : Status) (done : bool) (jobs : JobStore) : Prop :=
  exists j, jobs_get jobs id = Some j /\ job_status j = s /\ job_completed j = done.

(** What an observer may see of a job in progress. *)
Definition in_progress (id : str) (jobs : JobStore) : Prop :=
  exists j, jobs_get jobs id = Some j /\
            job_completed j = false /\ is_terminal (job_status j) = false.

(** The logs written since the world [w0], and where the job [id] stands. *)
Definition job_state (w0 : World) (id : str) (s : Status) (done : bool) (w : World) : Prop :=
  exists hist obs,
    w_history w = hist ++ w_history w0 /\
    w_observed w = obs ++ w_observed w0 /\
    Forall (fun e => fst e = id) hist /\
    descends (statuses hist) /\
    hd_error (statuses hist) = Some s /\
    Forall (in_progress id) obs /\
    job_at id s done (w_jobs w).

Definition job_running (w0 : World) (id : str) (w : World) : Prop :=
  exists s, is_terminal s = false /\ job_state w0 id s false w.

Definition job_done (w0 : World) (id : str) (w : World) : Prop :=
  exists s, is_terminal s = true /\ job_state w0 id s true w.

(** What holds after the [try] block: the job is done when the block ends,
    still running when it throws. *)
Definition pipeline_post (w0 : World) (id : str) (r : outcome unit) (w : World) : Prop :=
  match r with
  | Ok _ => job_done w0 id w
  | Throw _ => job_running w0 id w
  end.

(** The first two statements of the task. *)
Definition mark_generating (id : str) : M unit :=
  job_assign id (set_status generating) ;; touch id.


(** The world after the assignment [f] to the job [j] stored under [id]. *)
Definition assigned (id : str) (f : Job -> Job) (j : Job) (w : World) : World :=
  mkWorld (w_fs w) (jobs_set (w_jobs w) id (f j)) (w_now w) (w_calls w)
          (w_commands w) (w_observed w) ((id, f j) :: w_history w).



(** ** A sample environment

    One generation backend (Gemini) that answers with the scenario text, a
    scaffolding tool that writes a manifest, and a deployment tool that prints
    the preview address. *)

Definition demo_exec (k : nat) (command cwd : str) (fs : node) : outcome str * node :=
  if startsWith (lit "npx create-vite") command then
    match fs_write fs (path_segments (path_join [cwd; lit "package.json"])) (lit "{}") with
    | inl fs' => (Ok (lit "done"), fs')
    | inr _ => (Throw (lit "Command failed: npx create-vite"), fs)
    end
  else if startsWith (lit "npx vercel") command then
    (Ok (lit "Production: " ++ preview_url ++ lit " [3s]"), fs)
  else (Ok [], fs).

Definition demo_env (token : option str) (answer : str) : Env :=
  mkEnv (lit "/srv/app") token None true false demo_exec
        (fun _ => Throw (lit "not configured"))
        (fun _ _ _ => Throw (lit "not configured"))
        (fun _ _ => Throw (lit "not configured"))
        (fun _ _ _ => Throw (lit "not configured"))
        (fun _ _ => Throw (lit "not configured"))
        (fun _ _ => Ok answer)
        (fun _ _ => Throw (lit "not configured"))
        (fun _ => lit "abc")
        (fun _ => 5).

Definition demo_world : World := mkWorld (Dir []) [] 1000 0 [] [] [].

Definition demo_request : GenerateRequest :=
  mkGenerateRequest (Some (lit "counter app")) (Some (lit "gemini")).



(** ** Vocabulary for the build-validate-repair loop *)

(** The failure of a build that names an unresolved stylesheet: the missing
    file and the path of the importing component, both read from the error
    text. *)
Definition unresolved_css_import (message : str) : option (str * str) :=
  if includes (lit "Could not resolve") message && includes (lit ".css") message then
    match str_match missingFileRegex message with
    | Some m1 =>
        match m_group m1 1, str_match componentRegex message with
        | Some (c1 :: f), Some m2 =>
            match m_group m2 1 with
            | Some (c2 :: p) => Some (c1 :: f, c2 :: p)
            | _ => None
            end
        | _, _ => None
        end
    | None => None
    end
  else None.

Definition on_disk (fs : node) (p : str) : bool :=
  match fs_lookup fs (path_segments p) with
  | Some _ => true
  | None => false
  end.

(** The component file on disk: the path as it is when it ends with a source
    extension; otherwise the first of [.jsx], [.js], [.tsx], [.ts] that gives
    an existing path, and failing that the path as it is. *)
Definition locate_component (fs : node) (projectDir componentPath : str) : option str :=
  let joined := path_join [projectDir; lit "src"; componentPath] in
  let candidates :=
    if has_source_extension joined then [joined]
    else map (fun ext => joined ++ ext) (map lit [".jsx"; ".js"; ".tsx"; ".ts"]%string)
         ++ [joined] in
  find (on_disk fs) candidates.

(** Where the placeholder goes and beside which component, when the failure
    can be repaired. *)
Definition repair_target (fs : node) (projectDir message : str) : option (str * str) :=
  match unresolved_css_import message with
  | Some (missingFile, componentPath) =>
      match locate_component fs projectDir componentPath with
      | Some componentFullPath =>
          Some (path_join [path_dirname componentFullPath; path_basename missingFile],
                componentFullPath)
      | None => None
      end
  | None => None
  end.

Definition is_ok {A : Type} (r : outcome A) : bool :=
  match r with
  | Ok _ => true
  | Throw _ => false
  end.

(** The four ways in which the helper ends, from the world [w]. *)
Inductive build_outcome (env : Env) (projectDir : str) (w : World)
    : outcome bool * World -> Prop :=
| first_build_succeeds out w1 :
    executeCommand env build_command projectDir w = (Ok out, w1) ->
    build_outcome env projectDir w (Ok true, w1)
| failure_surfaced message w1 :
    executeCommand env build_command projectDir w = (Throw message, w1) ->
    repair_target (w_fs w1) projectDir message = None ->
    build_outcome env projectDir w (Ok false, w1)
| placeholder_not_written message w1 css component e w2 :
    executeCommand env build_command projectDir w = (Throw message, w1) ->
    repair_target (w_fs w1) projectDir message = Some (css, component) ->
    writeFileSync css (placeholder_css component) w1 = (Throw e, w2) ->
    build_outcome env projectDir w (Throw e, w2)
| repaired_and_retried message w1 css component w2 r2 w3 :
    executeCommand env build_command projectDir w = (Throw message, w1) ->
    repair_target (w_fs w1) projectDir message = Some (css, component) ->
    writeFileSync css (placeholder_css component) w1 = (Ok tt, w2) ->
    executeCommand env build_command projectDir w2 = (r2, w3) ->
    build_outcome env projectDir w (Ok (is_ok r2), w3).

(** A build that fails once on a missing stylesheet. *)
Definition css_failure : str :=
  lit "Command failed: npm run build" ++ nl ++
  lit "Could not resolve " ++ [dquote] ++ lit "./App.css" ++ [dquote] ++
  lit " from " ++ [dquote] ++ lit "App" ++ [dquote].

Definition build_exec (k : nat) (command cwd : str) (fs : node) : outcome str * node :=
  if k =? 0 then (Throw css_failure, fs) else (Ok (lit "built"), fs).

Definition build_env : Env :=
  mkEnv (lit "/srv/app") None None true false build_exec
        (fun _ => Throw (lit "not configured"))
        (fun _ _ _ => Throw (lit "not configured"))
        (fun _ _ => Throw (lit "not configured"))
        (fun _ _ _ => Throw (lit "not configured"))
        (fun _ _ => Throw (lit "not configured"))
        (fun _ _ => Throw (lit "not configured"))
        (fun _ _ => Throw (lit "not configured"))
        (fun _ => lit "abc")
        (fun _ => 5).

Definition build_world : World :=
  mkWorld (Dir [(lit "p", Dir [(lit "src", Dir [(lit "App.jsx", File (lit "import './App.css';"))])])])
          [] 1000 0 [] [] [].


(** ** Vocabulary for the further properties *)

(** The match that a backtracking engine reports first: the head of the list
    of the states in which [r] can end. *)
Definition first_match (r : regex) (x y : mstate) : Prop :=
  exists l, matcher r x = y :: l.

(** A text that neither starts nor ends with white space. *)
Definition no_space_at_ends (s : str) : Prop :=
  (forall c s', s = c :: s' -> is_space c = false) /\
  (forall c s', s = s' ++ [c] -> is_space c = false).

(** A block of a response written the way the prompts ask for it: some prose,
    then the fence with its language tag, the filename directive on the next
    line, the content and the closing fence. *)
Record prompted_block : Type := mkPromptedBlock {
  pb_prose : str;
  pb_lang : str;
  pb_name : str;
  pb_content : str
}.

(** The prose holds no backtick, the tag and the name are made of the code
    units that the pattern accepts for them, the content holds no backtick and
    is not blank. *)
Definition well_formed_block (b : prompted_block) : Prop :=
  forallb not_backtick (pb_prose b) = true /\
  forallb lang_chr (pb_lang b) = true /\
  pb_name b <> [] /\
  forallb filename_chr (pb_name b) = true /\
  forallb not_backtick (pb_content b) = true /\
  trim (pb_content b) <> [].

(** The response made of the blocks, one after the other, and of a closing
    text. *)
Fixpoint render_blocks (bs : list prompted_block) (closing : str) : str :=
  match bs with
  | [] => closing
  | b :: bs' =>
      pb_prose b ++ fenced_block (pb_lang b) (pb_name b) (pb_content b)
      ++ render_blocks bs' closing
  end.

(** The files that the blocks ask for: each content, trimmed, is assigned to
    its name, in the order of the blocks. *)
Definition requested_files (bs : list prompted_block) : obj :=
  fold_left (fun o b => obj_set o (pb_name b) (trim (pb_content b))) bs [].

(** The trimmed content of the last block that carries the name [name]. *)
Definition last_content (bs : list prompted_block) (name : str) : option str :=
  fold_left (fun found b => if str_eqb (pb_name b) name then Some (trim (pb_content b))
                            else found) bs None.

(** A response with two blocks for the same file and one for another. *)
Definition sample_blocks : list prompted_block :=
  [ mkPromptedBlock (lit "Here is the app." ++ nl) (lit "jsx") (lit "src/App.jsx")
      (lit "export default () => null;");
    mkPromptedBlock (nl ++ lit "And the styles:" ++ nl) (lit "css") (lit "src/App.css")
      (lit "body { margin: 0; }");
    mkPromptedBlock (nl ++ lit "A better component:" ++ nl) [] (lit "src/App.jsx")
      (lit "export default () => 'hi';") ].

(** The shape of an extension: a dot, then at least one code unit, none of
    which is a dot or a slash. *)
Definition ext_shape (e : str) : bool :=
  match e with
  | c :: e' =>
      is_dot c && negb (str_eqb e' []) &&
      forallb (fun x => negb (is_dot x) && not_slash x) e'
  | [] => false
  end.

(** In every directory of the tree the names are distinct and not empty. *)
Fixpoint proper_names (n : node) : Prop :=
  match n with
  | File _ => True
  | Dir es =>
      NoDup (map fst es) /\
      (fix all (es : list (str * node)) : Prop :=
         match es with
         | [] => True
         | (name, c) :: es' => name <> [] /\ proper_names c /\ all es'
         end) es
  end.

(** A small project tree. *)
Definition sample_tree : node :=
  Dir [ (lit "package.json", File (lit "{}"));
        (lit "src", Dir [ (lit "App.jsx", File (lit "export default () => null;"));
                          (lit "assets", Dir [ (lit "logo.svg", File (lit "<svg/>")) ]) ]);
        (lit ".gitignore", File (lit "node_modules")) ].

(** A world around the small project tree, and two files to lay over it. *)
Definition sample_world : World := mkWorld sample_tree [] 1000 0 [] [] [].

Definition sample_entries : obj :=
  [ (lit "src/App.jsx", lit "export default () => 'new';");
    (lit "README.md", lit "# App") ].

(** A name of a file or of a directory: not empty, neither [.] nor [..], and
    without slash. *)
Definition plain_name (s : str) : Prop :=
  s <> [] /\ s <> lit "." /\ s <> lit ".." /\ forallb not_slash s = true.

(** An assistant whose run never leaves the queue. *)
Definition stalled_env : Env :=
  mkEnv (lit "/srv/app") None (Some (lit "asst_1")) false false
        (fun _ _ _ fs => (Ok [], fs))
        (fun _ => Ok (lit "thread_1"))
        (fun _ _ _ => Ok tt)
        (fun _ _ => Ok (lit "run_1"))
        (fun _ _ _ => Ok (lit "queued"))
        (fun _ _ => Ok [])
        (fun _ _ => Throw (lit "not configured"))
        (fun _ _ => Throw (lit "not configured"))
        (fun _ => lit "abc")
        (fun _ => 5).


(** The job [id] is in the store and satisfies [I]. *)
Definition job_has (id : str) (I : Job -> Prop) (w : World) : Prop :=
  exists j, jobs_get (w_jobs w) id = Some j /\ I j.

(** What a job carries: its status, its flag, whether the listing and the
    contents have been assigned, the address, the output of the deployment
    and the error. *)
Definition job_is (s : Status) (done : bool) (listed captured : bool)
    (url output error : option str) (j : Job) : Prop :=
  job_status j = s /\ job_completed j = done /\
  (job_files j <> None <-> listed = true) /\
  (job_fileContents j <> None <-> captured = true) /\
  job_deploymentUrl j = url /\ job_deploymentOutput j = output /\ job_error j = error.

(** What a finished job carries, by its status.  A deployed job has the
    listing, the contents, the output of the deployment command and the
    address parsed from it, and no error; a job whose deployment failed, or
    that was not deployed for want of a token, has the listing, the contents
    and an error, and no address; a failed job has an error and nothing
    else. *)
Definition finished (env : Env) (j : Job) : Prop :=
  match job_status j with
  | completed =>
      exists url output,
        job_is completed true true true (Some url) (Some output) None j /\
        parse_deployment_url output = Some url /\
        truthy (VERCEL_TOKEN env) = true
  | deployment_failed =>
      exists message,
        job_is deployment_failed true true true None None (Some message) j /\
        truthy (VERCEL_TOKEN env) = true
  | completed_without_deployment =>
      job_is completed_without_deployment true true true None None (Some NO_TOKEN_MESSAGE) j /\
      truthy (VERCEL_TOKEN env) = false
  | failed =>
      exists message, job_is failed true false false None None (Some message) j
  | _ => False
  end.

(** A job on which nothing has been recorded yet. *)
Definition unrecorded (j : Job) : Prop :=
  exists s, is_terminal s = false /\ job_is s false false false None None None j.

(** A generation backend that cannot be reached. *)
Definition offline_env : Env :=
  mkEnv (lit "/srv/app") None None true false
        (fun _ _ _ fs => (Ok [], fs))
        (fun _ => Throw (lit "not configured"))
        (fun _ _ _ => Throw (lit "not configured"))
        (fun _ _ => Throw (lit "not configured"))
        (fun _ _ _ => Throw (lit "not configured"))
        (fun _ _ => Throw (lit "not configured"))
        (fun _ _ => Throw (lit "fetch failed"))
        (fun _ _ => Throw (lit "not configured"))
        (fun _ => lit "abc")
        (fun _ => 5).

(** A step that runs only commands that satisfy [P]; a command is logged
    with its working directory. *)
Definition command_step (P : str * str -> Prop) (w w' : World) : Prop :=
  exists cmds, w_commands w' = w_commands w ++ cmds /\ Forall P cmds.

(** The command lines that the task of the job [id] may run: the four
    scaffolding commands, the two commands that set up Tailwind, the two
    installations and the deployment command. *)
Definition task_command_lines (env : Env) (id : str) : list str :=
  map scaffold_command
    [ mkProjectInfo react javascript None []; mkProjectInfo react typescript None [];
      mkProjectInfo next javascript None []; mkProjectInfo next typescript None [] ]
  ++ [ lit "npm install -D tailwindcss postcss autoprefixer";
       lit "npx tailwindcss init -p";
       lit "npm install";
       lit "npm install @vitejs/plugin-react --save-dev";
       deploy_command (match VERCEL_TOKEN env with Some t => t | None => [] end)
                      (lit "ai-project-" ++ id) ].

(** One of these command lines, run in the output directory of the job. *)
Definition task_command (env : Env) (id : str) (c : str * str) : Prop :=
  In (fst c) (task_command_lines env id) /\ snd c = path_join [OUTPUT_DIR_BASE env; id].

(** A step that leaves the jobs other than [id] as they are. *)
Definition others_kept (id : str) (w w' : World) : Prop :=
  forall id', id' <> id -> jobs_get (w_jobs w') id' = jobs_get (w_jobs w) id'.

(** A world in which another job is already stored. *)
Definition busy_world : World :=
  mkWorld (Dir []) [(lit "zzz", new_job (lit "zzz") (lit "todo list") (lit "gemini") 900)]
          1000 0 [] [] [].

(** A block whose file name starts with [../]. *)
Definition sibling_block : prompted_block :=
  mkPromptedBlock (lit "One more file:" ++ nl) (lit "sh") (lit "../deploy.sh") (lit "echo hi").

(** ** ensureViteConfig

    The helper that writes or completes the configuration of Vite.  It holds
    no [await]: its body runs in one go. *)

(** [s.indexOf(needle)] *)
Fixpoint indexOf (needle s : str) : option nat :=
  if startsWith needle s then Some 0
  else match s with
       | [] => None
       | _ :: s' => option_map S (indexOf needle s')
       end.

(** [s.indexOf(needle, from)], for a position within the text. *)
Definition indexOf_from (needle s : str) (from : nat) : option nat :=
  option_map (Nat.add from) (indexOf needle (skipn from s)).

(** [s.lastIndexOf(needle)] *)
Fixpoint lastIndexOf (needle s : str) : option nat :=
  match s with
  | [] => if startsWith needle [] then Some 0 else None
  | _ :: s' =>
      match lastIndexOf needle s' with
      | Some i => Some (S i)
      | None => if startsWith needle s then Some 0 else None
      end
  end.

(** [s.replace(pattern, replacement)] with a text as pattern: the first
    occurrence is replaced.  The replacements of the code hold no [$]. *)
Definition replace_first (pattern replacement s : str) : str :=
  match indexOf pattern s with
  | Some i => firstn i s ++ replacement ++ skipn (i + length pattern) s
  | None => s
  end.

Definition readFileSync_utf8 (p : str) : M str :=
  w <- get_world ;;
  match fs_lookup (w_fs w) (path_segments p) with
  | Some (File content) => ret content
  | Some (Dir _) => throw (fs_error_text EISDIR ++ lit ", read")
  | None => throw (fs_message ENOENT (lit "open") p)
  end.

(** [files.filter(file => fs.existsSync(path.join(projectDir, file)))] *)
Fixpoint filter_existing (projectDir : str) (files : list str) : M (list str) :=
  match files with
  | [] => ret []
  | file :: files' =>
      present <- existsSync (path_join [projectDir; file]) ;;
      rest <- filter_existing projectDir files' ;;
      ret (if present then file :: rest else rest)
  end.

Definition viteConfig : str :=
  nl ++ lit "import { defineConfig } from 'vite';" ++ nl ++
  lit "import react from '@vitejs/plugin-react';" ++ nl ++
  nl ++
  lit "export default defineConfig({" ++ nl ++
  lit "  plugins: [react()]," ++ nl ++
  lit "  css: {" ++ nl ++
  lit "    modules: false," ++ nl ++
  lit "  }," ++ nl ++
  lit "});" ++ nl.

Definition react_import : str := lit "import react from '@vitejs/plugin-react';" ++ nl.

Definition plugins_entry : str := lit "defineConfig({" ++ nl ++ lit "  plugins: [react()],".

Definition css_entry : str :=
  lit "plugins: [react()]," ++ nl ++
  lit "  css: {" ++ nl ++
  lit "    modules: false," ++ nl ++
  lit "  }".

(** The block run when the configuration does not name the plugin. *)
Definition add_react_plugin (configContent : str) : str :=
  let configContent1 :=
    if includes (lit "defineConfig({") configContent
    then replace_first (lit "defineConfig({") plugins_entry configContent
    else configContent in
  if negb (includes (lit "import react from") configContent1) then
    match lastIndexOf (lit "import") configContent1 with
    | Some lastImportIndex =>
        match indexOf_from nl configContent1 lastImportIndex with
        | Some endOfImport =>
            firstn (endOfImport + 1) configContent1 ++ react_import
            ++ skipn (endOfImport + 1) configContent1
        | None => configContent1
        end
    | None => react_import ++ configContent1
    end
  else configContent1.

(** The block run when the configuration has no [css:] entry. *)
Definition add_css_entry (configContent : str) : str :=
  if includes (lit "plugins: [react()]") configContent
  then replace_first (lit "plugins: [react()]") css_entry configContent
  else configContent.

Definition updated_config (configContent : str) : str :=
  let configContent1 :=
    if negb (includes (lit "@vitejs/plugin-react") configContent)
    then add_react_plugin configContent else configContent in
  if negb (includes (lit "css:") configContent1)
  then add_css_entry configContent1 else configContent1.

Definition ensureViteConfig (projectDir : str) : M unit :=
  configFiles <- filter_existing projectDir [lit "vite.config.js"; lit "vite.config.ts"] ;;
  match configFiles with
  | [] => writeFileSync (path_join [projectDir; lit "vite.config.js"]) viteConfig
  | configFile :: _ =>
      let configPath := path_join [projectDir; configFile] in
      configContent <- readFileSync_utf8 configPath ;;
      writeFileSync configPath (updated_config configContent)
  end.

(** The configuration file that the helper works on: [vite.config.js] when it
    exists, else [vite.config.ts] when it exists. *)
Definition config_in_use (fs : node) (projectDir : str) : option str :=
  find (fun file => on_disk fs (path_join [projectDir; file]))
       [lit "vite.config.js"; lit "vite.config.ts"].

(** A configuration as the scaffold of Vite writes it, without the plugin. *)
Definition bare_config : str :=
  lit "import { defineConfig } from 'vite'" ++ nl ++ nl ++
  lit "export default defineConfig({" ++ nl ++ lit "})" ++ nl.

Definition config_world (content : str) : World :=
  mkWorld (Dir [(lit "p", Dir [(lit "vite.config.ts", File content)])]) [] 1000 0 [] [] [].

(** ** validateComponentImports

    The helper that creates the style files that the components import and
    that are missing.  Like [ensureViteConfig] it holds no [await]. *)

(** [fs.readdirSync(dir)]: the names of the entries. *)
Definition readdirSync (dir : str) : M (list str) :=
  w <- get_world ;;
  match fs_lookup (w_fs w) (path_segments dir) with
  | Some (Dir es) => ret (map fst es)
  | Some (File _) => throw (fs_message ENOTDIR (lit "scandir") dir)
  | None => throw (fs_message ENOENT (lit "scandir") dir)
  end.

(** [path.basename(p, suffix)], for a path that does not end with a separator
    and a suffix that is not the whole path (the extension of a name is
    neither): the last portion, without the suffix when it ends with it and is
    more than it. *)
Definition path_basename_suffix (p suffix : str) : str :=
  let b := path_basename p in
  if negb (str_eqb suffix []) && endsWith suffix b && negb (str_eqb suffix b)
  then firstn (length b - length suffix) b
  else b.

(** [/import\s+['"](\.\/|\.\.\/)*(.+?\.css)['"]/g] *)
Definition styleImportRegex : regex :=
  seqs [ Lt "import"; Plus (Chr is_space); Chr is_quote;
         Star (Group 1 (Alt (Lt "./") (Lt "../")));
         Group 2 (seqs [ PlusLazy (Chr dot); Lt ".css" ]);
         Chr is_quote ].

(** [s.replace(/\.(js|jsx|ts|tsx)$/, '')]: the pattern is anchored at the
    end, so that the match, if any, is the one of these four endings that the
    text has. *)
Definition strip_source_extension (s : str) : str :=
  match find (fun e => endsWith e s) (map lit [".js"; ".jsx"; ".ts"; ".tsx"]%string) with
  | Some e => firstn (length s - length e) s
  | None => s
  end.

Definition cssContent (componentName : str) : str :=
  lit "/* Auto-generated style file for " ++ componentName ++ lit " */" ++ nl ++
  nl ++
  lit "." ++ toLowerCase componentName ++ lit " {" ++ nl ++
  lit "  margin: 1rem 0;" ++ nl ++
  lit "  padding: 1rem;" ++ nl ++
  lit "}" ++ nl ++
  nl ++
  lit "/* Add more styles as needed */" ++ nl.

(** Where an imported style file is looked for: below [src] when the import
    names a directory, else beside the component. *)
Definition importedStylePath (projectDir componentsDir importedStyleFile : str) : str :=
  if includes [slash] importedStyleFile
  then path_join [projectDir; lit "src"; importedStyleFile]
  else path_join [componentsDir; importedStyleFile].

(** The [while ((match = styleImportRegex.exec(content)) !== null)] loop:
    the imports whose file does not exist are collected.  [fuel] bounds the
    number of iterations. *)
Fixpoint collect_missing (fuel : nat) (projectDir componentsDir content : str)
    (lastIndex : nat) (missingImports : list (str * str)) : M (list (str * str)) :=
  match fuel with
  | 0 => ret missingImports
  | S fuel' =>
      match regex_exec styleImportRegex content lastIndex with
      | None => ret missingImports
      | Some m =>
          let importedStyleFile := group_text m 2 in
          let path := importedStylePath projectDir componentsDir importedStyleFile in
          present <- existsSync path ;;
          collect_missing fuel' projectDir componentsDir content (m_end m)
            (if present then missingImports
             else missingImports ++ [(importedStyleFile, path)])
      end
  end.

(** The [for (const { importedStyleFile, importedStylePath } of
    missingImports)] loop. *)
Fixpoint create_missing (baseName : str) (missingImports : list (str * str)) : M unit :=
  match missingImports with
  | [] => ret tt
  | (_, path) :: missingImports' =>
      let styleFileDir := path_dirname path in
      present <- existsSync styleFileDir ;;
      (if present then ret tt else mkdirSync_recursive styleFileDir) ;;
      let componentName := strip_source_extension baseName in
      writeFileSync path (cssContent componentName) ;;
      create_missing baseName missingImports'
  end.

(** The body of the loop over the component files. *)
Definition check_component (projectDir componentsDir componentFile : str) : M unit :=
  let componentFilePath := path_join [componentsDir; componentFile] in
  let baseName := path_basename_suffix componentFile (path_extname componentFile) in
  content <- readFileSync_utf8 componentFilePath ;;
  missingImports <-
    collect_missing (S (length content)) projectDir componentsDir content 0 [] ;;
  create_missing baseName missingImports.

Fixpoint check_components (projectDir componentsDir : str) (componentFiles : list str)
    : M unit :=
  match componentFiles with
  | [] => ret tt
  | componentFile :: componentFiles' =>
      check_component projectDir componentsDir componentFile ;;
      check_components projectDir componentsDir componentFiles'
  end.

(** The body of the loop over the two directories.  (The style files of the
    directory and the map built from them are only read into
    [correspondingStyleFile], which nothing uses.) *)
Definition check_directory (projectDir componentsDir : str) : M unit :=
  present <- existsSync componentsDir ;;
  if negb present then ret tt
  else
    files <- readdirSync componentsDir ;;
    let componentFiles := filter has_source_extension files in
    check_components projectDir componentsDir componentFiles.

Definition dirsToCheck (projectDir : str) : list str :=
  [ path_join [projectDir; lit "src"; lit "components"];
    path_join [projectDir; lit "src"] ].

Fixpoint check_directories (projectDir : str) (dirs : list str) : M unit :=
  match dirs with
  | [] => ret tt
  | componentsDir :: dirs' =>
      check_directory projectDir componentsDir ;; check_directories projectDir dirs'
  end.

Definition validateComponentImports (projectDir : str) : M unit :=
  check_directories projectDir (dirsToCheck projectDir).

(** The successive results of [styleImportRegex.exec(content)]: the style
    imports of a component, in the order in which the loop meets them. *)
Fixpoint style_imports_from (fuel : nat) (content : str) (lastIndex : nat)
    : list match_result :=
  match fuel with
  | 0 => []
  | S fuel' =>
      match regex_exec styleImportRegex content lastIndex with
      | None => []
      | Some m => m :: style_imports_from fuel' content (m_end m)
      end
  end.

Definition style_imports (content : str) : list match_result :=
  style_imports_from (S (length content)) content 0.

(** Every regular file of the first world is in the second one with the same
    content. *)
Definition files_kept (w w' : World) : Prop :=
  forall segs c, fs_lookup (w_fs w) segs = Some (File c) ->
                 fs_lookup (w_fs w') segs = Some (File c).

(** What is on disk in the first world is on disk in the second one. *)
Definition still_on_disk (w w' : World) : Prop :=
  forall segs, fs_lookup (w_fs w) segs <> None -> fs_lookup (w_fs w') segs <> None.

(** A project with one component that imports two style files, one of which
    exists. *)
Definition component_source : str :=
  lit "import './Card.css';" ++ nl ++ lit "import '../theme/dark.css';" ++ nl ++
  lit "export default () => null;".

Definition component_world : World :=
  mkWorld (Dir [(lit "p", Dir [(lit "src", Dir [
             (lit "components", Dir [(lit "Card.jsx", File component_source)]);
             (lit "theme", Dir [(lit "dark.css", File (lit "body {}"))]) ])])])
          [] 1000 0 [] [] [].

(** ** What a status query can see of an accepted request *)

(** The job [id] is in the store with a status other than [pending]. *)
Definition past_pending (id : str) (jobs : JobStore) : Prop :=
  exists j, jobs_get jobs id = Some j /\ job_status j <> pending.

(** Since the world [w0] every store that a status query could see holds the
    job past [pending], and so does the store as it stands. *)
Definition seen_past_pending (id : str) (w0 w : World) : Prop :=
  (exists obs, w_observed w = obs ++ w_observed w0 /\ Forall (past_pending id) obs) /\
  past_pending id (w_jobs w).

(** Since the world [w0] no status query could run, and the job is in the
    store. *)
Definition not_seen_yet (id : str) (w0 w : World) : Prop :=
  w_observed w = w_observed w0 /\ exists j, jobs_get (w_jobs w) id = Some j.

(** A computation that keeps the job past [pending]. *)
Definition keeps_past (id : str) (w0 : World) {A : Type} (c : M A) : Prop :=
  hoare (seen_past_pending id w0) c (fun _ w => seen_past_pending id w0 w).

(** * Properties *)

(** ** The matcher *)

Section MatcherInvariant.

Variable P : ascii -> bool.
Variable g : nat.

Lemma step_ok_refl atoms grps x : step_ok P g atoms grps 0 x x.
Proof.
  exists []. cbn. repeat split; auto with arith.
Qed.

Lemma step_ok_trans atoms1 atoms2 grps1 grps2 (atoms grps : Prop) n1 n2 x y z :
  (atoms -> atoms1) -> (atoms -> atoms2) -> (grps -> grps1) -> (grps -> grps2) ->
  step_ok P g atoms1 grps1 n1 x y -> step_ok P g atoms2 grps2 n2 y z ->
  step_ok P g atoms grps (n1 + n2) x z.
Proof.
  intros Ha1 Ha2 Hg1 Hg2 (w1 & E1 & I1 & L1 & A1 & C1) (w2 & E2 & I2 & L2 & A2 & C2).
  exists (w1 ++ w2). rewrite length_app, forallb_app.
  repeat split.
  - rewrite E1, E2, app_assoc. reflexivity.
  - lia.
  - lia.
  - intros H. rewrite A1, A2; auto.
  - intros H Hc. auto.
Qed.

Lemma step_ok_weaken atoms grps n n' x y :
  n' <= n -> step_ok P g atoms grps n x y -> step_ok P g atoms grps n' x y.
Proof.
  intros Hn (w & E & I & L & A & C). exists w. repeat split; auto. lia.
Qed.

Lemma cap_ok_reset gs c : cap_ok P g c -> cap_ok P g (reset_captures gs c).
Proof.
  unfold cap_ok, reset_captures. intros H v. destruct (mem_nat g gs); [discriminate | apply H].
Qed.

Lemma repeat_matcher_ok (atoms grps : Prop) m gs greedy :
  (forall x y, In y (m x) -> step_ok P g atoms grps 0 x y) ->
  forall fuel min max x y,
    In y (repeat_matcher m gs greedy fuel min max x) ->
    step_ok P g atoms grps 0 x y.
Proof.
  intros Hm. induction fuel as [|fuel IH]; intros min max x y Hin; cbn in Hin.
  - destruct (max_is_zero max); [|contradiction].
    destruct Hin as [<-|[]]. apply step_ok_refl.
  - destruct (max_is_zero max).
    { destruct Hin as [<-|[]]. apply step_ok_refl. }
    set (xr := MState (endIndex x) (rest x) (reset_captures gs (captures x))) in *.
    assert (Hagain : forall l,
               In y (flat_map (fun y0 =>
                 if (min =? 0) && (endIndex y0 =? endIndex x) then []
                 else repeat_matcher m gs greedy fuel (Nat.pred min) (max_pred max) y0) l) ->
               (forall y0, In y0 l -> In y0 (m xr)) ->
               step_ok P g atoms grps 0 x y).
    { intros l Hy Hl. apply in_flat_map in Hy. destruct Hy as (y0 & Hy0 & Hy).
      destruct ((min =? 0) && (endIndex y0 =? endIndex x)); [contradiction|].
      apply IH in Hy. apply Hl, Hm in Hy0.
      destruct Hy0 as (w1 & E1 & I1 & L1 & A1 & C1).
      destruct Hy as (w2 & E2 & I2 & L2 & A2 & C2).
      exists (w1 ++ w2). rewrite length_app, forallb_app.
      cbn in E1, I1, C1. repeat split.
      - rewrite E1, E2, app_assoc. reflexivity.
      - lia.
      - lia.
      - intros H. rewrite A1, A2; auto.
      - intros H Hc. apply C2; auto. apply C1; auto. apply cap_ok_reset, Hc. }
    destruct (negb (min =? 0)).
    + eapply Hagain; eauto.
    + destruct greedy.
      * apply in_app_or in Hin. destruct Hin as [Hin|[<-|[]]].
        -- eapply Hagain; eauto.
        -- apply step_ok_refl.
      * destruct Hin as [<-|Hin].
        -- apply step_ok_refl.
        -- eapply Hagain; eauto.
Qed.

Lemma matcher_ok r :
  forall x y, In y (matcher r x) ->
    step_ok P g (atoms_sat P r) (groups_sat P g r) (min_len r) x y.
Proof.
  induction r as [| p | | r1 IH1 r2 IH2 | r1 IH1 r2 IH2 | g' r IH | greedy min max r IH];
    intros x y Hin; cbn [matcher] in Hin.
  - destruct Hin as [<-|[]]. apply step_ok_refl.
  - destruct (rest x) as [|c s'] eqn:Hr; [contradiction|].
    destruct (p c) eqn:Hp; [|contradiction].
    destruct Hin as [<-|[]]. exists [c]. cbn. rewrite Hr.
    repeat split; auto; try lia.
    intros H. rewrite (H c Hp). reflexivity.
  - destruct (endIndex x =? 0); [|contradiction].
    destruct Hin as [<-|[]]. apply step_ok_refl.
  - apply in_flat_map in Hin. destruct Hin as (z & Hz & Hy).
    cbn [atoms_sat groups_sat min_len].
    eapply step_ok_trans; [| | | | apply IH1, Hz | apply IH2, Hy]; tauto.
  - cbn [atoms_sat groups_sat min_len].
    apply in_app_or in Hin. destruct Hin as [Hin|Hin].
    + apply IH1 in Hin. destruct Hin as (w & E & I & L & A & C).
      exists w. repeat split; auto; try lia; tauto.
    + apply IH2 in Hin. destruct Hin as (w & E & I & L & A & C).
      exists w. repeat split; auto; try lia; tauto.
  - apply in_map_iff in Hin. destruct Hin as (z & <- & Hz).
    apply IH in Hz. destruct Hz as (w & E & I & L & A & C).
    exists w. cbn [rest endIndex captures atoms_sat groups_sat min_len].
    repeat split; auto.
    intros [Hg Hgs] Hc v. unfold set_capture.
    destruct (Nat.eqb_spec g g') as [->|Hne].
    + intros [= <-]. rewrite E, I.
      replace (endIndex x + length w - endIndex x) with (length w) by lia.
      rewrite firstn_app, Nat.sub_diag, firstn_all. cbn. rewrite app_nil_r.
      apply A. apply Hg. reflexivity.
    + apply C; auto.
  - cbn [atoms_sat groups_sat min_len].
    eapply repeat_matcher_ok; [|exact Hin].
    intros x0 y0 H0. eapply step_ok_weaken; [|apply IH, H0]. lia.
Qed.

(** What a successful search reports comes from a run of the matcher that
    starts without captures at the reported index. *)
Lemma search_from_sound r : forall s i m,
  search_from r i s = Some m ->
  exists pre s' y,
    s = pre ++ s' /\ m_index m = i + length pre /\
    In y (matcher r (MState (m_index m) s' no_captures)) /\
    m_end m = endIndex y /\ m_group m = captures y.
Proof.
  induction s as [|c s IH]; intros i m H; cbn [search_from] in H.
  - unfold match_at in H.
    destruct (matcher r (MState i [] no_captures)) as [|y l] eqn:Hm; [discriminate|].
    injection H as <-. exists [], [], y. cbn. rewrite Nat.add_0_r, Hm.
    repeat split; auto. left; reflexivity.
  - unfold match_at in H.
    destruct (matcher r (MState i (c :: s) no_captures)) as [|y l] eqn:Hm.
    + apply IH in H. destruct H as (pre & s' & y & E & I & Hin & He & Hg).
      exists (c :: pre), s', y. cbn. repeat split; auto.
      * rewrite E. reflexivity.
      * rewrite I. lia.
    + injection H as <-. exists [], (c :: s), y. cbn. rewrite Nat.add_0_r, Hm.
      repeat split; auto. left; reflexivity.
Qed.

Lemma regex_exec_sound r s lastIndex m :
  regex_exec r s lastIndex = Some m ->
  exists s' y,
    lastIndex <= m_index m /\
    In y (matcher r (MState (m_index m) s' no_captures)) /\
    m_index m + length s' = length s /\
    m_end m = endIndex y /\ m_group m = captures y.
Proof.
  unfold regex_exec. destruct (length s <? lastIndex) eqn:Hl; [discriminate|].
  apply Nat.ltb_ge in Hl. intros H.
  apply search_from_sound in H. destruct H as (pre & s' & y & E & I & Hin & He & Hg).
  exists s', y. repeat split; auto; try lia.
  assert (Hlen : length (skipn lastIndex s) = length pre + length s').
  { rewrite E, length_app. reflexivity. }
  rewrite length_skipn in Hlen. lia.
Qed.

End MatcherInvariant.

(** ** Texts *)

Lemma str_eqb_eq a : forall b, str_eqb a b = true <-> a = b.
Proof.
  induction a as [|x a IH]; intros [|y b]; cbn; split; try discriminate; auto.
  - intros H. apply andb_prop in H. destruct H as [H1 H2].
    apply Ascii.eqb_eq in H1. apply IH in H2. congruence.
  - intros [= -> ->]. unfold chr_eqb. rewrite Ascii.eqb_refl. cbn. apply IH. reflexivity.
Qed.

Lemma str_eqb_refl a : str_eqb a a = true.
Proof. apply str_eqb_eq. reflexivity. Qed.

Lemma str_eqb_neq a b : str_eqb a b = false <-> a <> b.
Proof.
  split.
  - intros H E. apply str_eqb_eq in E. congruence.
  - intros H. destruct (str_eqb a b) eqn:E; auto. apply str_eqb_eq in E. contradiction.
Qed.

Lemma forallb_rev (P : ascii -> bool) (s : str) : forallb P (rev s) = forallb P s.
Proof.
  induction s as [|c s IH]; cbn; auto.
  rewrite forallb_app, IH. cbn. rewrite andb_true_r, andb_comm. reflexivity.
Qed.

Lemma forallb_trimStart (P : ascii -> bool) (s : str) :
  forallb P s = true -> forallb P (trimStart s) = true.
Proof.
  induction s as [|c s IH]; cbn; auto.
  intros H. apply andb_prop in H. destruct H as [Hc Hs].
  destruct (is_space c); auto. cbn. rewrite Hc, Hs. reflexivity.
Qed.

Lemma forallb_trim (P : ascii -> bool) (s : str) :
  forallb P s = true -> forallb P (trim s) = true.
Proof.
  intros H. unfold trim, trimEnd. rewrite forallb_rev.
  apply forallb_trimStart. rewrite forallb_rev. apply forallb_trimStart, H.
Qed.

Lemma digits_of_uint d :
  forallb is_digit (lit (DecimalString.NilEmpty.string_of_uint d)) = true.
Proof.
  induction d; cbn; auto.
Qed.

Lemma nat_to_str_digits n : forallb is_digit (nat_to_str n) = true.
Proof. apply digits_of_uint. Qed.


Lemma digit_not_backtick c : is_digit c = true -> not_backtick c = true.
Proof.
  intros H. unfold not_backtick. destruct (chr_eqb c backtick) eqn:E; auto.
  apply Ascii.eqb_eq in E. subst c. discriminate.
Qed.

Lemma filename_chr_not_backtick c : filename_chr c = true -> not_backtick c = true.
Proof.
  intros H. unfold not_backtick. destruct (chr_eqb c backtick) eqn:E; auto.
  apply Ascii.eqb_eq in E. subst c. discriminate.
Qed.

Lemma forallb_impl (P Q : ascii -> bool) (s : str) :
  (forall c, P c = true -> Q c = true) -> forallb P s = true -> forallb Q s = true.
Proof.
  intros H. induction s as [|c s IH]; cbn; auto.
  intros H'. apply andb_prop in H'. destruct H' as [Hc Hs].
  rewrite (H c Hc), (IH Hs). reflexivity.
Qed.

(** ** getExtensionFromLanguage *)

Lemma getExtensionFromLanguage_ok language : ext_ok (getExtensionFromLanguage language) = true.
Proof.
  unfold getExtensionFromLanguage, langMap, inherited_as_text.
  generalize (toLowerCase language) as key. intros key. cbn [own_get].
  repeat (match goal with
          | |- context [if str_eqb ?a ?b then _ else _] =>
              destruct (str_eqb a b); [reflexivity|]
          end).
  reflexivity.
Qed.

(** ** The blocks found by the pattern *)

Lemma codeBlockRegex_groups_2 : groups_sat not_backtick 2 codeBlockRegex.
Proof.
  cbn. repeat split; intros; try discriminate; auto using filename_chr_not_backtick.
Qed.

Lemma codeBlockRegex_groups_3 : groups_sat not_backtick 3 codeBlockRegex.
Proof.
  cbn. repeat split; intros; try discriminate; auto.
Qed.

Lemma firstLineRegex_groups_1 : groups_sat not_backtick 1 firstLineRegex.
Proof.
  cbn. repeat split; intros; try discriminate; auto using filename_chr_not_backtick.
Qed.

Lemma no_captures_ok P g : cap_ok P g no_captures.
Proof. intros v H. discriminate. Qed.

(** A block found by the pattern ends after the place where the search
    started and within the response; its captures hold no backtick. *)
Lemma code_block_found response lastIndex m :
  regex_exec codeBlockRegex response lastIndex = Some m ->
  lastIndex < m_end m /\ m_end m <= length response /\
  cap_ok not_backtick 2 (m_group m) /\ cap_ok not_backtick 3 (m_group m).
Proof.
  intros H. apply regex_exec_sound in H.
  destruct H as (s' & y & Hi & Hin & Hlen & He & Hg).
  pose proof (matcher_ok not_backtick 2 _ _ _ Hin) as (w & E & I & L & _ & C2).
  pose proof (matcher_ok not_backtick 3 _ _ _ Hin) as (w3 & _ & _ & _ & _ & C3).
  cbn [rest endIndex captures] in *.
  assert (Hw : length s' = length w + length (rest y)).
  { rewrite E, length_app. reflexivity. }
  change (min_len codeBlockRegex) with 6 in L.
  rewrite Hg. repeat split; try lia.
  - apply C2; [apply codeBlockRegex_groups_2 | apply no_captures_ok].
  - apply C3; [apply codeBlockRegex_groups_3 | apply no_captures_ok].
Qed.

Lemma first_line_found code m :
  str_match firstLineRegex code = Some m -> cap_ok not_backtick 1 (m_group m).
Proof.
  unfold str_match. intros H. apply search_from_sound in H.
  destruct H as (pre & s' & y & _ & _ & Hin & _ & Hg).
  pose proof (matcher_ok not_backtick 1 _ _ _ Hin) as (w & _ & _ & _ & _ & C1).
  rewrite Hg. apply C1; [apply firstLineRegex_groups_1 | apply no_captures_ok].
Qed.

(** ** Objects *)

Lemma in_own_set o k v : forall k' v',
  In (k', v') (own_set o k v) -> (k' = k /\ v' = v) \/ In (k', v') o.
Proof.
  induction o as [|[k0 v0] o IH]; intros k' v' H; cbn in H.
  - destruct H as [[= <- <-]|[]]. left; auto.
  - destruct (str_eqb k0 k) eqn:E.
    + apply str_eqb_eq in E. subst k0. destruct H as [[= <- <-]|H].
      * left; auto.
      * right; right; exact H.
    + destruct H as [H|H].
      * right; left; exact H.
      * apply IH in H. destruct H as [H|H]; [left; exact H | right; right; exact H].
Qed.

Lemma in_obj_set o k v k' v' :
  In (k', v') (obj_set o k v) -> (k' = k /\ v' = v) \/ In (k', v') o.
Proof.
  unfold obj_set. destruct (str_eqb k proto_key); [right; assumption | apply in_own_set].
Qed.

Lemma own_get_set_same o k v : own_get (own_set o k v) k = Some v.
Proof.
  induction o as [|[k0 v0] o IH]; cbn.
  - rewrite str_eqb_refl. reflexivity.
  - destruct (str_eqb k0 k) eqn:E; cbn; rewrite E; auto.
Qed.

Lemma own_get_set_other o k v k' : k' <> k -> own_get (own_set o k v) k' = own_get o k'.
Proof.
  intros Hne. induction o as [|[k0 v0] o IH]; cbn.
  - destruct (str_eqb k k') eqn:E; auto. apply str_eqb_eq in E. congruence.
  - destruct (str_eqb k0 k) eqn:E; cbn.
    + apply str_eqb_eq in E. subst k0.
      destruct (str_eqb k k') eqn:E'; auto. apply str_eqb_eq in E'. congruence.
    + rewrite IH. reflexivity.
Qed.

Lemma own_get_none_iff o k : own_get o k = None <-> ~ In k (obj_keys o).
Proof.
  induction o as [|[k0 v0] o IH]; cbn.
  - tauto.
  - destruct (str_eqb k0 k) eqn:E.
    + apply str_eqb_eq in E. subst. split; [discriminate | intros H; exfalso; apply H; auto].
    + apply str_eqb_neq in E. rewrite IH. tauto.
Qed.

(** A new key goes to the end; a known key keeps its place. *)
Lemma keys_own_set_new o k v :
  ~ In k (obj_keys o) -> own_set o k v = o ++ [(k, v)].
Proof.
  induction o as [|[k0 v0] o IH]; cbn; intros H; auto.
  destruct (str_eqb k0 k) eqn:E.
  - apply str_eqb_eq in E. subst. exfalso. apply H. auto.
  - rewrite IH; auto.
Qed.

Lemma keys_own_set_known o k v :
  In k (obj_keys o) -> obj_keys (own_set o k v) = obj_keys o.
Proof.
  induction o as [|[k0 v0] o IH]; cbn; intros H; [contradiction|].
  destruct (str_eqb k0 k) eqn:E; cbn; auto.
  apply str_eqb_neq in E. destruct H as [H|H]; [congruence|].
  f_equal. apply IH, H.
Qed.

Lemma nodup_keys_own_set o k v : NoDup (obj_keys o) -> NoDup (obj_keys (own_set o k v)).
Proof.
  intros H. destruct (in_dec (list_eq_dec ascii_dec) k (obj_keys o)) as [Hin|Hin].
  - rewrite keys_own_set_known; auto.
  - rewrite keys_own_set_new; auto. unfold obj_keys. rewrite map_app. cbn.
    apply NoDup_app; auto.
    + constructor; [intros []|constructor].
    + intros a Ha [<-|[]]. apply Hin, Ha.
Qed.

Lemma nodup_keys_obj_set o k v : NoDup (obj_keys o) -> NoDup (obj_keys (obj_set o k v)).
Proof.
  unfold obj_set. destruct (str_eqb k proto_key); auto using nodup_keys_own_set.
Qed.

(** With distinct keys, the entry found under a key is the only one. *)
Lemma own_get_unique o k v :
  NoDup (obj_keys o) -> In (k, v) o -> own_get o k = Some v.
Proof.
  induction o as [|[k0 v0] o IH]; cbn; intros Hnd Hin; [contradiction|].
  inversion Hnd as [|? ? Hk0 Hnd']; subst.
  destruct Hin as [[= -> ->]|Hin].
  - rewrite str_eqb_refl. reflexivity.
  - destruct (str_eqb k0 k) eqn:E.
    + apply str_eqb_eq in E. subst. exfalso. apply Hk0.
      change k with (fst (k, v)). apply in_map, Hin.
    + apply IH; auto.
Qed.

(** ** The loop of extractCodeFromResponse *)

Lemma extract_loop_blocks fuel : forall response lastIndex o,
  extract_loop fuel response lastIndex o =
  fold_left store_block (code_blocks_from fuel response lastIndex) o.
Proof.
  induction fuel as [|fuel IH]; intros; cbn [extract_loop code_blocks_from]; auto.
  destruct (regex_exec codeBlockRegex response lastIndex); cbn [fold_left]; auto.
Qed.

(** The loop ends by a failed search: more fuel than the length of what is
    left of the response changes nothing. *)
Lemma code_blocks_fuel fuel1 : forall fuel2 response lastIndex,
  length response - lastIndex < fuel1 ->
  length response - lastIndex < fuel2 ->
  code_blocks_from fuel1 response lastIndex = code_blocks_from fuel2 response lastIndex.
Proof.
  induction fuel1 as [|fuel1 IH]; intros fuel2 response lastIndex H1 H2; [lia|].
  destruct fuel2 as [|fuel2]; [lia|]. cbn [code_blocks_from].
  destruct (regex_exec codeBlockRegex response lastIndex) as [m|] eqn:E; auto.
  apply code_block_found in E. destruct E as (Hlt & Hle & _).
  f_equal. apply IH; lia.
Qed.

Lemma extract_loop_fuel fuel response o :
  length response < fuel ->
  extract_loop fuel response 0 o = extract_loop (S (length response)) response 0 o.
Proof.
  intros H. rewrite !extract_loop_blocks.
  rewrite (code_blocks_fuel fuel (S (length response))); auto; lia.
Qed.

Lemma files_of_blocks response :
  files (extractCodeFromResponse response) = fold_left store_block (code_blocks response) [].
Proof. unfold extractCodeFromResponse, code_blocks. cbn [files]. apply extract_loop_blocks. Qed.

Lemma code_blocks_from_found fuel : forall response lastIndex b,
  In b (code_blocks_from fuel response lastIndex) ->
  cap_ok not_backtick 2 (m_group b) /\ cap_ok not_backtick 3 (m_group b).
Proof.
  induction fuel as [|fuel IH]; intros response lastIndex b H;
    cbn [code_blocks_from] in H; [contradiction|].
  destruct (regex_exec codeBlockRegex response lastIndex) as [m|] eqn:E; [|contradiction].
  destruct H as [<-|H].
  - apply code_block_found in E. tauto.
  - eapply IH, H.
Qed.

Lemma group_text_backtick_free b g :
  cap_ok not_backtick g (m_group b) -> backtick_free (group_text b g).
Proof.
  unfold group_text, backtick_free. intros H.
  destruct (m_group b g) as [v|] eqn:E; [apply H, E | reflexivity].
Qed.

Lemma block_filename_backtick_free o b :
  cap_ok not_backtick 2 (m_group b) ->
  backtick_free (block_filename o b).
Proof.
  intros H2. unfold block_filename, backtick_free.
  destruct (m_group b 2) as [f|] eqn:E2; [apply H2, E2|].
  destruct (str_match firstLineRegex (trim (group_text b 3))) as [fl|] eqn:Efl.
  - apply group_text_backtick_free. eapply first_line_found, Efl.
  - rewrite !forallb_app. apply andb_true_intro. split; [reflexivity|].
    apply andb_true_intro. split.
    + eapply forallb_impl; [apply digit_not_backtick | apply nat_to_str_digits].
    + pose proof (getExtensionFromLanguage_ok (block_lang b)) as Hext.
      unfold ext_ok in Hext. apply andb_prop in Hext. tauto.
Qed.

Lemma store_block_backtick_free o b :
  cap_ok not_backtick 2 (m_group b) -> cap_ok not_backtick 3 (m_group b) ->
  entries_backtick_free o -> entries_backtick_free (store_block o b).
Proof.
  intros H2 H3 Ho k v Hin. unfold store_block in Hin.
  apply in_obj_set in Hin. destruct Hin as [[-> ->]|Hin]; [|apply Ho, Hin].
  split.
  - apply block_filename_backtick_free, H2.
  - apply forallb_trim, group_text_backtick_free, H3.
Qed.

Lemma fold_store_backtick_free bs : forall o,
  (forall b, In b bs ->
     cap_ok not_backtick 2 (m_group b) /\ cap_ok not_backtick 3 (m_group b)) ->
  entries_backtick_free o -> entries_backtick_free (fold_left store_block bs o).
Proof.
  induction bs as [|b bs IH]; intros o Hbs Ho; cbn; auto.
  apply IH.
  - intros b' Hb'. apply Hbs. right; exact Hb'.
  - destruct (Hbs b (or_introl eq_refl)). apply store_block_backtick_free; auto.
Qed.

Lemma backtick_free_not_in s : backtick_free s -> ~ In backtick s.
Proof.
  unfold backtick_free. intros H Hin.
  rewrite forallb_forall in H. specialize (H _ Hin). discriminate.
Qed.

(** ** Claims on the extraction engine *)

(** C10.  Whatever the input text, no filename and no content in the mapping
    produced by the code-block extractor holds a backtick; hence no content
    equals a block body in which a backtick occurs: such a body is never
    captured in full as one file. *)
Theorem extracted_files_hold_no_backtick (response filename content : str) :
  In (filename, content) (files (extractCodeFromResponse response)) ->
  ~ In backtick filename /\ ~ In backtick content /\
  (forall body, In backtick body -> content <> body).
Proof.
  intros Hin. rewrite files_of_blocks in Hin.
  assert (Hfree : entries_backtick_free (fold_left store_block (code_blocks response) [])).
  { apply fold_store_backtick_free.
    - intros b Hb. eapply code_blocks_from_found, Hb.
    - intros k v []. }
  destruct (Hfree _ _ Hin) as [Hk Hv].
  repeat split.
  - apply backtick_free_not_in, Hk.
  - apply backtick_free_not_in, Hv.
  - intros body Hb ->. eapply backtick_free_not_in; eauto.
Qed.

Lemma extracted_files_hold_no_backtick_witness :
  In (lit "src/App.jsx", lit "export default () => null;")
     (files (extractCodeFromResponse scenario_text)) /\
  ~ In backtick (lit "src/App.jsx") /\
  ~ In backtick (lit "export default () => null;").
Proof.
  assert (H : In (lit "src/App.jsx", lit "export default () => null;")
                 (files (extractCodeFromResponse scenario_text))).
  { vm_compute. left. reflexivity. }
  split; [exact H|].
  destruct (extracted_files_hold_no_backtick _ _ _ H) as (Hk & Hv & _).
  split; assumption.
Defined.

(** C7.  On the scenario text (a [jsx] block whose first content line is the
    directive [// filename: src/App.jsx], followed by
    [export default () => null;]) the files are exactly the one entry
    [src/App.jsx] with the trimmed content, and the project information keeps
    its defaults, among them the language [javascript]. *)
Theorem scenario_extraction :
  files (extractCodeFromResponse scenario_text)
    = [(lit "src/App.jsx", lit "export default () => null;")] /\
  language (projectInfo (extractCodeFromResponse scenario_text)) = javascript /\
  framework (projectInfo (extractCodeFromResponse scenario_text)) = react /\
  cssFramework (projectInfo (extractCodeFromResponse scenario_text)) = None.
Proof.
  vm_compute. repeat split; reflexivity.
Qed.

(** ** Literal patterns and greedy classes *)

Lemma matcher_Seq r1 r2 x : matcher (Seq r1 r2) x = flat_map (matcher r2) (matcher r1 x).
Proof. reflexivity. Qed.

Lemma matcher_Group g r x :
  matcher (Group g r) x =
  map (fun y => MState (endIndex y) (rest y)
                  (set_capture g (firstn (endIndex y - endIndex x) (rest x)) (captures y)))
      (matcher r x).
Proof. reflexivity. Qed.

Lemma matcher_Rep greedy min max r x :
  matcher (Rep greedy min max r) x =
  repeat_matcher (matcher r) (groups r) greedy (S (min + length (rest x))) min max x.
Proof. reflexivity. Qed.

Lemma matcher_Lit l : forall x,
  matcher (Lit l) x =
  if startsWith l (rest x)
  then [MState (endIndex x + length l) (skipn (length l) (rest x)) (captures x)]
  else [].
Proof.
  induction l as [|c l IH]; intros [i s caps].
  - cbn. rewrite Nat.add_0_r. reflexivity.
  - destruct l as [|c' l].
    + cbn. destruct s as [|d s]; cbn; auto.
      destruct (chr_eqb c d); cbn; auto. rewrite Nat.add_1_r. reflexivity.
    + change (Lit (c :: c' :: l)) with (Seq (Chr (chr_eqb c)) (Lit (c' :: l))).
      cbn [matcher rest endIndex captures].
      destruct s as [|d s]; [reflexivity|].
      change (startsWith (c :: c' :: l) (d :: s))
        with (chr_eqb c d && startsWith (c' :: l) s).
      destruct (chr_eqb c d); cbn [andb flat_map]; [|reflexivity].
      rewrite IH, app_nil_r. cbn [rest endIndex captures].
      destruct (startsWith (c' :: l) s); [|reflexivity].
      change (length (c :: c' :: l)) with (S (length (c' :: l))).
      cbn [skipn]. rewrite Nat.add_succ_r. reflexivity.
Qed.

(** A greedy repetition of a character class first tries the longest run of
    the class. *)
Lemma greedy_class_head p m :
  (forall x, m x = matcher (Chr p) x) ->
  forall w s i caps min fuel,
  forallb p w = true ->
  match s with [] => True | c :: _ => p c = false end ->
  min <= length w -> length w < fuel ->
  exists l,
    repeat_matcher m [] true fuel min None (MState i (w ++ s) caps)
    = MState (i + length w) s caps :: l.
Proof.
  intros Hm.
  induction w as [|c w IH]; intros s i caps min fuel Hw Hs Hmin Hfuel;
    (destruct fuel as [|fuel]; [cbn in Hfuel; lia|]).
  - cbn in Hmin. assert (min = 0) by lia. subst min.
    cbn [repeat_matcher max_is_zero]. rewrite Hm.
    cbn. rewrite Nat.add_0_r. destruct s as [|d s]; cbn.
    + exists []. reflexivity.
    + rewrite Hs. cbn. exists []. reflexivity.
  - cbn in Hw. apply andb_prop in Hw. destruct Hw as [Hc Hw].
    cbn [repeat_matcher max_is_zero]. rewrite Hm.
    cbn [matcher rest endIndex captures app].
    rewrite Hc. cbn [flat_map endIndex].
    replace (S i =? i) with false by (symmetry; apply Nat.eqb_neq; lia).
    rewrite andb_false_r, app_nil_r.
    destruct (IH s (S i) caps (Nat.pred min) fuel Hw Hs) as [l Hl].
    { cbn in Hmin. lia. }
    { cbn in Hfuel. lia. }
    cbn [max_pred].
    change (reset_captures [] caps) with caps.
    rewrite Hl. cbn [length].
    replace (S i + length w) with (i + S (length w)) by lia.
    destruct (negb (min =? 0)); [exists l; reflexivity|].
    exists (l ++ [MState i (c :: w ++ s) caps]). reflexivity.
Qed.

Lemma search_from_skip r pre : forall i s,
  (forall k, k < length pre -> match_at r (i + k) (skipn k (pre ++ s)) = None) ->
  search_from r i (pre ++ s) = search_from r (i + length pre) s.
Proof.
  induction pre as [|c pre IH]; intros i s H.
  - cbn. rewrite Nat.add_0_r. reflexivity.
  - cbn [app search_from].
    pose proof (H 0 ltac:(cbn; lia)) as H0. rewrite Nat.add_0_r in H0. cbn in H0.
    rewrite H0. rewrite IH.
    + cbn. f_equal. lia.
    + intros k Hk. specialize (H (S k) ltac:(cbn; lia)). cbn in H.
      rewrite <- H. f_equal. lia.
Qed.

(** ** The address reported by the deployment tool *)

Lemma no_url_here i s :
  startsWith (lit "https://") s = false -> match_at urlRegex i s = None.
Proof.
  intros H. unfold match_at, urlRegex, seqs, Lt.
  rewrite matcher_Group, matcher_Seq, matcher_Lit. cbn [rest]. rewrite H.
  reflexivity.
Qed.



(** ** Default filenames *)











(** ** Last write wins *)

Lemma fold_store_nodup bs : forall o,
  NoDup (obj_keys o) -> NoDup (obj_keys (fold_left store_block bs o)).
Proof.
  induction bs as [|b bs IH]; intros o Ho; cbn [fold_left]; auto.
  apply IH. unfold store_block. apply nodup_keys_obj_set, Ho.
Qed.

Lemma own_get_obj_set_other o k v f :
  f <> k -> own_get (obj_set o k v) f = own_get o f.
Proof.
  intros H. unfold obj_set. destruct (str_eqb k proto_key); auto.
  apply own_get_set_other, H.
Qed.

(** Blocks stored under other names leave the entry of [f] as it is. *)
Lemma fold_store_other bs f : forall o,
  ~ In f (block_names o bs) ->
  own_get (fold_left store_block bs o) f = own_get o f.
Proof.
  induction bs as [|b bs IH]; intros o H; cbn [fold_left]; auto.
  cbn [block_names] in H. rewrite IH.
  - unfold store_block. apply own_get_obj_set_other.
    intros E. apply H. left. symmetry. exact E.
  - intros Hin. apply H. right. exact Hin.
Qed.

Lemma fold_left_snoc (bs : list match_result) (b : match_result) (o : obj) :
  fold_left store_block (bs ++ [b]) o = store_block (fold_left store_block bs o) b.
Proof. rewrite fold_left_app. reflexivity. Qed.

(** The text of the claim fails where the pattern cannot follow the content:
    of two blocks written for [src/greet.js], the second of which holds a
    template literal, the mapping keeps the content of the first. *)
Lemma last_write_wins_counterexample :
  own_get (files (extractCodeFromResponse two_versions_text)) (lit "src/greet.js")
    = Some (trim first_version) /\
  own_get (files (extractCodeFromResponse two_versions_text)) (lit "src/greet.js")
    <> Some (trim second_version).
Proof.
  split.
  - vm_compute. reflexivity.
  - vm_compute. discriminate.
Qed.

(** C5, amended.  When the block pattern finds two blocks that carry the same
    explicit filename directive [f] (an ordinary key: [__proto__] is left
    aside) and no block found after the second one is stored under [f], the
    mapping holds exactly one entry under [f], and its value is the trimmed
    content of the second block: nothing of the first block is kept and
    nothing is merged. *)
Theorem last_write_wins (response : str) (before between after : list match_result)
    (b1 b2 : match_result) (f : str) :
  code_blocks response = before ++ b1 :: between ++ b2 :: after ->
  m_group b1 2 = Some f ->
  m_group b2 2 = Some f ->
  f <> proto_key ->
  ~ In f (block_names (fold_left store_block (before ++ b1 :: between ++ [b2]) []) after) ->
  own_get (files (extractCodeFromResponse response)) f = Some (trim (group_text b2 3)) /\
  count_occ str_dec (obj_keys (files (extractCodeFromResponse response))) f = 1 /\
  (forall v, In (f, v) (files (extractCodeFromResponse response)) ->
             v = trim (group_text b2 3)).
Proof.
  intros Hblocks _ H2 Hproto Hafter.
  rewrite files_of_blocks, Hblocks.
  replace (before ++ b1 :: between ++ b2 :: after)
    with ((before ++ b1 :: between ++ [b2]) ++ after)
    by (rewrite <- !app_assoc; cbn; rewrite <- app_assoc; reflexivity).
  rewrite fold_left_app.
  set (o2 := fold_left store_block (before ++ b1 :: between ++ [b2]) []) in *.
  set (o := fold_left store_block after o2).
  assert (Hnd : NoDup (obj_keys o)).
  { apply fold_store_nodup, fold_store_nodup. constructor. }
  assert (Hget : own_get o f = Some (trim (group_text b2 3))).
  { unfold o. rewrite fold_store_other; auto.
    unfold o2. replace (before ++ b1 :: between ++ [b2])
      with ((before ++ b1 :: between) ++ [b2])
      by (rewrite <- app_assoc; reflexivity).
    rewrite fold_left_snoc. unfold store_block, block_filename. rewrite H2.
    unfold obj_set. apply str_eqb_neq in Hproto. rewrite Hproto.
    apply own_get_set_same. }
  repeat split.
  - exact Hget.
  - apply NoDup_count_occ'; auto.
    destruct (in_dec str_dec f (obj_keys o)) as [Hin|Hin]; auto.
    apply own_get_none_iff in Hin. congruence.
  - intros v Hv. apply (own_get_unique o f v Hnd) in Hv. congruence.
Qed.

Lemma last_write_wins_witness :
  own_get (files (extractCodeFromResponse two_plain_versions_text)) (lit "src/greet.js")
    = Some (trim third_version) /\
  count_occ str_dec (obj_keys (files (extractCodeFromResponse two_plain_versions_text)))
    (lit "src/greet.js") = 1.
Proof.
  pose (d := MatchResult 0 0 [] no_captures).
  pose (b1 := nth 0 (code_blocks two_plain_versions_text) d).
  pose (b2 := nth 1 (code_blocks two_plain_versions_text) d).
  assert (H : code_blocks two_plain_versions_text = [] ++ b1 :: [] ++ b2 :: []).
  { vm_compute. reflexivity. }
  assert (H1 : m_group b1 2 = Some (lit "src/greet.js")) by (vm_compute; reflexivity).
  assert (H2 : m_group b2 2 = Some (lit "src/greet.js")) by (vm_compute; reflexivity).
  assert (Hp : lit "src/greet.js" <> proto_key) by (vm_compute; discriminate).
  assert (Ha : ~ In (lit "src/greet.js")
                 (block_names (fold_left store_block ([] ++ b1 :: [] ++ [b2]) []) []))
    by (intros []).
  destruct (last_write_wins two_plain_versions_text [] [] [] b1 b2 (lit "src/greet.js")
              H H1 H2 Hp Ha) as (Hget & Hcount & _).
  split.
  - rewrite Hget. vm_compute. reflexivity.
  - exact Hcount.
Defined.

(** ** The deployment address *)



(** ** Computations *)

Section Preserved.

Variable R : World -> World -> Prop.
Hypothesis R_refl : forall w, R w w.
Hypothesis R_trans : forall a b c, R a b -> R b c -> R a c.

Lemma preserved_ret A (a : A) : preserved R (ret a).
Proof. intros w. apply R_refl. Qed.

Lemma preserved_throw A (e : str) : preserved R (@throw A e).
Proof. intros w. apply R_refl. Qed.

Lemma preserved_bind A B (c : M A) (k : A -> M B) :
  preserved R c -> (forall a, preserved R (k a)) -> preserved R (bind c k).
Proof.
  intros Hc Hk w. unfold bind. specialize (Hc w).
  destruct (c w) as [[a|e] w']; cbn in *; auto.
  eapply R_trans; [exact Hc | apply Hk].
Qed.

Lemma preserved_try_catch A (c : M A) (h : str -> M A) :
  preserved R c -> (forall e, preserved R (h e)) -> preserved R (try_catch c h).
Proof.
  intros Hc Hh w. unfold try_catch. specialize (Hc w).
  destruct (c w) as [[a|e] w']; cbn in *; auto.
  eapply R_trans; [exact Hc | apply Hh].
Qed.

Lemma preserved_get_world : preserved R get_world.
Proof. intros w. apply R_refl. Qed.

Lemma preserved_Date_now : preserved R Date_now.
Proof. intros w. apply R_refl. Qed.

End Preserved.

Lemma hoare_ret A (a : A) (P : World -> Prop) (Q : outcome A -> World -> Prop) :
  (forall w, P w -> Q (Ok a) w) -> hoare P (ret a) Q.
Proof. intros H w Hw. apply H, Hw. Qed.

Lemma hoare_throw A (e : str) (P : World -> Prop) (Q : outcome A -> World -> Prop) :
  (forall w, P w -> Q (Throw e) w) -> hoare P (throw e) Q.
Proof. intros H w Hw. apply H, Hw. Qed.

Lemma hoare_bind A B (c : M A) (k : A -> M B) (P : World -> Prop)
    (Rm : outcome A -> World -> Prop) (Q : outcome B -> World -> Prop) :
  hoare P c Rm ->
  (forall a, hoare (Rm (Ok a)) (k a) Q) ->
  (forall e w, Rm (Throw e) w -> Q (Throw e) w) ->
  hoare P (bind c k) Q.
Proof.
  intros Hc Hk He w Hw. unfold bind. specialize (Hc w Hw).
  destruct (c w) as [[a|e] w']; cbn in *.
  - apply Hk, Hc.
  - apply He, Hc.
Qed.

Lemma hoare_try_catch A (c : M A) (h : str -> M A) (P : World -> Prop)
    (Rm Q : outcome A -> World -> Prop) :
  hoare P c Rm ->
  (forall a w, Rm (Ok a) w -> Q (Ok a) w) ->
  (forall e, hoare (Rm (Throw e)) (h e) Q) ->
  hoare P (try_catch c h) Q.
Proof.
  intros Hc Hok Hh w Hw. unfold try_catch. specialize (Hc w Hw).
  destruct (c w) as [[a|e] w']; cbn in *.
  - apply Hok, Hc.
  - apply Hh, Hc.
Qed.

Lemma hoare_conseq A (c : M A) (P P' : World -> Prop) (Q Q' : outcome A -> World -> Prop) :
  hoare P' c Q' -> (forall w, P w -> P' w) -> (forall r w, Q' r w -> Q r w) ->
  hoare P c Q.
Proof. intros H HP HQ w Hw. apply HQ, H, HP, Hw. Qed.

(** A computation that keeps [R] keeps every property that [R] carries
    along. *)
Lemma hoare_preserved A (c : M A) (R : World -> World -> Prop) (P : World -> Prop) :
  preserved R c -> (forall w w', R w w' -> P w -> P w') ->
  hoare P c (fun _ => P).
Proof. intros Hc HP w Hw. eapply HP; [apply Hc | exact Hw]. Qed.

(** ** Quiet steps and steps without build *)

Lemma quiet_refl w : quiet_step w w.
Proof. repeat split. exists 0. reflexivity. Qed.

Lemma quiet_trans a b c : quiet_step a b -> quiet_step b c -> quiet_step a c.
Proof.
  intros (J1 & H1 & k1 & O1) (J2 & H2 & k2 & O2). repeat split; try congruence.
  exists (k2 + k1). rewrite O2, O1, J1, repeat_app, app_assoc. reflexivity.
Qed.

Lemma no_build_refl w : no_build_step w w.
Proof. exists []. rewrite app_nil_r. split; auto. Qed.

Lemma no_build_trans a b c : no_build_step a b -> no_build_step b c -> no_build_step a c.
Proof.
  intros (c1 & E1 & F1) (c2 & E2 & F2). exists (c1 ++ c2). split.
  - rewrite E2, E1, app_assoc. reflexivity.
  - apply Forall_app. split; assumption.
Qed.

Ltac prim_quiet :=
  intros w; repeat split; try (exists 0; reflexivity); try (exists 1; reflexivity).

Lemma quiet_suspend env : preserved quiet_step (suspend env).
Proof. prim_quiet. Qed.

Lemma quiet_sleep ms : preserved quiet_step (sleep ms).
Proof. prim_quiet. Qed.

Lemma quiet_set_fs fs : preserved quiet_step (set_fs fs).
Proof. prim_quiet. Qed.

Lemma quiet_existsSync p : preserved quiet_step (existsSync p).
Proof. prim_quiet. Qed.

Lemma quiet_executeCommand env command cwd :
  preserved quiet_step (executeCommand env command cwd).
Proof.
  intros w. unfold executeCommand.
  destruct (exec env (w_calls w) command cwd (w_fs w)) as [r fs'].
  repeat split. exists 1. reflexivity.
Qed.

Ltac prim_no_build :=
  exists []; cbn; rewrite app_nil_r; split; auto.

Lemma no_build_suspend env : preserved no_build_step (suspend env).
Proof. intros w. prim_no_build. Qed.

Lemma no_build_sleep ms : preserved no_build_step (sleep ms).
Proof. intros w. prim_no_build. Qed.

Lemma no_build_set_fs fs : preserved no_build_step (set_fs fs).
Proof. intros w. prim_no_build. Qed.

Lemma no_build_existsSync p : preserved no_build_step (existsSync p).
Proof. intros w. prim_no_build. Qed.

Lemma no_build_job_assign id f : preserved no_build_step (job_assign id f).
Proof.
  intros w. unfold job_assign. destruct (jobs_get (w_jobs w) id); prim_no_build.
Qed.

Lemma no_build_store_job id j : preserved no_build_step (store_job id j).
Proof. intros w. prim_no_build. Qed.

Lemma no_build_executeCommand env command cwd :
  command <> build_command ->
  preserved no_build_step (executeCommand env command cwd).
Proof.
  intros Hc w. unfold executeCommand.
  destruct (exec env (w_calls w) command cwd (w_fs w)) as [r fs'].
  exists [(command, cwd)]. split; [reflexivity|]. constructor; auto.
Qed.

Create HintDb steps.

#[export] Hint Resolve quiet_suspend quiet_sleep quiet_set_fs quiet_existsSync
  quiet_executeCommand : steps.
#[export] Hint Resolve no_build_suspend no_build_sleep no_build_set_fs no_build_existsSync
  no_build_job_assign no_build_store_job : steps.

(** The structure of a computation is followed down to the calls that a
    hint database knows. *)
Ltac follow R R_refl R_trans :=
  repeat
    match goal with
    | |- preserved _ (bind _ _) => apply (preserved_bind R R_trans); [| intros ?]
    | |- preserved _ (try_catch _ _) => apply (preserved_try_catch R R_trans); [| intros ?]
    | |- preserved _ (ret _) => apply (preserved_ret R R_refl)
    | |- preserved _ (throw _) => apply (preserved_throw R R_refl)
    | |- preserved _ get_world => apply (preserved_get_world R R_refl)
    | |- preserved _ Date_now => apply (preserved_Date_now R R_refl)
    | |- preserved _ (if ?b then _ else _) => destruct b
    | |- preserved _ (match ?x with _ => _ end) => destruct x
    | |- preserved _ (let _ := _ in _) => cbv zeta
    | |- preserved _ _ => solve [auto with steps]
    end.

Ltac quiet := follow quiet_step quiet_refl quiet_trans.
Ltac no_build := follow no_build_step no_build_refl no_build_trans.

Lemma quiet_await A env (request : nat -> outcome A) : preserved quiet_step (await env request).
Proof. unfold await. quiet. Qed.

Lemma no_build_await A env (request : nat -> outcome A) :
  preserved no_build_step (await env request).
Proof. unfold await. no_build. Qed.

Lemma quiet_mkdirSync p : preserved quiet_step (mkdirSync_recursive p).
Proof. unfold mkdirSync_recursive. quiet. Qed.

Lemma no_build_mkdirSync p : preserved no_build_step (mkdirSync_recursive p).
Proof. unfold mkdirSync_recursive. no_build. Qed.

Lemma quiet_writeFileSync p content : preserved quiet_step (writeFileSync p content).
Proof. unfold writeFileSync. quiet. Qed.

Lemma no_build_writeFileSync p content : preserved no_build_step (writeFileSync p content).
Proof. unfold writeFileSync. no_build. Qed.

Lemma quiet_rmSync p : preserved quiet_step (rmSync_recursive_force p).
Proof. unfold rmSync_recursive_force. quiet. Qed.

Lemma no_build_rmSync p : preserved no_build_step (rmSync_recursive_force p).
Proof. unfold rmSync_recursive_force. no_build. Qed.

Lemma quiet_readdir_files dir : preserved quiet_step (readdir_files dir).
Proof. unfold readdir_files. quiet. Qed.

Lemma no_build_readdir_files dir : preserved no_build_step (readdir_files dir).
Proof. unfold readdir_files. no_build. Qed.

Lemma no_build_touch id : preserved no_build_step (touch id).
Proof. unfold touch. no_build. Qed.

#[export] Hint Resolve quiet_await quiet_mkdirSync quiet_writeFileSync quiet_rmSync
  quiet_readdir_files : steps.
#[export] Hint Resolve no_build_await no_build_mkdirSync no_build_writeFileSync
  no_build_rmSync no_build_readdir_files no_build_touch : steps.

(** ** The parts of the pipeline leave the jobs alone *)

Lemma quiet_poll_loop env threadId runId n :
  preserved quiet_step (poll_loop env threadId runId n).
Proof.
  induction n as [|n IH]; cbn [poll_loop]; quiet.
Qed.

Lemma no_build_poll_loop env threadId runId n :
  preserved no_build_step (poll_loop env threadId runId n).
Proof.
  induction n as [|n IH]; cbn [poll_loop]; no_build.
Qed.

#[export] Hint Resolve quiet_poll_loop no_build_poll_loop : steps.

Lemma quiet_generate_with env prompt apiProvider :
  preserved quiet_step (generate_with env prompt apiProvider).
Proof.
  unfold generate_with, pollForRunCompletion, extractCodeFromAssistantResponse,
    generateCodeWithGemini, generateCodeWithClaude.
  quiet.
Qed.

Lemma no_build_generate_with env prompt apiProvider :
  preserved no_build_step (generate_with env prompt apiProvider).
Proof.
  unfold generate_with, pollForRunCompletion, extractCodeFromAssistantResponse,
    generateCodeWithGemini, generateCodeWithClaude.
  no_build.
Qed.

Lemma scaffold_command_not_build info : scaffold_command info <> build_command.
Proof.
  unfold scaffold_command. destruct (framework info), (language info);
    intros H; vm_compute in H; discriminate.
Qed.

Lemma deploy_command_not_build token projectName :
  deploy_command token projectName <> build_command.
Proof.
  unfold deploy_command, build_command. cbn. intros H. discriminate.
Qed.

Ltac other_command :=
  first [ apply scaffold_command_not_build
        | apply deploy_command_not_build
        | intros H; vm_compute in H; discriminate ].

Lemma quiet_createScaffoldedProject env outputDir info :
  preserved quiet_step (createScaffoldedProject env outputDir info).
Proof. unfold createScaffoldedProject. quiet. Qed.

Lemma no_build_createScaffoldedProject env outputDir info :
  preserved no_build_step (createScaffoldedProject env outputDir info).
Proof.
  unfold createScaffoldedProject.
  repeat (no_build; try (apply no_build_executeCommand; other_command)).
Qed.

Lemma quiet_addGeneratedCodeToProject projectDir entries :
  preserved quiet_step (addGeneratedCodeToProject projectDir entries).
Proof.
  induction entries as [|[filename content] entries IH];
    cbn [addGeneratedCodeToProject]; quiet.
Qed.

Lemma no_build_addGeneratedCodeToProject projectDir entries :
  preserved no_build_step (addGeneratedCodeToProject projectDir entries).
Proof.
  induction entries as [|[filename content] entries IH];
    cbn [addGeneratedCodeToProject]; no_build.
Qed.

Lemma quiet_deployToVercel env projectDir projectName :
  preserved quiet_step (deployToVercel env projectDir projectName).
Proof. unfold deployToVercel. quiet. Qed.

Lemma no_build_deployToVercel env projectDir projectName :
  preserved no_build_step (deployToVercel env projectDir projectName).
Proof.
  unfold deployToVercel.
  repeat (no_build; try (apply no_build_executeCommand; other_command)).
Qed.

Lemma quiet_try_extensions base exts : preserved quiet_step (try_extensions base exts).
Proof.
  induction exts as [|ext exts IH]; cbn [try_extensions]; quiet.
Qed.

#[export] Hint Resolve quiet_try_extensions : steps.

Lemma quiet_testBuildProject env projectDir :
  preserved quiet_step (testBuildProject env projectDir).
Proof. unfold testBuildProject, repair_and_retry. quiet. Qed.

#[export] Hint Resolve quiet_generate_with no_build_generate_with
  quiet_createScaffoldedProject no_build_createScaffoldedProject
  quiet_addGeneratedCodeToProject no_build_addGeneratedCodeToProject
  quiet_deployToVercel no_build_deployToVercel : steps.

(** The whole task runs no build. *)
Lemma no_build_processGenerateAndDeploy env prompt uniqueId apiProvider :
  preserved no_build_step (processGenerateAndDeploy env prompt uniqueId apiProvider).
Proof.
  unfold processGenerateAndDeploy, pipeline, record_failure. no_build.
Qed.

(** ** The life of a job *)

Lemma jobs_get_set_same jobs id j : jobs_get (jobs_set jobs id j) id = Some j.
Proof.
  induction jobs as [|[k j'] jobs IH]; cbn.
  - rewrite str_eqb_refl. reflexivity.
  - destruct (str_eqb k id) eqn:E; cbn; rewrite E; auto.
Qed.

Lemma step_refl s : step s s.
Proof. left. reflexivity. Qed.

Lemma step_rank a b : step a b -> rank a <= rank b.
Proof.
  intros [->|[H _]]; [lia|]. destruct a, b; cbn in *; try discriminate; lia.
Qed.

Lemma advances_snoc l : forall a b,
  advances (l ++ [a]) -> step a b -> advances (l ++ [a; b]).
Proof.
  induction l as [|x l IH]; intros a b Ha Hs.
  - cbn. auto.
  - destruct l as [|y l].
    + cbn in *. tauto.
    + cbn [app advances] in Ha |- *. destruct Ha as [Hxy Ha]. split; auto.
      apply (IH a b); auto.
Qed.

Lemma descends_advances l :
  descends l -> exists l', rev l = pending :: l' /\ advances (rev l).
Proof.
  induction l as [|b l IH]; cbn [descends]; [contradiction|].
  destruct l as [|a l].
  - intros ->. exists []. cbn. auto.
  - intros [Hs Hd]. destruct (IH Hd) as (l' & E & Ha).
    cbn [rev] in *. exists (l' ++ [b]). split.
    + rewrite E. reflexivity.
    + rewrite <- app_assoc. apply advances_snoc; auto.
Qed.

Section Job.

Variable w0 : World.
Variable id : str.

Lemma job_state_quiet s w w' :
  is_terminal s = false -> quiet_step w w' ->
  job_state w0 id s false w -> job_state w0 id s false w'.
Proof.
  intros Hs (Hj & Hh & k & Ho) (hist & obs & E1 & E2 & F & D & Hd & O & J).
  exists hist, (repeat (w_jobs w) k ++ obs). repeat split; auto.
  - congruence.
  - rewrite Ho, E2, app_assoc. reflexivity.
  - apply Forall_app. split; auto.
    apply Forall_forall. intros x Hx. apply repeat_spec in Hx. subst x.
    destruct J as (j & G & S1 & C1). exists j. repeat split; congruence.
  - rewrite Hj. exact J.
Qed.

Lemma job_running_quiet w w' :
  quiet_step w w' -> job_running w0 id w -> job_running w0 id w'.
Proof.
  intros Hq (s & Hs & H). exists s. split; auto. eapply job_state_quiet; eauto.
Qed.

(** A computation that leaves the jobs alone keeps a running job as it is,
    whether it returns or throws. *)
Lemma hoare_quiet A (c : M A) s :
  preserved quiet_step c -> is_terminal s = false ->
  hoare (job_state w0 id s false) c (fun _ => job_state w0 id s false).
Proof.
  intros Hc Hs. apply (hoare_preserved A c quiet_step); auto.
  intros w w' Hq. apply job_state_quiet; auto.
Qed.

(** An assignment moves the job from one state to the next. *)
Lemma hoare_assign (f : Job -> Job) s d s' d' :
  (forall j, job_status j = s -> job_completed j = d ->
             job_status (f j) = s' /\ job_completed (f j) = d') ->
  step s s' ->
  hoare (job_state w0 id s d) (job_assign id f)
        (fun r w => r = Ok tt /\ job_state w0 id s' d' w).
Proof.
  intros Hf Hstep w (hist & obs & E1 & E2 & F & D & Hd & O & (j & G & S1 & C1)).
  unfold job_assign. rewrite G. cbn. split; auto.
  destruct (Hf j S1 C1) as [S2 C2].
  exists ((id, f j) :: hist), obs. cbn. repeat split; auto.
  - rewrite E1. reflexivity.
  - rewrite S2. fold (statuses hist).
    destruct (statuses hist) as [|a l] eqn:El; [discriminate|].
    cbn in Hd. injection Hd as ->. split; auto.
  - rewrite S2. reflexivity.
  - exists (f j). rewrite jobs_get_set_same. auto.
Qed.

Lemma hoare_touch s d :
  hoare (job_state w0 id s d) (touch id)
        (fun r w => r = Ok tt /\ job_state w0 id s d w).
Proof.
  unfold touch. intros w Hw. unfold bind, Date_now. cbn.
  apply (hoare_assign (set_lastUpdated (w_now w)) s d s d); auto using step_refl.
Qed.

Lemma hoare_seq_assign B (f : Job -> Job) (k : unit -> M B) s d s' d' Q :
  (forall j, job_status j = s -> job_completed j = d ->
             job_status (f j) = s' /\ job_completed (f j) = d') ->
  step s s' ->
  hoare (job_state w0 id s' d') (k tt) Q ->
  hoare (job_state w0 id s d) (bind (job_assign id f) k) Q.
Proof.
  intros Hf Hs Hk.
  apply (hoare_bind _ _ _ _ _ (fun r w => r = Ok tt /\ job_state w0 id s' d' w)).
  - apply hoare_assign; auto.
  - intros []. intros w [_ H]. apply Hk, H.
  - intros e w [H _]. discriminate.
Qed.

Lemma hoare_seq_touch B (k : unit -> M B) s d Q :
  hoare (job_state w0 id s d) (k tt) Q ->
  hoare (job_state w0 id s d) (bind (touch id) k) Q.
Proof.
  intros Hk.
  apply (hoare_bind _ _ _ _ _ (fun r w => r = Ok tt /\ job_state w0 id s d w)).
  - apply hoare_touch.
  - intros []. intros w [_ H]. apply Hk, H.
  - intros e w [H _]. discriminate.
Qed.

Lemma hoare_seq_quiet A B (c : M A) (k : A -> M B) s Q :
  preserved quiet_step c -> is_terminal s = false ->
  (forall a, hoare (job_state w0 id s false) (k a) Q) ->
  (forall e w, job_state w0 id s false w -> Q (Throw e) w) ->
  hoare (job_state w0 id s false) (bind c k) Q.
Proof.
  intros Hc Hs Hk He.
  apply (hoare_bind _ _ _ _ _ (fun _ => job_state w0 id s false)); auto.
  apply hoare_quiet; auto.
Qed.

Lemma hoare_ext A (c c' : M A) P Q :
  (forall w, c w = c' w) -> hoare P c' Q -> hoare P c Q.
Proof. intros E H w Hw. rewrite E. apply H, Hw. Qed.

Lemma bind_assoc A B C (c : M A) (k1 : A -> M B) (k2 : B -> M C) w :
  bind (bind c k1) k2 w = bind c (fun a => bind (k1 a) k2) w.
Proof. unfold bind. destruct (c w) as [[a|e] w']; reflexivity. Qed.

Ltac maps :=
  let j := fresh "j" in let Hs := fresh "Hs" in let Hd := fresh "Hd" in
  intros j Hs Hd; split; cbn; solve [reflexivity | assumption].
Ltac by_edge := right; split; reflexivity.

(** The last statements of the [try] block, once a terminal status is set. *)
Lemma hoare_finish s :
  is_terminal s = true ->
  hoare (job_state w0 id s false)
        (touch id ;; job_assign id (set_completed true)) (pipeline_post w0 id).
Proof.
  intros Hs. apply hoare_seq_touch.
  eapply hoare_conseq; [apply (hoare_assign _ s false s true) | auto |].
  - maps.
  - apply step_refl.
  - intros r w [-> H]. exists s. split; auto.
Qed.

Lemma hoare_pipeline env prompt apiProvider outputDir :
  hoare (job_state w0 id pending false)
        (pipeline env prompt id apiProvider outputDir) (pipeline_post w0 id).
Proof.
  assert (Hrun : forall s e w, is_terminal s = false ->
                   job_state w0 id s false w -> pipeline_post w0 id (Throw e) w).
  { intros s e w Hs H. exists s. split; auto. }
  unfold pipeline.
  apply (hoare_seq_assign _ _ _ pending false generating false); [maps | by_edge |].
  apply hoare_seq_touch.
  apply hoare_seq_quiet; [apply quiet_generate_with | reflexivity | | intros; eapply Hrun; eauto; reflexivity].
  intros result. destruct (obj_keys (files result)) as [|key keys].
  { apply hoare_throw. intros w H. eapply Hrun; eauto. reflexivity. }
  apply (hoare_seq_assign _ _ _ generating false scaffolding false); [maps | by_edge |].
  apply hoare_seq_touch.
  apply hoare_seq_quiet; [apply quiet_createScaffoldedProject | reflexivity | | intros; eapply Hrun; eauto; reflexivity].
  intros _.
  apply hoare_seq_quiet; [apply quiet_addGeneratedCodeToProject | reflexivity | | intros; eapply Hrun; eauto; reflexivity].
  intros _.
  apply hoare_seq_quiet; [apply quiet_readdir_files | reflexivity | | intros; eapply Hrun; eauto; reflexivity].
  intros projectFiles.
  apply hoare_seq_quiet; [apply (preserved_get_world quiet_step quiet_refl) | reflexivity | | intros; eapply Hrun; eauto; reflexivity].
  intros w.
  apply (hoare_seq_assign _ _ _ scaffolding false scaffolding false); [maps | apply step_refl |].
  apply (hoare_seq_assign _ _ _ scaffolding false scaffolding false); [maps | apply step_refl |].
  apply (hoare_seq_assign _ _ _ scaffolding false deploying false); [maps | by_edge |].
  apply hoare_seq_touch.
  destruct (truthy (VERCEL_TOKEN env)).
  - eapply hoare_ext; [intros; apply bind_assoc|].
    apply hoare_seq_quiet; [apply quiet_deployToVercel | reflexivity | | intros; eapply Hrun; eauto; reflexivity].
    intros [url output|error].
    + eapply hoare_ext; [intros; apply bind_assoc|].
      apply (hoare_seq_assign _ _ _ deploying false completed false); [maps | by_edge |].
      eapply hoare_ext; [intros; apply bind_assoc|].
      apply (hoare_seq_assign _ _ _ completed false completed false); [maps | apply step_refl |].
      apply (hoare_seq_assign _ _ _ completed false completed false); [maps | apply step_refl |].
      apply hoare_finish. reflexivity.
    + eapply hoare_ext; [intros; apply bind_assoc|].
      apply (hoare_seq_assign _ _ _ deploying false deployment_failed false); [maps | by_edge |].
      apply (hoare_seq_assign _ _ _ deployment_failed false deployment_failed false);
        [maps | apply step_refl |].
      apply hoare_finish. reflexivity.
  - eapply hoare_ext; [intros; apply bind_assoc|].
    apply (hoare_seq_assign _ _ _ deploying false completed_without_deployment false);
      [maps | by_edge |].
    apply (hoare_seq_assign _ _ _ completed_without_deployment false
             completed_without_deployment false); [maps | apply step_refl |].
    apply hoare_finish. reflexivity.
Qed.

Lemma hoare_record_failure message s :
  is_terminal s = false ->
  hoare (job_state w0 id s false) (record_failure id message)
        (fun r w => r = Ok tt /\ job_state w0 id failed true w).
Proof.
  intros Hs. unfold record_failure.
  apply (hoare_seq_assign _ _ _ s false failed false);
    [maps | right; split; [destruct s; reflexivity | exact Hs] |].
  apply (hoare_seq_assign _ _ _ failed false failed false); [maps | apply step_refl |].
  apply hoare_seq_touch.
  apply hoare_assign; [maps | apply step_refl].
Qed.

(** The task ends, without an exception, with the job in a terminal status
    and flagged as completed. *)
Lemma hoare_processGenerateAndDeploy env prompt apiProvider :
  hoare (job_state w0 id pending false)
        (processGenerateAndDeploy env prompt id apiProvider)
        (fun r w => r = Ok tt /\ job_done w0 id w).
Proof.
  unfold processGenerateAndDeploy.
  eapply hoare_try_catch; [apply hoare_pipeline | |].
  - intros [] w H. split; auto.
  - intros e w (s & Hs & H).
    destruct (hoare_record_failure e s Hs w H) as [E H'].
    split; auto. exists failed. split; auto.
Qed.

End Job.

Lemma advances_rank l :
  advances l ->
  forall i j a b, i <= j -> nth_error l i = Some a -> nth_error l j = Some b ->
                  rank a <= rank b.
Proof.
  induction l as [|x l IH]; intros Hl i j a b Hij Ha Hb.
  - destruct i; discriminate.
  - assert (Htail : advances l) by (destruct l; [exact I | apply Hl]).
    assert (Hfirst : forall k c, nth_error (x :: l) k = Some c -> rank x <= rank c).
    { clear i j a b Hij Ha Hb. intros k. induction k as [|k IHk]; intros c Hc.
      - injection Hc as <-. lia.
      - destruct l as [|y l]; [destruct k; discriminate|].
        destruct Hl as [Hxy Hl].
        apply step_rank in Hxy.
        assert (rank y <= rank c); [|lia].
        apply (IH Hl 0 k y c); auto with arith. }
    destruct i as [|i].
    + injection Ha as <-. eapply Hfirst, Hb.
    + destruct j as [|j]; [lia|]. apply (IH Htail i j); auto with arith.
Qed.

(** The request handler leaves a new job in [pending]. *)
Lemma generateProject_started env req w0 id status url task w :
  generateProject env req w0 = (Ok (Started id status url, task), w) ->
  exists prompt apiProvider,
    task = Some (prompt, id, apiProvider) /\ job_state w0 id pending false w.
Proof.
  unfold generateProject.
  repeat match goal with
         | |- context [if ?b then _ else _] => destruct b; [cbn; intros H; discriminate|]
         end.
  unfold bind, get_world, mkdirSync_recursive, Date_now, store_job, set_fs, ret, throw.
  cbn. destruct (fs_mkdirp (w_fs w0) _) as [fs'|]; cbn; [|discriminate].
  intros [= <- <- <- <- <-].
  eexists _, _. split; [reflexivity|].
  eexists [_], []. cbn.
  split; [reflexivity|]. repeat split; auto.
  eexists. rewrite jobs_get_set_same. repeat split.
Qed.

(** C1.  For every job that the request handler starts and the background
    task processes: the statuses taken by the job, from the first to the
    last assignment, start at [pending] and only advance along the graph (the
    path to [deploying], its three ways out, and the jump to [failed] from a
    state that is not terminal), so that the rank of the status never
    decreases; whenever the task is suspended the job is visible with a
    status that is not terminal and with [completed] false; and when the task
    ends, on the success path as on the catch path, the status is terminal
    and [completed] is true. *)
Theorem status_only_advances (env : Env) (req : GenerateRequest) (w0 w1 : World)
    (id status url : str) :
  submit_and_process env req w0 = (Ok (Started id status url), w1) ->
  exists hist obs final,
    w_history w1 = hist ++ w_history w0 /\
    w_observed w1 = obs ++ w_observed w0 /\
    Forall (fun e => fst e = id) hist /\
    (exists l, rev (statuses hist) = pending :: l) /\
    advances (rev (statuses hist)) /\
    (forall i j a b, i <= j ->
       nth_error (rev (statuses hist)) i = Some a ->
       nth_error (rev (statuses hist)) j = Some b -> rank a <= rank b) /\
    Forall (in_progress id) obs /\
    jobs_get (w_jobs w1) id = Some final /\
    is_terminal (job_status final) = true /\
    job_completed final = true.
Proof.
  unfold submit_and_process, bind.
  destruct (generateProject env req w0) as [[[response task]|e] ws] eqn:Hg;
    [|discriminate].
  destruct task as [[[prompt uniqueId] apiProvider]|].
  - unfold background_task, try_catch.
    destruct (processGenerateAndDeploy env prompt uniqueId apiProvider ws)
      as [r w] eqn:Hp.
    destruct response as [err|jobId st u].
    { destruct r; cbn; [intros H; discriminate|].
      unfold bind, get_world. cbn.
      destruct (jobs_get (w_jobs w) uniqueId); cbn.
      - destruct (record_failure uniqueId message w) as [[|] ?]; cbn; discriminate.
      - discriminate. }
    apply generateProject_started in Hg.
    destruct Hg as (p & a & [= -> -> ->] & Hstate).
    pose proof (hoare_processGenerateAndDeploy w0 jobId env p a ws Hstate) as Hdone.
    rewrite Hp in Hdone. cbn in Hdone. destruct Hdone as (-> & s & Hs & Hfinal).
    cbn. intros [= <- <- <- <-].
    destruct Hfinal as (hist & obs & E1 & E2 & F & D & Hd & O & (j & G & S1 & C1)).
    destruct (descends_advances _ D) as (l & El & Ha).
    exists hist, obs, j. repeat split; auto.
    + exists l. exact El.
    + apply advances_rank, Ha.
    + rewrite S1. exact Hs.
  - destruct response; cbn; intros [= <- <-].
    apply generateProject_started in Hg. destruct Hg as (p & a & H & _). discriminate.
Qed.

Lemma status_only_advances_witness :
  exists hist obs final,
    w_history (snd (submit_and_process (demo_env None scenario_text) demo_request demo_world))
      = hist ++ [] /\
    w_observed (snd (submit_and_process (demo_env None scenario_text) demo_request demo_world))
      = obs ++ [] /\
    rev (statuses hist)
      = [pending; generating; generating; scaffolding; scaffolding; scaffolding; scaffolding;
         deploying; deploying; completed_without_deployment; completed_without_deployment;
         completed_without_deployment; completed_without_deployment] /\
    advances (rev (statuses hist)) /\
    Forall (in_progress (lit "abc")) obs /\
    jobs_get (w_jobs (snd (submit_and_process (demo_env None scenario_text)
                             demo_request demo_world))) (lit "abc") = Some final /\
    job_completed final = true.
Proof.
  destruct (status_only_advances (demo_env None scenario_text) demo_request demo_world
              (snd (submit_and_process (demo_env None scenario_text) demo_request demo_world))
              (lit "abc") (lit "pending") (lit "/getDeploymentStatus?jobId=abc"))
    as (hist & obs & final & E1 & E2 & F & P & A & Rk & O & G & T & C).
  { vm_compute. reflexivity. }
  exists hist, obs, final. repeat split; auto.
  rewrite app_nil_r in E1. rewrite <- E1. vm_compute. reflexivity.
Defined.

(** ** Running the assignments *)

Lemma run_assign B id f j (k : unit -> M B) w :
  jobs_get (w_jobs w) id = Some j ->
  bind (job_assign id f) k w = k tt (assigned id f j w).
Proof. intros H. unfold bind, job_assign. rewrite H. reflexivity. Qed.

Lemma run_touch B id j (k : unit -> M B) w :
  jobs_get (w_jobs w) id = Some j ->
  bind (touch id) k w = k tt (assigned id (set_lastUpdated (w_now w)) j w).
Proof.
  intros H. unfold touch. rewrite bind_assoc. unfold bind at 1. cbn.
  apply run_assign, H.
Qed.

Lemma assigned_get id f j w : jobs_get (w_jobs (assigned id f j w)) id = Some (f j).
Proof. cbn. apply jobs_get_set_same. Qed.

Lemma mark_generating_run id j w :
  jobs_get (w_jobs w) id = Some j ->
  mark_generating id w =
  (Ok tt, assigned id (set_lastUpdated (w_now w)) (set_status generating j)
            (assigned id (set_status generating) j w)).
Proof.
  intros H. unfold mark_generating. rewrite (run_assign _ _ _ _ _ _ H).
  unfold touch, bind, Date_now, job_assign. cbn. rewrite jobs_get_set_same. reflexivity.
Qed.

Lemma record_failure_run id message j w :
  jobs_get (w_jobs w) id = Some j ->
  exists w1 final h,
    record_failure id message w = (Ok tt, w1) /\
    jobs_get (w_jobs w1) id = Some final /\
    job_status final = failed /\ job_completed final = true /\
    job_error final = Some message /\
    w_observed w1 = w_observed w /\
    w_history w1 = h ++ w_history w /\
    Forall (fun e => fst e = id /\ job_status (snd e) = failed) h.
Proof.
  intros H. unfold record_failure.
  rewrite (run_assign _ _ _ _ _ _ H).
  rewrite (run_assign _ _ _ _ _ _ (assigned_get _ _ _ _)).
  rewrite (run_touch _ _ _ _ _ (assigned_get _ _ _ _)).
  unfold job_assign. rewrite assigned_get.
  eexists _, _, [_; _; _; _].
  split; [reflexivity|]. split; [cbn; apply jobs_get_set_same|].
  repeat split. repeat constructor.
Qed.

(** ** A job without files *)

(** C2.  When the generation step of a job ends with an empty file mapping,
    the task ends with the job in [failed], flagged as completed, with the
    error [No code files found in API response]; every assignment it made to
    the job left the status at [generating] or [failed], and at every
    suspension the job was visible in [generating]: it is never seen in
    [scaffolding], [deploying] or a later state. *)
Theorem no_files_job_fails (env : Env) (prompt id apiProvider : str) (w0 w_gen : World)
    (j0 : Job) (result : GenerationResult) :
  jobs_get (w_jobs w0) id = Some j0 ->
  generate_with env prompt apiProvider (snd (mark_generating id w0)) = (Ok result, w_gen) ->
  obj_keys (files result) = [] ->
  exists w1 hist obs final,
    processGenerateAndDeploy env prompt id apiProvider w0 = (Ok tt, w1) /\
    w_history w1 = hist ++ w_history w0 /\
    w_observed w1 = obs ++ w_observed w0 /\
    Forall (fun e => fst e = id /\
                     (job_status (snd e) = generating \/ job_status (snd e) = failed)) hist /\
    Forall (fun snap => exists j, jobs_get snap id = Some j /\ job_status j = generating) obs /\
    jobs_get (w_jobs w1) id = Some final /\
    job_status final = failed /\
    job_completed final = true /\
    job_error final = Some NO_FILES_MESSAGE.
Proof.
  intros H0 Hgen Hfiles.
  rewrite (mark_generating_run id j0 w0 H0) in Hgen. cbn [snd] in Hgen.
  set (wa := assigned id (set_lastUpdated (w_now w0)) (set_status generating j0)
               (assigned id (set_status generating) j0 w0)) in *.
  pose proof (quiet_generate_with env prompt apiProvider wa) as Hq.
  rewrite Hgen in Hq. cbn [snd] in Hq. destruct Hq as (Hj & Hh & k & Ho).
  assert (Hja : jobs_get (w_jobs w_gen) id
                = Some (set_lastUpdated (w_now w0) (set_status generating j0))).
  { rewrite Hj. apply assigned_get. }
  destruct (record_failure_run id NO_FILES_MESSAGE _ w_gen Hja)
    as (w1 & final & h & Hrun & Hget & Hst & Hc & He & Hobs & Hhist & Hh4).
  exists w1, (h ++ [(id, set_lastUpdated (w_now w0) (set_status generating j0));
                    (id, set_status generating j0)]),
         (repeat (w_jobs wa) k), final.
  repeat split; auto.
  - unfold processGenerateAndDeploy, try_catch, pipeline.
    rewrite (run_assign _ _ _ _ _ _ H0).
    rewrite (run_touch _ _ _ _ _ (assigned_get _ _ _ _)).
    unfold bind at 1. cbn [w_now assigned].
    fold (assigned id (set_status generating) j0 w0).
    fold (assigned id (set_lastUpdated (w_now w0)) (set_status generating j0)
            (assigned id (set_status generating) j0 w0)).
    fold wa. rewrite Hgen, Hfiles. cbn [throw]. exact Hrun.
  - rewrite Hhist, Hh. cbn. rewrite <- app_assoc. reflexivity.
  - rewrite Hobs, Ho. reflexivity.
  - apply Forall_app. split.
    + eapply Forall_impl; [|exact Hh4]. cbn. intros e [E1 E2]. auto.
    + repeat constructor.
  - apply Forall_forall. intros snap Hs. apply repeat_spec in Hs. subst snap.
    eexists. split; [apply assigned_get | reflexivity].
Qed.

Lemma no_files_job_fails_witness :
  exists w1 final,
    processGenerateAndDeploy (demo_env None (lit "Sorry, I cannot help with that."))
      (lit "counter app") (lit "abc") (lit "gemini")
      (snd (generateProject (demo_env None (lit "Sorry, I cannot help with that."))
              demo_request demo_world)) = (Ok tt, w1) /\
    jobs_get (w_jobs w1) (lit "abc") = Some final /\
    job_status final = failed /\
    job_completed final = true /\
    job_error final = Some NO_FILES_MESSAGE.
Proof.
  pose (env := demo_env None (lit "Sorry, I cannot help with that.")).
  pose (w0 := snd (generateProject env demo_request demo_world)).
  destruct (no_files_job_fails env (lit "counter app") (lit "abc") (lit "gemini") w0
              (snd (generate_with env (lit "counter app") (lit "gemini")
                      (snd (mark_generating (lit "abc") w0))))
              (new_job (lit "abc") (lit "counter app") (lit "gemini") 1000)
              (extractCodeFromResponse (lit "Sorry, I cannot help with that.")))
    as (w1 & hist & obs & final & Hrun & _ & _ & _ & _ & Hget & Hs & Hc & He).
  - vm_compute. reflexivity.
  - vm_compute. reflexivity.
  - vm_compute. reflexivity.
  - exists w1, final.
    exact (conj Hrun (conj Hget (conj Hs (conj Hc He)))).
Defined.

(** ** The status endpoint *)

(** C9.  For a query on a known job id the answer always holds [success],
    [jobId], [status], [created] and [lastUpdated].  While [completed] is
    false it holds nothing else.  Once [completed] is true it also holds
    [outputDir] and, when they are set on the job, [error], [files] and
    [deploymentUrl] (a text is set when it is not empty, a list when it has
    been assigned).  [fileContents] is in the answer if and only if the query
    passed [includeFiles=true], the job is flagged as completed and file
    contents were captured. *)
Theorem status_response_fields (jobs : JobStore) (q : StatusQuery) (id : str) (job : Job) :
  query_jobId q = Some id -> id <> [] ->
  jobs_get jobs id = Some job ->
  exists body,
    getDeploymentStatus jobs q = Status200 body /\
    r_success body = true /\
    r_jobId body = job_id job /\
    r_status body = status_text (job_status job) /\
    r_created body = job_created job /\
    r_lastUpdated body = job_lastUpdated job /\
    (job_completed job = false ->
       r_outputDir body = None /\ r_error body = None /\ r_files body = None /\
       r_deploymentUrl body = None /\ r_fileContents body = None) /\
    (job_completed job = true ->
       r_outputDir body = Some (job_outputDir job) /\
       r_error body = (if truthy (job_error job) then job_error job else None) /\
       r_files body = job_files job /\
       r_deploymentUrl body
         = (if truthy (job_deploymentUrl job) then job_deploymentUrl job else None)) /\
    (r_fileContents body <> None <->
       query_includeFiles q = Some (lit "true") /\
       job_completed job = true /\
       job_fileContents job <> None).
Proof.
  intros Hq Hid Hjob. unfold getDeploymentStatus. rewrite Hq.
  destruct id as [|c id]; [contradiction|]. cbn [truthy negb]. rewrite Hjob.
  eexists. split; [reflexivity|].
  unfold status_body. destruct (job_completed job) eqn:Hc; cbn.
  - do 5 (split; [reflexivity|]).
    split; [discriminate|]. split; [auto|].
    unfold is_true_text. split.
    + intros H. destruct (query_includeFiles q) as [t|]; [|contradiction].
      destruct (str_eqb t (lit "true")) eqn:E; [|contradiction].
      apply str_eqb_eq in E. subst t. auto.
    + intros (Hi & _ & Hf). rewrite Hi. cbn. exact Hf.
  - do 5 (split; [reflexivity|]).
    split; [auto|]. split; [discriminate|].
    split; [contradiction|]. intros (_ & H & _). discriminate.
Qed.

Lemma status_response_fields_witness :
  exists body,
    getDeploymentStatus
      (w_jobs (snd (submit_and_process (demo_env None scenario_text) demo_request demo_world)))
      (mkStatusQuery (Some (lit "abc")) (Some (lit "true"))) = Status200 body /\
    r_status body = lit "completed_without_deployment" /\
    r_outputDir body = Some (lit "generated_projects/abc") /\
    r_files body = Some [lit "package.json"; lit "src/App.jsx"] /\
    r_deploymentUrl body = None /\
    r_fileContents body <> None.
Proof.
  pose (jobs := w_jobs (snd (submit_and_process (demo_env None scenario_text)
                                demo_request demo_world))).
  pose (job := match jobs_get jobs (lit "abc") with
               | Some j => j
               | None => new_job [] [] [] 0
               end).
  destruct (status_response_fields jobs (mkStatusQuery (Some (lit "abc")) (Some (lit "true")))
              (lit "abc") job)
    as (body & Hb & _ & _ & Hs & _ & _ & _ & Hdone & Hfc).
  - reflexivity.
  - discriminate.
  - vm_compute. reflexivity.
  - exists body. split; [exact Hb|].
    destruct Hdone as (Ho & _ & Hf & Hu); [vm_compute; reflexivity|].
    repeat split.
    + rewrite Hs. vm_compute. reflexivity.
    + rewrite Ho. vm_compute. reflexivity.
    + rewrite Hf. vm_compute. reflexivity.
    + rewrite Hu. vm_compute. reflexivity.
    + apply Hfc. split; [reflexivity|].
      split; [vm_compute; reflexivity | vm_compute; discriminate].
Defined.

(** ** The file system *)

Lemma lookup_set_same s c es : lookup_entry s (set_entry s c es) = Some c.
Proof.
  induction es as [|[n c'] es IH]; cbn.
  - rewrite str_eqb_refl. reflexivity.
  - destruct (str_eqb n s) eqn:E; cbn; rewrite E; auto.
Qed.

Lemma lookup_set_other s t c es :
  t <> s -> lookup_entry t (set_entry s c es) = lookup_entry t es.
Proof.
  intros Hne. induction es as [|[n c'] es IH]; cbn.
  - destruct (str_eqb s t) eqn:E; auto. apply str_eqb_eq in E. congruence.
  - destruct (str_eqb n s) eqn:E; cbn.
    + apply str_eqb_eq in E. subst n.
      destruct (str_eqb s t) eqn:E'; auto. apply str_eqb_eq in E'. congruence.
    + rewrite IH. reflexivity.
Qed.

Lemma fs_write_lookup segs : forall n n' c,
  fs_write n segs c = inl n' -> fs_lookup n' segs = Some (File c).
Proof.
  induction segs as [|s segs IH]; intros n n' c H; cbn in H.
  - destruct n; [|discriminate]. injection H as <-. reflexivity.
  - destruct n as [|es]; [discriminate|].
    destruct (lookup_entry s es) as [ch|] eqn:El.
    + destruct (fs_write ch segs c) as [ch'|e] eqn:Ew; [|discriminate].
      injection H as <-. cbn. rewrite lookup_set_same. eapply IH, Ew.
    + destruct segs; [|discriminate]. injection H as <-.
      cbn. rewrite lookup_set_same. reflexivity.
Qed.



Lemma list_files_cons rel name c es :
  list_files rel (Dir ((name, c) :: es)) =
  match c with
  | Dir _ => list_files (relative_name rel name) c
  | File _ => [relative_name rel name]
  end ++ list_files rel (Dir es).
Proof. reflexivity. Qed.


Lemma fs_lookup_app dir : forall n rel,
  fs_lookup n (dir ++ rel) =
  match fs_lookup n dir with
  | Some d => fs_lookup d rel
  | None => None
  end.
Proof.
  induction dir as [|s dir IH]; intros n rel; cbn; auto.
  destruct n as [|es]; auto. destruct (lookup_entry s es); auto.
Qed.


(** ** The overlay of the generated files *)

Ltac absurd_run := let H := fresh in intros H; discriminate H.




(** One entry of the overlay: what its success means. *)
Lemma overlay_entry projectDir filename content entries w w' :
  addGeneratedCodeToProject projectDir ((filename, content) :: entries) w = (Ok tt, w') ->
  exists w1 w2,
    (w1 = w \/ mkdirSync_recursive (path_dirname (path_join [projectDir; filename])) w
              = (Ok tt, w1)) /\
    writeFileSync (path_join [projectDir; filename]) content w1 = (Ok tt, w2) /\
    addGeneratedCodeToProject projectDir entries w2 = (Ok tt, w').
Proof.
  cbn [addGeneratedCodeToProject]. unfold bind at 1. unfold existsSync at 1.
  cbn [fst snd].
  destruct (fs_lookup (w_fs w) (path_segments (path_dirname (path_join [projectDir; filename])))).
  - unfold bind at 1. unfold ret at 1.
    unfold bind at 1.
    destruct (writeFileSync (path_join [projectDir; filename]) content w)
      as [[[]|e] w2] eqn:Ew; [|absurd_run].
    intros H. exists w, w2. auto.
  - unfold bind at 1.
    destruct (mkdirSync_recursive (path_dirname (path_join [projectDir; filename])) w)
      as [[[]|e] w1] eqn:Em; [|absurd_run].
    unfold bind at 1.
    destruct (writeFileSync (path_join [projectDir; filename]) content w1)
      as [[[]|e] w2] eqn:Ew; [|absurd_run].
    intros H. exists w1, w2. auto.
Qed.









(** ** A job without deployment credential *)



(** ** The build-validate-repair helper *)

Lemma existsSync_run p w : existsSync p w = (Ok (on_disk (w_fs w) p), w).
Proof. reflexivity. Qed.

Lemma try_extensions_run joined exts w :
  try_extensions joined exts w =
  (Ok match find (on_disk (w_fs w)) (map (fun ext => joined ++ ext) exts) with
      | Some p => p
      | None => joined
      end, w).
Proof.
  induction exts as [|ext exts IH]; cbn [try_extensions map find]; [reflexivity|].
  unfold bind. rewrite existsSync_run.
  destruct (on_disk (w_fs w) (joined ++ ext)); [reflexivity | exact IH].
Qed.

Lemma find_app_first A (f : A -> bool) (l1 l2 : list A) :
  find f (l1 ++ l2) = match find f l1 with
                      | Some x => Some x
                      | None => find f l2
                      end.
Proof.
  induction l1 as [|a l1 IH]; cbn; auto. destruct (f a); auto.
Qed.

Lemma locate_run (joined : str) (exts : list str) (src : bool) B
    (k : bool -> str -> M B) w :
  (componentFullPath <- (if src then ret joined else try_extensions joined exts) ;;
   found <- existsSync componentFullPath ;;
   k found componentFullPath) w =
  match find (on_disk (w_fs w))
          (if src then [joined] else map (fun ext => joined ++ ext) exts ++ [joined]) with
  | Some full => k true full w
  | None =>
      k false
        match find (on_disk (w_fs w)) (map (fun ext => joined ++ ext) exts) with
        | Some p => if src then joined else p
        | None => joined
        end w
  end.
Proof.
  destruct src.
  - unfold bind, ret. rewrite existsSync_run. cbn [find].
    destruct (on_disk (w_fs w) joined); [reflexivity|].
    destruct (find (on_disk (w_fs w)) (map (fun ext => joined ++ ext) exts)); reflexivity.
  - unfold bind. rewrite try_extensions_run, existsSync_run, find_app_first.
    cbv delta [str].
    match goal with
    | |- context [@find ?T ?f (@map ?U ?V ?g exts)] =>
        destruct (@find T f (@map U V g exts)) as [p|] eqn:Ef
    end.
    + apply find_some in Ef. destruct Ef as [_ Ef]. rewrite Ef. reflexivity.
    + cbn [find]. destruct (on_disk (w_fs w) joined); reflexivity.
Qed.

(** The component path that the code ends up with, and whether it is on
    disk, is what [locate_component] says. *)
Lemma locate_component_run projectDir componentPath B (k : bool -> str -> M B) w :
  (componentFullPath <-
     (if has_source_extension (path_join [projectDir; lit "src"; componentPath])
      then ret (path_join [projectDir; lit "src"; componentPath])
      else try_extensions (path_join [projectDir; lit "src"; componentPath])
             (map lit [".jsx"; ".js"; ".tsx"; ".ts"]%string)) ;;
   found <- existsSync componentFullPath ;;
   k found componentFullPath) w =
  match locate_component (w_fs w) projectDir componentPath with
  | Some full => k true full w
  | None =>
      k false
        match find (on_disk (w_fs w))
                (map (fun ext => path_join [projectDir; lit "src"; componentPath] ++ ext)
                     (map lit [".jsx"; ".js"; ".tsx"; ".ts"]%string)) with
        | Some p => if has_source_extension (path_join [projectDir; lit "src"; componentPath])
                    then path_join [projectDir; lit "src"; componentPath] else p
        | None => path_join [projectDir; lit "src"; componentPath]
        end w
  end.
Proof. unfold locate_component. apply locate_run. Qed.

Lemma repair_and_retry_run env projectDir message w1 :
  repair_and_retry env projectDir message w1 =
  match repair_target (w_fs w1) projectDir message with
  | None => (Ok false, w1)
  | Some (css, component) =>
      match writeFileSync css (placeholder_css component) w1 with
      | (Ok _, w2) =>
          (Ok (is_ok (fst (executeCommand env build_command projectDir w2))),
           snd (executeCommand env build_command projectDir w2))
      | (Throw e, w2) => (Throw e, w2)
      end
  end.
Proof.
  unfold repair_and_retry, repair_target, unresolved_css_import.
  destruct (includes (lit "Could not resolve") message && includes (lit ".css") message);
    [|reflexivity].
  destruct (str_match missingFileRegex message) as [m1|]; [|reflexivity].
  unfold group_text.
  destruct (m_group m1 1) as [[|c1 f]|]; cbn [truthy]; try reflexivity.
  destruct (str_match componentRegex message) as [m2|]; [|reflexivity].
  destruct (m_group m2 1) as [[|c2 q]|]; cbn [truthy]; try reflexivity.
  rewrite (locate_component_run projectDir (c2 :: q) bool
             (fun found componentFullPath =>
                if found then
                  writeFileSync
                    (path_join [path_dirname componentFullPath; path_basename (c1 :: f)])
                    (placeholder_css componentFullPath) ;;
                  try_catch (executeCommand env build_command projectDir ;; ret true)
                            (fun _ => ret false)
                else ret false)).
  destruct (locate_component (w_fs w1) projectDir (c2 :: q)) as [full|]; [|reflexivity].
  unfold bind at 1.
  destruct (writeFileSync (path_join [path_dirname full; path_basename (c1 :: f)])
              (placeholder_css full) w1) as [[[]|e] w2]; [|reflexivity].
  unfold try_catch, bind.
  destruct (executeCommand env build_command projectDir w2) as [[out|e] w3]; reflexivity.
Qed.

Lemma executeCommand_log env command cwd w :
  w_commands (snd (executeCommand env command cwd w)) = w_commands w ++ [(command, cwd)].
Proof.
  unfold executeCommand.
  destruct (exec env (w_calls w) command cwd (w_fs w)) as [r fs']. reflexivity.
Qed.

Lemma writeFileSync_log p content w :
  w_commands (snd (writeFileSync p content w)) = w_commands w.
Proof.
  unfold writeFileSync, bind, get_world, set_fs, throw.
  destruct (endsWith [slash] p); [reflexivity|].
  cbn [fst snd]. destruct (fs_write (w_fs w) (path_segments p) content); reflexivity.
Qed.

(** The build that the deployment scenario would need is not run: the job
    is deployed after the scaffolding command, two installations and the
    deployment command. *)
Lemma build_before_deployment_counterexample :
  option_map job_status
    (jobs_get (w_jobs (snd (submit_and_process (demo_env (Some (lit "tok")) scenario_text)
                              demo_request demo_world))) (lit "abc")) = Some completed /\
  ~ In build_command
       (map fst (w_commands (snd (submit_and_process (demo_env (Some (lit "tok")) scenario_text)
                                    demo_request demo_world)))).
Proof.
  split.
  - vm_compute. reflexivity.
  - vm_compute. intros [H|[H|[H|[H|[]]]]]; discriminate.
Qed.

(** C4, amended.  No run of the background task, deployment included, issues
    the build command: the build-validate-repair loop is the helper
    [testBuildProject], which the deploy path does not call.  The helper
    itself runs the build command once in the project directory.  When that
    build succeeds it answers [true].  When it fails and the error text names
    an unresolved stylesheet (it holds [Could not resolve] and [.css], and the
    missing file and the importing component can be read from it) and the
    component file is found on disk (the standard source extensions are tried
    when the path has none), a placeholder stylesheet holding one comment
    line is written beside it.  When that write fails, its error escapes the
    helper, which throws without a second build; when it succeeds, the build
    is run exactly once more and the answer is whether that second build
    succeeded.  A failed build of any other kind is answered by [false]
    without a second build.  So the helper ends in one of these four ways,
    and the build command is run once or twice, never more. *)
Theorem build_validate_repair (env : Env) (projectDir : str) (w : World) :
  (forall prompt id apiProvider w_start,
     no_build_step w_start (snd (processGenerateAndDeploy env prompt id apiProvider w_start))) /\
  (forall projectName w_start,
     no_build_step w_start (snd (deployToVercel env projectDir projectName w_start))) /\
  build_outcome env projectDir w (testBuildProject env projectDir w) /\
  exists n, (n = 1 \/ n = 2) /\
    w_commands (snd (testBuildProject env projectDir w))
      = w_commands w ++ repeat (build_command, projectDir) n.
Proof.
  split; [intros; apply no_build_processGenerateAndDeploy|].
  split; [intros; apply no_build_deployToVercel|].
  unfold testBuildProject, try_catch, bind.
  pose proof (executeCommand_log env build_command projectDir w) as Hlog1.
  destruct (executeCommand env build_command projectDir w) as [[out|message] w1] eqn:E1;
    cbn [snd] in Hlog1.
  - split.
    + eapply first_build_succeeds; eauto.
    + exists 1. split; auto.
  - rewrite repair_and_retry_run.
    destruct (repair_target (w_fs w1) projectDir message) as [[css component]|] eqn:Et.
    + pose proof (writeFileSync_log css (placeholder_css component) w1) as Hlog2.
      destruct (writeFileSync css (placeholder_css component) w1) as [[[]|e] w2] eqn:Ew;
        cbn [snd] in Hlog2.
      * pose proof (executeCommand_log env build_command projectDir w2) as Hlog3.
        split.
        -- eapply repaired_and_retried; eauto.
           destruct (executeCommand env build_command projectDir w2); reflexivity.
        -- exists 2. split; auto. cbn [snd repeat].
           rewrite Hlog3, Hlog2, Hlog1, <- app_assoc. reflexivity.
      * split.
        -- eapply placeholder_not_written; eauto.
        -- exists 1. split; auto. cbn [snd repeat]. rewrite Hlog2, Hlog1. reflexivity.
    + split.
      * eapply failure_surfaced; eauto.
      * exists 1. split; auto.
Qed.

Lemma build_validate_repair_example :
  fst (testBuildProject build_env (lit "/p") build_world) = Ok true /\
  w_commands (snd (testBuildProject build_env (lit "/p") build_world))
    = [(build_command, lit "/p"); (build_command, lit "/p")] /\
  fs_lookup (w_fs (snd (testBuildProject build_env (lit "/p") build_world)))
            [lit "p"; lit "src"; lit "App.css"]
    = Some (File (placeholder_css (lit "/p/src/App.jsx"))).
Proof.
  vm_compute. repeat split; reflexivity.
Qed.


(** ** The fuel of the quantifiers is enough *)

Lemma flat_map_ext_in A B (f g : A -> list B) (l : list A) :
  (forall a, In a l -> f a = g a) -> flat_map f l = flat_map g l.
Proof.
  induction l as [|a l IH]; intros H; cbn; auto.
  rewrite (H a (or_introl eq_refl)), IH; auto.
  intros b Hb. apply H. right. exact Hb.
Qed.

(** With more fuel than [min] plus the length of the rest of the input, a
    quantifier gives the same states whatever the fuel: the bound used by
    [matcher] never cuts a repetition short. *)
Lemma repeat_matcher_fuel m gs greedy :
  (forall x y, In y (m x) ->
     length (rest y) <= length (rest x) /\
     (endIndex y = endIndex x -> length (rest y) = length (rest x)) /\
     (length (rest y) = length (rest x) -> endIndex y = endIndex x)) ->
  forall fuel1 fuel2 min max x,
    min + length (rest x) < fuel1 -> min + length (rest x) < fuel2 ->
    repeat_matcher m gs greedy fuel1 min max x = repeat_matcher m gs greedy fuel2 min max x.
Proof.
  intros Hm. induction fuel1 as [|fuel1 IH]; intros fuel2 min max x H1 H2; [lia|].
  destruct fuel2 as [|fuel2]; [lia|]. cbn [repeat_matcher].
  destruct (max_is_zero max); [reflexivity|].
  set (xr := MState (endIndex x) (rest x) (reset_captures gs (captures x))).
  assert (Hagain :
    flat_map (fun y => if (min =? 0) && (endIndex y =? endIndex x) then []
                       else repeat_matcher m gs greedy fuel1 (Nat.pred min) (max_pred max) y)
             (m xr) =
    flat_map (fun y => if (min =? 0) && (endIndex y =? endIndex x) then []
                       else repeat_matcher m gs greedy fuel2 (Nat.pred min) (max_pred max) y)
             (m xr)).
  { apply flat_map_ext_in. intros y Hy. apply Hm in Hy.
    unfold xr in Hy. cbn [rest endIndex] in Hy.
    destruct Hy as (Hle & Hsame & Hlen).
    destruct (min =? 0) eqn:Emin; cbn [andb].
    - apply Nat.eqb_eq in Emin. subst min.
      destruct (endIndex y =? endIndex x) eqn:Eidx; [reflexivity|].
      apply Nat.eqb_neq in Eidx.
      assert (length (rest y) <> length (rest x)) by (intros E; apply Eidx, Hlen, E).
      apply IH; cbn [Nat.pred]; lia.
    - apply Nat.eqb_neq in Emin. apply IH; lia. }
  rewrite Hagain. reflexivity.
Qed.

Lemma matcher_lengths r x y :
  In y (matcher r x) ->
  length (rest y) <= length (rest x) /\
  (endIndex y = endIndex x -> length (rest y) = length (rest x)) /\
  (length (rest y) = length (rest x) -> endIndex y = endIndex x).
Proof.
  intros H. apply (matcher_ok (fun _ => true) 0) in H.
  destruct H as (w & E & I & _). rewrite E, I, length_app. repeat split; lia.
Qed.

Lemma matcher_Rep_fuel greedy min max r x fuel :
  min + length (rest x) < fuel ->
  matcher (Rep greedy min max r) x
  = repeat_matcher (matcher r) (groups r) greedy fuel min max x.
Proof.
  intros H. rewrite matcher_Rep. apply repeat_matcher_fuel; [|lia|exact H].
  intros x0 y0. apply matcher_lengths.
Qed.

(** * Further properties of the code *)

(** ** Texts and searches *)

Lemma includes_suffixes needle : forall s k,
  includes needle s = false -> startsWith needle (skipn k s) = false.
Proof.
  induction s as [|c s IH]; intros k H.
  - destruct k; cbn in *; rewrite orb_false_r in H; exact H.
  - cbn [includes] in H. apply orb_false_elim in H. destruct H as [H1 H2].
    destruct k as [|k]; [exact H1 | cbn [skipn]; apply IH, H2].
Qed.

Lemma search_from_none r : forall s i,
  (forall k, match_at r (i + k) (skipn k s) = None) -> search_from r i s = None.
Proof.
  induction s as [|c s IH]; intros i H; cbn [search_from].
  - specialize (H 0). rewrite Nat.add_0_r in H. cbn in H. rewrite H. reflexivity.
  - pose proof (H 0) as H0. rewrite Nat.add_0_r in H0. cbn [skipn] in H0. rewrite H0.
    apply IH. intros k. specialize (H (S k)). cbn [skipn] in H. rewrite <- H. f_equal. lia.
Qed.

Lemma no_block_here i s :
  startsWith (lit "```") s = false -> match_at codeBlockRegex i s = None.
Proof.
  intros H. unfold match_at, codeBlockRegex. cbn [seqs]. unfold Lt at 1.
  rewrite matcher_Seq, matcher_Lit. cbn [rest]. rewrite H. reflexivity.
Qed.

Lemma no_block_in s lastIndex :
  includes (lit "```") s = false -> search_from codeBlockRegex lastIndex s = None.
Proof.
  intros H. apply search_from_none. intros k. apply no_block_here, includes_suffixes, H.
Qed.

Lemma trimStart_head s : forall c s', trimStart s = c :: s' -> is_space c = false.
Proof.
  induction s as [|d s IH]; intros c s' H; cbn in H; [discriminate|].
  destruct (is_space d) eqn:E; [eapply IH, H | injection H as <- _; exact E].
Qed.

Lemma trimStart_fixed s :
  (forall c s', s = c :: s' -> is_space c = false) -> trimStart s = s.
Proof.
  destruct s as [|c s]; intros H; cbn; auto. rewrite (H c s eq_refl). reflexivity.
Qed.

Lemma trimStart_snoc s c :
  is_space c = false -> trimStart (s ++ [c]) = trimStart s ++ [c].
Proof.
  intros Hc. induction s as [|d s IH]; cbn.
  - rewrite Hc. reflexivity.
  - destruct (is_space d); auto.
Qed.

(** Trimming the end keeps a first code unit that is not white space. *)
Lemma trimEnd_head t :
  (forall c s', t = c :: s' -> is_space c = false) ->
  forall c s', trimEnd t = c :: s' -> is_space c = false.
Proof.
  intros Ht. destruct t as [|d t]; [discriminate|].
  pose proof (Ht d t eq_refl) as Hd.
  unfold trimEnd. cbn [rev]. rewrite trimStart_snoc by exact Hd.
  rewrite rev_app_distr. cbn. intros c s' [= <- _]. exact Hd.
Qed.

Lemma trimEnd_last t : forall c s', trimEnd t = s' ++ [c] -> is_space c = false.
Proof.
  intros c s' H. unfold trimEnd in H. apply (f_equal (@rev ascii)) in H.
  rewrite rev_involutive, rev_app_distr in H. cbn in H. eapply trimStart_head, H.
Qed.

Lemma trim_no_space_at_ends s : no_space_at_ends (trim s).
Proof.
  split.
  - apply trimEnd_head. apply trimStart_head.
  - apply trimEnd_last.
Qed.

Lemma no_space_at_ends_trim s : no_space_at_ends s -> trim s = s.
Proof.
  intros [H1 H2]. unfold trim, trimEnd. rewrite (trimStart_fixed s H1).
  rewrite trimStart_fixed; [apply rev_involutive|].
  intros c s' E. apply (H2 c (rev s')).
  rewrite <- (rev_involutive s), E. reflexivity.
Qed.

Lemma trim_idempotent s : trim (trim s) = trim s.
Proof. apply no_space_at_ends_trim, trim_no_space_at_ends. Qed.

(** ** More on the extraction engine *)

(** X1.  A response in which no fence occurs gives no block and no file. *)
Theorem text_without_fence_gives_no_file (response : str) :
  includes (lit "```") response = false ->
  code_blocks response = [] /\ files (extractCodeFromResponse response) = [].
Proof.
  intros H.
  assert (Hb : code_blocks response = []).
  { unfold code_blocks. cbn [code_blocks_from]. unfold regex_exec.
    replace (length response <? 0) with false by (symmetry; apply Nat.ltb_ge; lia).
    cbn [skipn]. rewrite no_block_in; auto. }
  split; [exact Hb|]. rewrite files_of_blocks, Hb. reflexivity.
Qed.

Lemma text_without_fence_gives_no_file_witness :
  files (extractCodeFromResponse (lit "Sorry, I cannot help with that.")) = [].
Proof.
  apply (text_without_fence_gives_no_file (lit "Sorry, I cannot help with that.")).
  vm_compute. reflexivity.
Defined.

Lemma fold_store_trimmed bs : forall o,
  (forall k v, In (k, v) o -> no_space_at_ends v) ->
  forall k v, In (k, v) (fold_left store_block bs o) -> no_space_at_ends v.
Proof.
  induction bs as [|b bs IH]; intros o Ho; cbn [fold_left]; auto.
  apply IH. intros k v Hin. unfold store_block in Hin.
  apply in_obj_set in Hin. destruct Hin as [[_ ->]|Hin]; [|eapply Ho, Hin].
  apply trim_no_space_at_ends.
Qed.

(** X2.  Every content stored by the extractor is trimmed: it neither starts nor
    ends with white space, and trimming it again changes nothing. *)
Theorem extracted_content_is_trimmed (response filename content : str) :
  In (filename, content) (files (extractCodeFromResponse response)) ->
  no_space_at_ends content /\ trim content = content.
Proof.
  intros Hin. rewrite files_of_blocks in Hin.
  assert (H : no_space_at_ends content).
  { eapply fold_store_trimmed; [|exact Hin]. intros k v []. }
  split; [exact H | apply no_space_at_ends_trim, H].
Qed.

Lemma extracted_content_is_trimmed_witness :
  no_space_at_ends (lit "export default () => null;").
Proof.
  apply (extracted_content_is_trimmed scenario_text (lit "src/App.jsx")).
  vm_compute. left. reflexivity.
Defined.

(** ** The match reported first *)

Lemma first_Seq r1 r2 x y z :
  first_match r1 x y -> first_match r2 y z -> first_match (Seq r1 r2) x z.
Proof.
  intros [l1 H1] [l2 H2]. unfold first_match.
  rewrite matcher_Seq, H1. cbn [flat_map]. rewrite H2. eexists. reflexivity.
Qed.

Lemma startsWith_app l s : startsWith l (l ++ s) = true.
Proof.
  induction l as [|c l IH]; cbn; auto.
  unfold chr_eqb. rewrite Ascii.eqb_refl. exact IH.
Qed.

Lemma skipn_exact (l s : str) : skipn (length l) (l ++ s) = s.
Proof. induction l as [|c l IH]; cbn; auto. Qed.

Lemma firstn_exact (l s : str) : firstn (length l) (l ++ s) = l.
Proof. induction l as [|c l IH]; cbn; auto. rewrite IH. reflexivity. Qed.

Lemma first_Lit l s i caps :
  first_match (Lit l) (MState i (l ++ s) caps) (MState (i + length l) s caps).
Proof.
  exists []. rewrite matcher_Lit. cbn [rest endIndex captures].
  rewrite startsWith_app, skipn_exact. reflexivity.
Qed.

Lemma first_Alt_left r1 r2 x y : first_match r1 x y -> first_match (Alt r1 r2) x y.
Proof.
  intros [l H]. exists (l ++ matcher r2 x). cbn [matcher]. rewrite H. reflexivity.
Qed.

(** A greedy run of a character class takes the longest run first. *)
Lemma first_class p min w s i caps :
  forallb p w = true ->
  match s with [] => True | c :: _ => p c = false end ->
  min <= length w ->
  first_match (Rep true min None (Chr p)) (MState i (w ++ s) caps)
              (MState (i + length w) s caps).
Proof.
  intros Hw Hs Hmin. unfold first_match. rewrite matcher_Rep. cbn [rest groups].
  destruct (greedy_class_head p (matcher (Chr p)) (fun x => eq_refl) w s i caps min
              (S (min + length (w ++ s)))) as [l Hl]; auto.
  { rewrite length_app. lia. }
  exists l. exact Hl.
Qed.

Lemma first_group_class g p min w s i caps :
  forallb p w = true ->
  match s with [] => True | c :: _ => p c = false end ->
  min <= length w ->
  first_match (Group g (Rep true min None (Chr p))) (MState i (w ++ s) caps)
              (MState (i + length w) s (set_capture g w caps)).
Proof.
  intros Hw Hs Hmin. destruct (first_class p min w s i caps Hw Hs Hmin) as [l Hl].
  unfold first_match. rewrite matcher_Group, Hl. cbn [map endIndex rest captures].
  replace (i + length w - i) with (length w) by lia.
  rewrite firstn_exact. eexists. reflexivity.
Qed.

Lemma repeat_matcher_done m gs greedy fuel min x :
  repeat_matcher m gs greedy fuel min (Some 0) x = [x].
Proof. destruct fuel; reflexivity. Qed.

(** An optional part: the body is tried first, and taken when it consumes
    something; when the body fails the part is skipped. *)
Lemma first_Opt_take r x y :
  first_match r (MState (endIndex x) (rest x) (reset_captures (groups r) (captures x))) y ->
  endIndex y <> endIndex x ->
  first_match (Opt r) x y.
Proof.
  intros [l H] Hne. unfold first_match, Opt. rewrite matcher_Rep.
  cbn [repeat_matcher max_is_zero Nat.add Nat.eqb negb andb max_pred Nat.pred].
  rewrite H. cbn [flat_map].
  replace (endIndex y =? endIndex x) with false by (symmetry; apply Nat.eqb_neq; exact Hne).
  rewrite repeat_matcher_done. eexists. reflexivity.
Qed.

Lemma first_Opt_skip r x :
  matcher r (MState (endIndex x) (rest x) (reset_captures (groups r) (captures x))) = [] ->
  first_match (Opt r) x x.
Proof.
  intros H. unfold first_match, Opt. rewrite matcher_Rep.
  cbn [repeat_matcher max_is_zero Nat.add Nat.eqb negb andb max_pred Nat.pred].
  rewrite H. exists []. reflexivity.
Qed.

Lemma class_plus_fails p x :
  match rest x with [] => True | c :: _ => p c = false end ->
  matcher (Rep true 1 None (Chr p)) x = [].
Proof.
  intros H. rewrite matcher_Rep.
  cbn [repeat_matcher max_is_zero Nat.add Nat.eqb negb matcher rest groups].
  destruct (rest x) as [|c s]; [reflexivity|]. rewrite H. reflexivity.
Qed.

(** The language tag of a fence, which may be missing. *)
Lemma first_lang_tag lang s i caps :
  forallb lang_chr lang = true ->
  match s with [] => True | c :: _ => lang_chr c = false end ->
  first_match (Opt (Group 1 (Plus (Chr lang_chr)))) (MState i (lang ++ s) caps)
    (MState (i + length lang) s
       match lang with
       | [] => caps
       | _ => set_capture 1 lang (reset_captures [1] caps)
       end).
Proof.
  intros Hl Hs. destruct lang as [|c lang].
  - cbn [app length]. rewrite Nat.add_0_r. apply first_Opt_skip.
    rewrite matcher_Group. unfold Plus. rewrite class_plus_fails; [reflexivity|].
    cbn [rest]. exact Hs.
  - apply first_Opt_take.
    + cbn [endIndex rest captures groups]. unfold Plus.
      apply first_group_class; auto. cbn. lia.
    + cbn. lia.
Qed.

Lemma filename_chr_not_space c : filename_chr c = true -> is_space c = false.
Proof.
  destruct c as [[] [] [] [] [] [] [] []]; vm_compute; intros H;
    try reflexivity; discriminate H.
Qed.

(** A block written the way the prompts ask for it is matched in one piece:
    the tag, the directive, the white space, the content up to the closing
    fence. *)
Lemma first_block i lang f ws body post :
  forallb lang_chr lang = true ->
  f <> [] -> forallb filename_chr f = true ->
  forallb is_space ws = true ->
  (forall c s', body = c :: s' -> is_space c = false) -> body <> [] ->
  forallb not_backtick body = true ->
  exists y,
    first_match codeBlockRegex
      (MState i (lit "```" ++ lang ++ nl ++ lit "//" ++ lit " " ++ lit "filename:" ++ lit " " ++
                 f ++ (nl ++ ws) ++ (body ++ nl) ++ lit "```" ++ post) no_captures) y /\
    rest y = post /\
    endIndex y = i + (3 + length lang + 1 + 13 + length f + (1 + length ws)
                      + (length body + 1) + 3) /\
    captures y 2 = Some f /\ captures y 3 = Some (body ++ nl).
Proof.
  intros Hlang Hf Hfc Hws Hhead Hbody Hfree.
  destruct f as [|c0 f]; [contradiction|].
  destruct body as [|c body]; [contradiction|].
  pose proof (Hhead c body eq_refl) as Hc.
  assert (Hc0 : is_space c0 = false).
  { apply filename_chr_not_space. cbn in Hfc. apply andb_prop in Hfc. tauto. }
  eexists. split; [|split; [|split; [|split]]].
  - unfold codeBlockRegex. cbn [seqs]. unfold Lt, Star, Plus.
    eapply first_Seq; [apply first_Lit|].
    eapply first_Seq; [apply first_lang_tag; [exact Hlang | reflexivity]|].
    eapply first_Seq; [apply (first_class is_space 0 nl); [reflexivity | reflexivity | cbn; lia]|].
    eapply first_Seq.
    { apply first_Opt_take.
      - cbn [endIndex rest captures].
        eapply first_Seq; [apply first_Alt_left, first_Lit|].
        eapply first_Seq;
          [apply (first_class is_space 0 (lit " ")); [reflexivity | reflexivity | cbn; lia]|].
        eapply first_Seq; [apply first_Lit|].
        eapply first_Seq;
          [apply (first_class is_space 0 (lit " ")); [reflexivity | exact Hc0 | cbn; lia]|].
        apply (first_group_class 2 filename_chr 1 (c0 :: f)); [exact Hfc | reflexivity | cbn; lia].
      - cbn. lia. }
    eapply first_Seq.
    { apply (first_class is_space 0 (nl ++ ws)); [exact Hws | exact Hc | cbn; lia]. }
    eapply first_Seq.
    { apply (first_group_class 3 not_backtick 1 ((c :: body) ++ nl)).
      - rewrite forallb_app, Hfree. reflexivity.
      - reflexivity.
      - cbn. lia. }
    apply first_Lit.
  - reflexivity.
  - cbn [endIndex]. rewrite !length_app. cbn [length lit list_ascii_of_string nl]. lia.
  - reflexivity.
  - reflexivity.
Qed.

Lemma leading_space content :
  content = take_while is_space content ++ trimStart content /\
  forallb is_space (take_while is_space content) = true.
Proof.
  induction content as [|c s [IH1 IH2]]; cbn; [auto|].
  destruct (is_space c) eqn:E; cbn; [|auto].
  rewrite E, IH2. split; [f_equal; exact IH1 | reflexivity].
Qed.

Lemma trim_line body content :
  trimStart content = body -> body <> [] -> trim (body ++ nl) = trim content.
Proof.
  intros E Hne. unfold trim at 2. rewrite E.
  destruct body as [|c b]; [contradiction|].
  pose proof (trimStart_head content c b E) as Hc.
  unfold trim. cbn [app trimStart]. rewrite Hc.
  unfold trimEnd. change (c :: b ++ nl) with ((c :: b) ++ nl).
  rewrite rev_app_distr. reflexivity.
Qed.

Lemma trim_nonempty content : trim content <> [] -> trimStart content <> [].
Proof. unfold trim. intros H E. apply H. rewrite E. reflexivity. Qed.

Lemma block_shape lang f ws body post :
  fenced_block lang f (ws ++ body) ++ post =
  lit "```" ++ lang ++ nl ++ lit "//" ++ lit " " ++ lit "filename:" ++ lit " " ++
  f ++ (nl ++ ws) ++ (body ++ nl) ++ lit "```" ++ post.
Proof. unfold fenced_block. rewrite <- !app_assoc. reflexivity. Qed.

Lemma block_length lang f content :
  length (fenced_block lang f content)
  = 3 + length lang + 1 + 13 + length f + 1 + length content + 1 + 3.
Proof.
  unfold fenced_block. rewrite !length_app. cbn [length lit list_ascii_of_string nl]. lia.
Qed.

Lemma search_from_here r i s m : match_at r i s = Some m -> search_from r i s = Some m.
Proof. intros H. destruct s; cbn [search_from]; rewrite H; reflexivity. Qed.

(** What the search reports for a text that starts, after a prefix in which
    no fence opens, with a block written the way the prompts ask for it. *)
Lemma formatted_block_found i pre lang f content post :
  (forall k, k < length pre ->
     startsWith (lit "```") (skipn k (pre ++ fenced_block lang f content ++ post)) = false) ->
  forallb lang_chr lang = true ->
  f <> [] -> forallb filename_chr f = true ->
  forallb not_backtick content = true ->
  trim content <> [] ->
  exists m,
    search_from codeBlockRegex i (pre ++ fenced_block lang f content ++ post) = Some m /\
    m_end m = i + length pre + length (fenced_block lang f content) /\
    m_group m 2 = Some f /\
    trim (group_text m 3) = trim content.
Proof.
  intros Hpre Hlang Hf Hfc Hfree Hne.
  destruct (leading_space content) as [Hsplit Hws].
  set (ws := take_while is_space content) in *.
  set (body := trimStart content) in *.
  assert (Hbody : body <> []) by (apply trim_nonempty, Hne).
  assert (Hfree' : forallb not_backtick body = true).
  { rewrite Hsplit, forallb_app in Hfree. apply andb_prop in Hfree. tauto. }
  destruct (first_block (i + length pre) lang f ws body post Hlang Hf Hfc Hws
              (trimStart_head content) Hbody Hfree') as (y & [l Hy] & Hrest & Hend & H2 & H3).
  rewrite search_from_skip by (intros k Hk; apply no_block_here, Hpre, Hk).
  replace (fenced_block lang f content) with (fenced_block lang f (ws ++ body))
    by (rewrite <- Hsplit; reflexivity).
  rewrite block_shape.
  eexists. split.
  - apply search_from_here. unfold match_at. rewrite Hy. reflexivity.
  - cbn [m_end m_group]. repeat split.
    + rewrite Hend, !block_length, length_app. lia.
    + exact H2.
    + unfold group_text. cbn [m_group]. rewrite H3. apply trim_line; auto.
Qed.

Lemma fence_not_here c s :
  not_backtick c = true -> startsWith (lit "```") (c :: s) = false.
Proof.
  intros H. cbn [startsWith lit list_ascii_of_string].
  replace (chr_eqb "`"%char c) with false; [reflexivity|].
  unfold not_backtick, chr_eqb, backtick in *. rewrite Ascii.eqb_sym.
  destruct (Ascii.eqb c "`"%char); [discriminate | reflexivity].
Qed.

Lemma no_fence_in_prose prose rest k :
  forallb not_backtick prose = true -> k < length prose ->
  startsWith (lit "```") (skipn k (prose ++ rest)) = false.
Proof.
  revert k. induction prose as [|c prose IH]; intros k H Hk; cbn in Hk; [lia|].
  cbn in H. apply andb_prop in H. destruct H as [Hc H].
  destruct k as [|k].
  - cbn [app skipn]. apply fence_not_here, Hc.
  - cbn [app skipn]. apply IH; auto. lia.
Qed.

Lemma no_fence_in_closing closing :
  forallb not_backtick closing = true -> includes (lit "```") closing = false.
Proof.
  induction closing as [|c s IH]; intros H; [reflexivity|].
  cbn in H. apply andb_prop in H. destruct H as [Hc H].
  cbn [includes]. rewrite IH by exact H. rewrite orb_false_r.
  apply fence_not_here, Hc.
Qed.

(** The blocks that the loop finds in a response made of well-formed blocks:
    one match per block, with the name of the block as its directive and the
    content of the block as its content. *)
Lemma blocks_of_render closing bs :
  Forall well_formed_block bs -> forallb not_backtick closing = true ->
  forall fuel done,
    length (render_blocks bs closing) < fuel ->
    exists ms,
      code_blocks_from fuel (done ++ render_blocks bs closing) (length done) = ms /\
      Forall2 (fun m b => m_group m 2 = Some (pb_name b) /\
                          trim (group_text m 3) = trim (pb_content b)) ms bs.
Proof.
  intros Hbs Hclosing. induction Hbs as [|b bs Hb Hbs IH]; intros fuel done Hfuel.
  - exists []. split; [|constructor].
    destruct fuel as [|fuel]; [reflexivity|]. cbn [code_blocks_from render_blocks].
    unfold regex_exec.
    replace (length (done ++ closing) <? length done) with false
      by (symmetry; apply Nat.ltb_ge; rewrite length_app; lia).
    rewrite skipn_exact, no_block_in; auto using no_fence_in_closing.
  - destruct Hb as (Hprose & Hlang & Hname & Hnamec & Hfree & Hne).
    destruct fuel as [|fuel]; [lia|]. cbn [render_blocks] in *.
    set (rest := render_blocks bs closing) in *.
    destruct (formatted_block_found (length done) (pb_prose b) (pb_lang b) (pb_name b)
                (pb_content b) rest) as (m & Hm & Hend & H2 & H3); auto.
    { intros k Hk. apply no_fence_in_prose; auto. }
    destruct (IH fuel (done ++ pb_prose b ++ fenced_block (pb_lang b) (pb_name b) (pb_content b)))
      as (ms & Hms & Hall).
    { rewrite !length_app, block_length in Hfuel. lia. }
    exists (m :: ms). split; [|constructor; auto].
    cbn [code_blocks_from]. unfold regex_exec at 1.
    replace (length (done ++ pb_prose b ++ fenced_block (pb_lang b) (pb_name b) (pb_content b)
                       ++ rest) <? length done) with false
      by (symmetry; apply Nat.ltb_ge; rewrite length_app; lia).
    rewrite skipn_exact, Hm. f_equal.
    rewrite <- Hms. rewrite Hend, <- !app_assoc, !length_app.
    f_equal. lia.
Qed.

Lemma fold_store_requested ms bs :
  Forall2 (fun m b => m_group m 2 = Some (pb_name b) /\
                      trim (group_text m 3) = trim (pb_content b)) ms bs ->
  forall o,
    fold_left store_block ms o
    = fold_left (fun o b => obj_set o (pb_name b) (trim (pb_content b))) bs o.
Proof.
  induction 1 as [|m b ms bs [H2 H3] _ IH]; intros o; cbn [fold_left]; [reflexivity|].
  rewrite IH. f_equal. unfold store_block, block_filename. rewrite H2, H3. reflexivity.
Qed.

Lemma formatted_response_files (bs : list prompted_block) (closing : str) :
  Forall well_formed_block bs -> forallb not_backtick closing = true ->
  files (extractCodeFromResponse (render_blocks bs closing)) = requested_files bs.
Proof.
  intros Hbs Hclosing. rewrite files_of_blocks. unfold code_blocks, requested_files.
  destruct (blocks_of_render closing bs Hbs Hclosing
              (S (length (render_blocks bs closing))) []) as (ms & Hms & Hall); [lia|].
  cbn [app length] in Hms. rewrite Hms. apply fold_store_requested, Hall.
Qed.

Lemma own_get_obj_set o k v name :
  name <> proto_key ->
  own_get (obj_set o k v) name = if str_eqb k name then Some v else own_get o name.
Proof.
  intros Hname. destruct (str_eqb k name) eqn:E.
  - apply str_eqb_eq in E. subst k. unfold obj_set.
    apply str_eqb_neq in Hname. rewrite Hname. apply own_get_set_same.
  - apply own_get_obj_set_other. apply str_eqb_neq in E. congruence.
Qed.

Lemma own_get_requested bs name : forall o found,
  name <> proto_key -> own_get o name = found ->
  own_get (fold_left (fun o b => obj_set o (pb_name b) (trim (pb_content b))) bs o) name
  = fold_left (fun found b => if str_eqb (pb_name b) name then Some (trim (pb_content b))
                              else found) bs found.
Proof.
  induction bs as [|b bs IH]; intros o found Hname Ho; cbn [fold_left]; [exact Ho|].
  apply IH; auto. rewrite own_get_obj_set by exact Hname. rewrite Ho. reflexivity.
Qed.

Lemma no_proto_requested bs : forall o,
  ~ In proto_key (obj_keys o) ->
  ~ In proto_key
      (obj_keys (fold_left (fun o b => obj_set o (pb_name b) (trim (pb_content b))) bs o)).
Proof.
  induction bs as [|b bs IH]; intros o Ho; cbn [fold_left]; [exact Ho|].
  apply IH. unfold obj_set. destruct (str_eqb (pb_name b) proto_key) eqn:E; [exact Ho|].
  apply str_eqb_neq in E. intros Hin. apply own_get_none_iff in Ho.
  apply (proj1 (own_get_none_iff _ _)) in Hin; [exact Hin|].
  rewrite own_get_set_other; auto.
Qed.

(** X3.  A response made of blocks written the way the prompts ask for them (a
    fence with an optional language tag, the [// filename:] directive on the
    next line, a content without backtick that is not blank, the closing
    fence), separated by prose without backtick, is read back in full: under
    each name the mapping holds the trimmed content of the last block that
    carries it, it holds nothing under a name that no block carries, and
    nothing is stored under [__proto__]. *)
Theorem formatted_response_round_trip (bs : list prompted_block) (closing : str) :
  Forall well_formed_block bs -> forallb not_backtick closing = true ->
  (forall name, name <> proto_key ->
     own_get (files (extractCodeFromResponse (render_blocks bs closing))) name
     = last_content bs name) /\
  ~ In proto_key (obj_keys (files (extractCodeFromResponse (render_blocks bs closing)))).
Proof.
  intros Hbs Hclosing. rewrite formatted_response_files by assumption.
  unfold requested_files, last_content. split.
  - intros name Hname. apply own_get_requested; auto.
  - apply no_proto_requested. intros [].
Qed.

Lemma formatted_response_round_trip_witness :
  own_get (files (extractCodeFromResponse (render_blocks sample_blocks (nl ++ lit "Enjoy!"))))
          (lit "src/App.jsx") = Some (lit "export default () => 'hi';") /\
  own_get (files (extractCodeFromResponse (render_blocks sample_blocks (nl ++ lit "Enjoy!"))))
          (lit "src/App.css") = Some (lit "body { margin: 0; }") /\
  own_get (files (extractCodeFromResponse (render_blocks sample_blocks (nl ++ lit "Enjoy!"))))
          (lit "src/main.jsx") = None.
Proof.
  destruct (formatted_response_round_trip sample_blocks (nl ++ lit "Enjoy!")) as [H _].
  - repeat constructor; try discriminate.
  - reflexivity.
  - rewrite !H by discriminate. vm_compute. repeat split; reflexivity.
Defined.

(** ** Extensions *)


Lemma drop_while_app f (w s : str) :
  forallb f w = true -> drop_while f (w ++ s) = drop_while f s.
Proof.
  induction w as [|c w IH]; cbn; auto. intros H. apply andb_prop in H.
  destruct H as [Hc H]. rewrite Hc. auto.
Qed.

Lemma take_while_app f (w s : str) :
  forallb f w = true -> take_while f (w ++ s) = w ++ take_while f s.
Proof.
  induction w as [|c w IH]; cbn; auto. intros H. apply andb_prop in H.
  destruct H as [Hc H]. rewrite Hc, IH; auto.
Qed.

Lemma take_while_all f (w : str) : forallb f w = true -> take_while f w = w.
Proof.
  intros H. rewrite <- (app_nil_r w) at 1. rewrite take_while_app by exact H.
  apply app_nil_r.
Qed.

(** The last portion of a path that ends with a name: the name itself,
    whether it stands alone or after a directory. *)
Lemma basename_of_name (name : str) :
  name <> [] -> forallb not_slash name = true ->
  path_basename name = name /\
  forall dir, path_basename (dir ++ slash :: name) = name.
Proof.
  intros Hne Hname.
  assert (Hrev : forallb not_slash (rev name) = true) by (rewrite forallb_rev; exact Hname).
  assert (Hdrop : forall s, drop_while is_slash (rev name ++ s) = rev name ++ s).
  { intros s. destruct (rev name) as [|c r] eqn:E.
    - apply (f_equal (@rev ascii)) in E. rewrite rev_involutive in E. contradiction.
    - cbn in Hrev |- *. apply andb_prop in Hrev. destruct Hrev as [Hc _].
      unfold not_slash in Hc. destruct (is_slash c); [discriminate | reflexivity]. }
  split.
  - unfold path_basename. rewrite <- (app_nil_r (rev name)), Hdrop, app_nil_r.
    rewrite take_while_all by exact Hrev. apply rev_involutive.
  - intros dir. unfold path_basename.
    rewrite rev_app_distr. cbn [rev]. rewrite <- app_assoc. rewrite Hdrop.
    rewrite take_while_app by exact Hrev. cbn [app take_while].
    change (not_slash slash) with false. cbn. rewrite app_nil_r. apply rev_involutive.
Qed.

(** A name that holds no dot after its first code unit has no extension. *)
Lemma extname_without_dot (p : str) (c : ascii) (name : str) :
  path_basename p = c :: name ->
  forallb (fun x => negb (is_dot x)) name = true ->
  path_extname p = [].
Proof.
  intros Hb Hname. unfold path_extname. rewrite Hb. cbn [rev].
  rewrite drop_while_app by (rewrite forallb_rev; exact Hname).
  cbn [drop_while]. destruct (negb (is_dot c)); reflexivity.
Qed.

(** X5.  A file whose name holds no dot after its first code unit is not taken
    for a text file: a name without extension, and also a name that is an
    entry of the list, such as [.gitignore] or [.env]. *)
Theorem file_without_extension_is_not_text (c : ascii) (name : str) :
  not_slash c = true ->
  forallb (fun x => negb (is_dot x) && not_slash x) name = true ->
  isTextFile (c :: name) = false /\
  forall dir, isTextFile (dir ++ slash :: c :: name) = false.
Proof.
  intros Hc Hname.
  assert (Hdot : forallb (fun x => negb (is_dot x)) name = true).
  { eapply forallb_impl; [|exact Hname]. intros x Hx. apply andb_prop in Hx. tauto. }
  assert (Hslash : forallb not_slash (c :: name) = true).
  { cbn. rewrite Hc. eapply forallb_impl; [|exact Hname].
    intros x Hx. apply andb_prop in Hx. tauto. }
  destruct (basename_of_name (c :: name)) as [Hb1 Hb2]; [discriminate | exact Hslash |].
  split; [|intros dir]; unfold isTextFile;
    erewrite extname_without_dot by (first [exact Hb1 | apply Hb2 | exact Hdot]);
    reflexivity.
Qed.

Lemma file_without_extension_is_not_text_witness :
  isTextFile (lit ".gitignore") = false /\
  isTextFile (lit "config/.env") = false /\
  isTextFile (lit "src/Makefile") = false.
Proof.
  pose proof (file_without_extension_is_not_text "."%char (lit "gitignore")
                eq_refl eq_refl) as [H1 _].
  pose proof (file_without_extension_is_not_text "."%char (lit "env")
                eq_refl eq_refl) as [_ H2].
  pose proof (file_without_extension_is_not_text "M"%char (lit "akefile")
                eq_refl eq_refl) as [_ H3].
  split; [exact H1 | split; [exact (H2 (lit "config")) | exact (H3 (lit "src"))]].
Defined.

Lemma lower_chr_keeps_dot_and_slash c :
  is_dot (lower_chr c) = is_dot c /\ not_slash (lower_chr c) = not_slash c.
Proof.
  destruct c as [[] [] [] [] [] [] [] []]; vm_compute; split; reflexivity.
Qed.

Lemma ext_shape_lower e : ext_shape (toLowerCase e) = ext_shape e.
Proof.
  destruct e as [|c e]; [reflexivity|]. cbn [toLowerCase map ext_shape].
  rewrite (proj1 (lower_chr_keeps_dot_and_slash c)). f_equal; [f_equal|].
  - destruct e; reflexivity.
  - induction e as [|x e IH]; [reflexivity|]. cbn [map forallb].
    destruct (lower_chr_keeps_dot_and_slash x) as [-> ->]. rewrite IH. reflexivity.
Qed.

Lemma textExtensions_shape e : In e textExtensions -> ext_shape e = true.
Proof.
  assert (H : forallb ext_shape textExtensions = true) by (vm_compute; reflexivity).
  rewrite forallb_forall in H. apply H.
Qed.

(** The extension of a path whose last portion is a name followed by an
    extension. *)
Lemma extname_of_name (p name ext : str) :
  path_basename p = name ++ ext -> name <> [] -> ext_shape ext = true ->
  path_extname p = ext.
Proof.
  intros Hb Hname Hext. destruct ext as [|c e]; [discriminate|].
  cbn [ext_shape] in Hext. apply andb_prop in Hext. destruct Hext as [Hext He].
  apply andb_prop in Hext. destruct Hext as [Hc Hne].
  unfold is_dot, chr_eqb in Hc. apply Ascii.eqb_eq in Hc. subst c.
  assert (Hdot : forallb (fun x => negb (is_dot x)) (rev e) = true).
  { rewrite forallb_rev. eapply forallb_impl; [|exact He].
    intros x Hx. apply andb_prop in Hx. tauto. }
  unfold path_extname. rewrite Hb, rev_app_distr. cbn [rev]. rewrite <- app_assoc.
  rewrite drop_while_app by exact Hdot. cbn [app drop_while].
  change (negb (is_dot "."%char)) with false. cbn iota.
  destruct (rev name) as [|x r] eqn:Er.
  { apply (f_equal (@rev ascii)) in Er. rewrite rev_involutive in Er. contradiction. }
  replace (str_eqb (name ++ "."%char :: e) (lit "..")) with false.
  - rewrite take_while_app by exact Hdot. cbn [take_while].
    change (negb (is_dot "."%char)) with false. cbn iota.
    rewrite app_nil_r, rev_involutive. reflexivity.
  - symmetry. apply str_eqb_neq. intros E. apply (f_equal (@length ascii)) in E.
    rewrite length_app in E. cbn in E.
    destruct name; [contradiction|]. destruct e; [discriminate|]. cbn in E. lia.
Qed.

(** X6.  A file whose name ends with one of the listed extensions, in any case,
    is taken for a text file, alone or in a directory. *)
Theorem file_with_listed_extension_is_text (name ext : str) :
  name <> [] -> forallb not_slash name = true ->
  In (toLowerCase ext) textExtensions ->
  isTextFile (name ++ ext) = true /\
  forall dir, isTextFile (dir ++ slash :: name ++ ext) = true.
Proof.
  intros Hne Hname Hin.
  assert (Hshape : ext_shape ext = true).
  { rewrite <- ext_shape_lower. apply textExtensions_shape, Hin. }
  assert (Hslash : forallb not_slash (name ++ ext) = true).
  { rewrite forallb_app, Hname. destruct ext as [|c e]; [discriminate|].
    cbn [ext_shape] in Hshape. apply andb_prop in Hshape. destruct Hshape as [Hc He].
    apply andb_prop in Hc. destruct Hc as [Hc _].
    unfold is_dot, chr_eqb in Hc. apply Ascii.eqb_eq in Hc. subst c.
    cbn. eapply forallb_impl; [|exact He]. intros x Hx. apply andb_prop in Hx. tauto. }
  destruct (basename_of_name (name ++ ext)) as [Hb1 Hb2]; [|exact Hslash|].
  { destruct name; [contradiction | discriminate]. }
  assert (Hlisted : existsb (str_eqb (toLowerCase ext)) textExtensions = true).
  { apply existsb_exists. exists (toLowerCase ext). split; [exact Hin | apply str_eqb_refl]. }
  split; [|intros dir]; unfold isTextFile.
  - rewrite (extname_of_name _ name ext Hb1 Hne Hshape). exact Hlisted.
  - rewrite (extname_of_name _ name ext (Hb2 dir) Hne Hshape). exact Hlisted.
Qed.

Lemma file_with_listed_extension_is_text_witness :
  isTextFile (lit "App.jsx") = true /\ isTextFile (lit "src/INDEX.HTML") = true.
Proof.
  assert (H1 : In (toLowerCase (lit ".jsx")) textExtensions) by (vm_compute; tauto).
  assert (H2 : In (toLowerCase (lit ".HTML")) textExtensions) by (vm_compute; tauto).
  assert (N1 : lit "App" <> []) by discriminate.
  assert (N2 : lit "INDEX" <> []) by discriminate.
  destruct (file_with_listed_extension_is_text (lit "App") (lit ".jsx") N1 eq_refl H1)
    as [T1 _].
  destruct (file_with_listed_extension_is_text (lit "INDEX") (lit ".HTML") N2 eq_refl H2)
    as [_ T2].
  split; [exact T1 | exact (T2 (lit "src"))].
Defined.

(** ** The listing of the project files *)

Lemma relative_join segs : forall rel,
  rel <> [] -> fold_left relative_name segs rel = join_with [slash] (rel :: segs).
Proof.
  induction segs as [|s segs IH]; intros rel Hrel; [reflexivity|].
  cbn [fold_left]. rewrite IH.
  - unfold relative_name. destruct rel as [|r rel]; [contradiction|].
    cbn [join_with]. destruct segs; rewrite <- ?app_assoc; reflexivity.
  - unfold relative_name. destruct rel; [contradiction | discriminate].
Qed.

Lemma relative_join_root segs :
  Forall (fun s => s <> []) segs ->
  fold_left relative_name segs [] = join_with [slash] segs.
Proof.
  intros H. destruct H as [|s segs Hs _]; [reflexivity|].
  cbn [fold_left relative_name]. apply relative_join, Hs.
Qed.

Lemma lookup_entry_in s es c : lookup_entry s es = Some c -> In (s, c) es.
Proof.
  induction es as [|[n c'] es IH]; cbn; [discriminate|].
  destruct (str_eqb n s) eqn:E.
  - apply str_eqb_eq in E. subst n. intros [= ->]. left. reflexivity.
  - intros H. right. apply IH, H.
Qed.

Lemma list_files_complete segs : forall n rel c,
  fs_lookup n segs = Some (File c) -> segs <> [] ->
  In (fold_left relative_name segs rel) (list_files rel n).
Proof.
  induction segs as [|s segs IH]; intros n rel c Hf Hne; [contradiction|].
  destruct n as [|es]; [discriminate|]. cbn [fs_lookup] in Hf.
  destruct (lookup_entry s es) as [ch|] eqn:Es; [|discriminate].
  apply lookup_entry_in in Es. cbn [fold_left].
  induction es as [|[name c'] es IHes]; [contradiction|].
  rewrite list_files_cons. apply in_or_app.
  destruct Es as [[= -> ->]|Es]; [left | right; apply IHes, Es].
  destruct ch as [c0|es'].
  - destruct segs; [left; reflexivity | discriminate].
  - apply (IH _ _ c Hf). intros ->. discriminate.
Qed.

(** X7.  Every regular file below the directory is listed, under its path
    relative to the directory. *)
Theorem every_file_is_listed (n : node) (segs : list str) (c : str) :
  fs_lookup n segs = Some (File c) -> segs <> [] -> Forall (fun s => s <> []) segs ->
  In (join_with [slash] segs) (list_files [] n).
Proof.
  intros Hf Hne Hsegs. rewrite <- relative_join_root by exact Hsegs.
  eapply list_files_complete; eauto.
Qed.

Lemma every_file_is_listed_witness :
  In (lit "src/assets/logo.svg") (list_files [] sample_tree).
Proof.
  apply (every_file_is_listed sample_tree [lit "src"; lit "assets"; lit "logo.svg"]
           (lit "<svg/>")).
  - reflexivity.
  - discriminate.
  - repeat constructor; discriminate.
Defined.

Lemma node_induction (P : node -> Prop) :
  (forall c, P (File c)) ->
  (forall es, Forall (fun e => P (snd e)) es -> P (Dir es)) ->
  forall n, P n.
Proof.
  intros HF HD. fix IH 1. intros [c|es]; [apply HF|].
  apply HD. induction es as [|[name c] es IHes]; constructor; [apply IH | exact IHes].
Qed.

Lemma proper_names_cons name c es :
  proper_names (Dir ((name, c) :: es)) ->
  ~ In name (map fst es) /\ name <> [] /\ proper_names c /\ proper_names (Dir es).
Proof.
  cbn [proper_names map fst]. intros [Hnd (Hname & Hc & Hall)].
  inversion Hnd; subst. repeat split; auto.
Qed.

Lemma lookup_entry_name s es c : lookup_entry s es = Some c -> In s (map fst es).
Proof. intros H. apply lookup_entry_in in H. change s with (fst (s, c)). apply in_map, H. Qed.

Lemma list_files_sound n : forall rel p,
  proper_names n -> In p (list_files rel n) ->
  exists segs c,
    segs <> [] /\ Forall (fun s => s <> []) segs /\
    p = fold_left relative_name segs rel /\ fs_lookup n segs = Some (File c).
Proof.
  induction n as [c|es IH] using node_induction; intros rel p Hn Hp; [contradiction|].
  induction es as [|[name c] es IHes]; [contradiction|].
  apply proper_names_cons in Hn. destruct Hn as (Hnew & Hname & Hc & Hes).
  inversion IH as [|? ? IHc IHrest]; subst. cbn [snd] in IHc.
  rewrite list_files_cons in Hp. apply in_app_or in Hp. destruct Hp as [Hp|Hp].
  - destruct c as [c0|es'].
    + destruct Hp as [<-|[]]. exists [name], c0. repeat split; auto; try discriminate.
      cbn. rewrite str_eqb_refl. reflexivity.
    + destruct (IHc _ _ Hc Hp) as (segs & c0 & Hne & Hall & -> & Hf).
      exists (name :: segs), c0. repeat split; auto; try discriminate.
      cbn. rewrite str_eqb_refl. exact Hf.
  - destruct (IHes IHrest Hes Hp) as (segs & c0 & Hne & Hall & -> & Hf).
    exists segs, c0. repeat split; auto.
    destruct segs as [|s segs]; [contradiction|]. cbn [fs_lookup lookup_entry] in Hf |- *.
    destruct (str_eqb name s) eqn:E; [|exact Hf].
    apply str_eqb_eq in E. subst s. exfalso. apply Hnew.
    destruct (lookup_entry name es) eqn:El; [|discriminate].
    eapply lookup_entry_name, El.
Qed.

(** X8.  In a tree whose directories hold distinct names, every listed path is
    the path of a regular file below the directory. *)
Theorem every_listed_path_is_a_file (n : node) (p : str) :
  proper_names n -> In p (list_files [] n) ->
  exists segs c,
    segs <> [] /\ p = join_with [slash] segs /\ fs_lookup n segs = Some (File c).
Proof.
  intros Hn Hp. destruct (list_files_sound n [] p Hn Hp) as (segs & c & Hne & Hall & -> & Hf).
  exists segs, c. repeat split; auto. apply relative_join_root, Hall.
Qed.

Lemma every_listed_path_is_a_file_witness :
  list_files [] sample_tree
  = [lit "package.json"; lit "src/App.jsx"; lit "src/assets/logo.svg"; lit ".gitignore"] /\
  exists segs c,
    lit "src/App.jsx" = join_with [slash] segs /\ fs_lookup sample_tree segs = Some (File c).
Proof.
  split; [vm_compute; reflexivity|].
  destruct (every_listed_path_is_a_file sample_tree (lit "src/App.jsx"))
    as (segs & c & _ & E & Hf).
  - cbn. repeat split; repeat constructor; cbn; try discriminate; intuition discriminate.
  - vm_compute. tauto.
  - exists segs, c. split; assumption.
Defined.

(** ** The contents kept with a job *)

Lemma own_get_in o k v : own_get o k = Some v -> In (k, v) o.
Proof.
  induction o as [|[k0 v0] o IH]; cbn; [discriminate|].
  destruct (str_eqb k0 k) eqn:E.
  - apply str_eqb_eq in E. subst k0. intros [= ->]. left. reflexivity.
  - intros H. right. apply IH, H.
Qed.

Lemma read_small_text_files_sound fs outputDir name content : forall l acc,
  (forall k v, In (k, v) acc ->
     isTextFile k = true /\
     fs_lookup fs (path_segments (path_join [outputDir; k])) = Some (File v) /\
     (utf8_size v < ONE_MEGABYTE)%N) ->
  In (name, content)
     (fold_left
        (fun fileContents file =>
           match fs_lookup fs (path_segments (path_join [outputDir; file])) with
           | Some (File content) =>
               if (utf8_size content <? ONE_MEGABYTE)%N && isTextFile file
               then obj_set fileContents file content
               else fileContents
           | _ => fileContents
           end) l acc) ->
  (In name l \/ In name (obj_keys acc)) /\
  isTextFile name = true /\
  fs_lookup fs (path_segments (path_join [outputDir; name])) = Some (File content) /\
  (utf8_size content < ONE_MEGABYTE)%N.
Proof.
  induction l as [|file l IH]; intros acc Hacc Hin; cbn [fold_left] in Hin.
  - split; [right; change name with (fst (name, content)); apply in_map, Hin|].
    apply Hacc, Hin.
  - apply IH in Hin.
    + destruct Hin as [[Hl|Hk] Hrest]; split; auto; [left; right; exact Hl|].
      destruct (fs_lookup fs (path_segments (path_join [outputDir; file])))
        as [[c|es]|]; auto.
      destruct ((utf8_size c <? ONE_MEGABYTE)%N && isTextFile file); auto.
      apply in_map_iff in Hk. destruct Hk as ([k v] & <- & Hk).
      apply in_obj_set in Hk. destruct Hk as [[-> _]|Hk].
      * left; left; reflexivity.
      * right. change k with (fst (k, v)). apply in_map, Hk.
    + intros k v Hk.
      destruct (fs_lookup fs (path_segments (path_join [outputDir; file])))
        as [[c|es]|] eqn:Ef; auto.
      destruct ((utf8_size c <? ONE_MEGABYTE)%N && isTextFile file) eqn:Et; auto.
      apply in_obj_set in Hk. destruct Hk as [[-> ->]|Hk]; auto.
      apply andb_prop in Et. destruct Et as [Es Et].
      apply N.ltb_lt in Es. auto.
Qed.

Lemma read_small_text_files_kept fs outputDir name content : forall l acc,
  name <> proto_key ->
  fs_lookup fs (path_segments (path_join [outputDir; name])) = Some (File content) ->
  own_get acc name = Some content ->
  own_get
     (fold_left
        (fun fileContents file =>
           match fs_lookup fs (path_segments (path_join [outputDir; file])) with
           | Some (File content) =>
               if (utf8_size content <? ONE_MEGABYTE)%N && isTextFile file
               then obj_set fileContents file content
               else fileContents
           | _ => fileContents
           end) l acc) name = Some content.
Proof.
  intros l acc Hname Hf. revert acc.
  induction l as [|file l IH]; intros acc Hacc; cbn [fold_left]; [exact Hacc|].
  apply IH.
  destruct (fs_lookup fs (path_segments (path_join [outputDir; file])))
    as [[c|es]|] eqn:Ef; auto.
  destruct ((utf8_size c <? ONE_MEGABYTE)%N && isTextFile file); auto.
  rewrite own_get_obj_set by exact Hname.
  destruct (str_eqb file name) eqn:E; auto.
  apply str_eqb_eq in E. subst file. congruence.
Qed.

Lemma read_small_text_files_complete fs outputDir name content : forall l acc,
  name <> proto_key -> In name l -> isTextFile name = true ->
  fs_lookup fs (path_segments (path_join [outputDir; name])) = Some (File content) ->
  (utf8_size content < ONE_MEGABYTE)%N ->
  own_get
     (fold_left
        (fun fileContents file =>
           match fs_lookup fs (path_segments (path_join [outputDir; file])) with
           | Some (File content) =>
               if (utf8_size content <? ONE_MEGABYTE)%N && isTextFile file
               then obj_set fileContents file content
               else fileContents
           | _ => fileContents
           end) l acc) name = Some content.
Proof.
  intros l acc Hname Hin Ht Hf Hs. revert acc.
  induction l as [|file l IH]; intros acc; [contradiction|]. cbn [fold_left].
  destruct (in_dec str_dec name l) as [Hl|Hl]; [apply IH, Hl|].
  destruct Hin as [->|Hin]; [|contradiction].
  apply read_small_text_files_kept; auto.
  rewrite Hf. apply N.ltb_lt in Hs. rewrite Hs, Ht. cbn [andb].
  rewrite own_get_obj_set by exact Hname. rewrite str_eqb_refl. reflexivity.
Qed.

(** X9.  The contents captured for a job are those of the listed files that are
    text files by their extension and smaller than one megabyte: a name other
    than [__proto__] is a key of [fileContents], with a given value, exactly
    when it is listed, passes [isTextFile], and the file found under the
    output directory holds that value and is small enough. *)
Theorem file_contents_are_the_small_text_files
    (fs : node) (outputDir : str) (projectFiles : list str) (name content : str) :
  name <> proto_key ->
  own_get (read_small_text_files fs outputDir projectFiles) name = Some content <->
  In name projectFiles /\ isTextFile name = true /\
  fs_lookup fs (path_segments (path_join [outputDir; name])) = Some (File content) /\
  (utf8_size content < ONE_MEGABYTE)%N.
Proof.
  intros Hname. unfold read_small_text_files. split.
  - intros H. apply own_get_in in H.
    apply read_small_text_files_sound in H; [|intros k v []].
    destruct H as [[H|[]] Hrest]. split; assumption.
  - intros (Hin & Ht & Hf & Hs). apply read_small_text_files_complete; auto.
Qed.

Lemma file_contents_are_the_small_text_files_witness :
  own_get (read_small_text_files sample_tree (lit "/") (list_files [] sample_tree))
          (lit "src/App.jsx") = Some (lit "export default () => null;") /\
  own_get (read_small_text_files sample_tree (lit "/") (list_files [] sample_tree))
          (lit "src/assets/logo.svg") = None.
Proof.
  split.
  - apply (file_contents_are_the_small_text_files sample_tree (lit "/")
             (list_files [] sample_tree) (lit "src/App.jsx")).
    + discriminate.
    + repeat split; vm_compute; tauto.
  - vm_compute. reflexivity.
Defined.

(** ** The contents written by the overlay *)

Lemma fs_write_other segs' : forall n n' c' segs c,
  fs_write n segs' c' = inl n' -> segs <> segs' ->
  fs_lookup n segs = Some (File c) -> fs_lookup n' segs = Some (File c).
Proof.
  induction segs' as [|s segs' IH]; intros n n' c' segs c H Hne Hf; cbn in H.
  - destruct n; [|discriminate]. destruct segs; [contradiction | discriminate].
  - destruct n as [|es]; [discriminate|].
    destruct segs as [|t segs]; [discriminate|]. cbn in Hf.
    destruct (lookup_entry t es) as [cht|] eqn:Et; [|discriminate].
    destruct (list_eq_dec ascii_dec t s) as [->|Hts].
    + rewrite Et in H.
      destruct (fs_write cht segs' c') as [ch'|e] eqn:Ew; [|discriminate].
      injection H as <-. cbn. rewrite lookup_set_same.
      eapply IH; eauto. congruence.
    + assert (Hkeep : forall ch, fs_lookup (Dir (set_entry s ch es)) (t :: segs)
                                 = Some (File c)).
      { intros ch. cbn. rewrite lookup_set_other, Et; auto. }
      destruct (lookup_entry s es) as [ch|].
      * destruct (fs_write ch segs' c') as [ch'|e]; [|discriminate].
        injection H as <-. apply Hkeep.
      * destruct segs'; [|discriminate]. injection H as <-. apply Hkeep.
Qed.

Lemma fs_mkdirp_other segs' : forall n n' segs c,
  fs_mkdirp n segs' = Some n' ->
  fs_lookup n segs = Some (File c) -> fs_lookup n' segs = Some (File c).
Proof.
  induction segs' as [|s segs' IH]; intros n n' segs c H Hf.
  - destruct n; cbn in H; [discriminate|]. injection H as <-. exact Hf.
  - destruct n as [|es]; cbn in H; [discriminate|].
    destruct segs as [|t segs]; [discriminate|]. cbn in Hf.
    destruct (lookup_entry t es) as [cht|] eqn:Et; [|discriminate].
    destruct (fs_mkdirp match lookup_entry s es with
                        | Some c => c
                        | None => Dir []
                        end segs') as [ch'|] eqn:Em; [|discriminate].
    injection H as <-.
    destruct (list_eq_dec ascii_dec t s) as [->|Hne].
    + rewrite Et in Em. cbn. rewrite lookup_set_same. eapply IH; eauto.
    + cbn. rewrite lookup_set_other, Et; auto.
Qed.

Lemma mkdirSync_other p w w' segs c :
  mkdirSync_recursive p w = (Ok tt, w') ->
  fs_lookup (w_fs w) segs = Some (File c) -> fs_lookup (w_fs w') segs = Some (File c).
Proof.
  unfold mkdirSync_recursive, bind, get_world, set_fs, throw. cbn.
  destruct (fs_mkdirp (w_fs w) (path_segments p)) as [fs'|] eqn:E; [|absurd_run].
  intros [= <-] H. cbn. eapply fs_mkdirp_other; eauto.
Qed.

Lemma writeFileSync_other p content w w' segs c :
  writeFileSync p content w = (Ok tt, w') -> segs <> path_segments p ->
  fs_lookup (w_fs w) segs = Some (File c) -> fs_lookup (w_fs w') segs = Some (File c).
Proof.
  unfold writeFileSync, bind, get_world, set_fs, throw.
  destruct (endsWith [slash] p); [absurd_run|].
  destruct (fs_write (w_fs w) (path_segments p) content) as [fs'|e] eqn:E; [|absurd_run].
  intros [= <-] Hne H. cbn. eapply fs_write_other; eauto.
Qed.

Lemma writeFileSync_content p content w w' :
  writeFileSync p content w = (Ok tt, w') ->
  fs_lookup (w_fs w') (path_segments p) = Some (File content).
Proof.
  unfold writeFileSync, bind, get_world, set_fs, throw.
  destruct (endsWith [slash] p); [absurd_run|].
  destruct (fs_write (w_fs w) (path_segments p) content) as [fs'|e] eqn:E; [|absurd_run].
  intros [= <-]. cbn. eapply fs_write_lookup, E.
Qed.

Lemma overlay_content_kept projectDir entries : forall w w' segs c,
  addGeneratedCodeToProject projectDir entries w = (Ok tt, w') ->
  fs_lookup (w_fs w) segs = Some (File c) ->
  (forall f' c', In (f', c') entries ->
     path_segments (path_join [projectDir; f']) <> segs) ->
  fs_lookup (w_fs w') segs = Some (File c).
Proof.
  induction entries as [|[f0 c0] entries IH]; intros w w' segs c H Hf Hother.
  - injection H as <-. exact Hf.
  - apply overlay_entry in H. destruct H as (w1 & w2 & Hm & Hw & Hrest).
    eapply IH; [exact Hrest | | intros f' c' Hin; eapply Hother; right; exact Hin].
    eapply writeFileSync_other; [exact Hw | |].
    + intros E. eapply Hother; [left; reflexivity | symmetry; exact E].
    + destruct Hm as [->|Hm]; auto. eapply mkdirSync_other; eauto.
Qed.

Lemma overlay_split projectDir before : forall rest w w',
  addGeneratedCodeToProject projectDir (before ++ rest) w = (Ok tt, w') ->
  exists wm, addGeneratedCodeToProject projectDir rest wm = (Ok tt, w').
Proof.
  induction before as [|[f0 c0] before IH]; intros rest w w' H.
  - exists w. exact H.
  - cbn [app] in H. apply overlay_entry in H. destruct H as (w1 & w2 & _ & _ & Hrest).
    eapply IH, Hrest.
Qed.

(** X10.  After a successful overlay of the generated files, written in the
    order of the entries, the file at the path of an entry holds the content
    of that entry, unless a later entry was written to the same path; and a
    file that was there before and that no entry is written to still holds
    what it held. *)
Theorem overlay_contents (projectDir : str) (entries : obj) (w w' : World) :
  addGeneratedCodeToProject projectDir entries w = (Ok tt, w') ->
  (forall before f c after,
     entries = before ++ (f, c) :: after ->
     (forall f' c', In (f', c') after ->
        path_segments (path_join [projectDir; f'])
        <> path_segments (path_join [projectDir; f])) ->
     fs_lookup (w_fs w') (path_segments (path_join [projectDir; f])) = Some (File c)) /\
  (forall segs c,
     fs_lookup (w_fs w) segs = Some (File c) ->
     (forall f' c', In (f', c') entries ->
        path_segments (path_join [projectDir; f']) <> segs) ->
     fs_lookup (w_fs w') segs = Some (File c)).
Proof.
  intros H. split.
  - intros before f c after -> Hlast.
    apply overlay_split in H. destruct H as [wm H].
    apply overlay_entry in H. destruct H as (w1 & w2 & _ & Hw & Hrest).
    eapply overlay_content_kept; [exact Hrest | | exact Hlast].
    eapply writeFileSync_content, Hw.
  - intros segs c Hf Hother. eapply overlay_content_kept; eauto.
Qed.

Lemma overlay_contents_witness :
  fs_lookup (w_fs (snd (addGeneratedCodeToProject (lit "/") sample_entries sample_world)))
            (path_segments (path_join [lit "/"; lit "src/App.jsx"]))
    = Some (File (lit "export default () => 'new';")) /\
  fs_lookup (w_fs (snd (addGeneratedCodeToProject (lit "/") sample_entries sample_world)))
            [lit "package.json"] = Some (File (lit "{}")).
Proof.
  assert (H : addGeneratedCodeToProject (lit "/") sample_entries sample_world
              = (Ok tt, snd (addGeneratedCodeToProject (lit "/") sample_entries sample_world)))
    by (vm_compute; reflexivity).
  destruct (overlay_contents _ _ _ _ H) as [H1 H2]. split.
  - apply (H1 [] (lit "src/App.jsx") (lit "export default () => 'new';")
              [(lit "README.md", lit "# App")] eq_refl).
    intros f' c' [[= <- <-]|[]]. vm_compute. discriminate.
  - apply H2; [reflexivity|].
    intros f' c' [[= <- <-]|[[= <- <-]|[]]]; vm_compute; discriminate.
Defined.

(** ** Paths below the output directory *)

Lemma split_on_not_nil s : split_on slash s <> [].
Proof.
  destruct s as [|c s]; cbn; [discriminate|].
  destruct (chr_eqb c slash); [discriminate|].
  destruct (split_on slash s); discriminate.
Qed.

Lemma split_on_app a b :
  split_on slash (a ++ slash :: b) = split_on slash a ++ split_on slash b.
Proof.
  induction a as [|c a IH]; cbn [app split_on].
  - change (chr_eqb slash slash) with true. reflexivity.
  - destruct (chr_eqb c slash); [rewrite IH; reflexivity|].
    rewrite IH. pose proof (split_on_not_nil a) as Hne.
    destruct (split_on slash a); [contradiction | reflexivity].
Qed.

Lemma split_on_plain s : forallb not_slash s = true -> split_on slash s = [s].
Proof.
  induction s as [|c s IH]; cbn; [reflexivity|]. intros H.
  apply andb_prop in H. destruct H as [Hc H].
  unfold not_slash, is_slash in Hc. destruct (chr_eqb c slash); [discriminate|].
  rewrite IH by exact H. reflexivity.
Qed.

Lemma split_join segs :
  segs <> [] -> Forall (fun s => forallb not_slash s = true) segs ->
  split_on slash (join_with [slash] segs) = segs.
Proof.
  intros Hne H. induction H as [|s segs Hs H IH]; [contradiction|].
  destruct segs as [|t segs].
  - cbn [join_with]. apply split_on_plain, Hs.
  - change (join_with [slash] (s :: t :: segs))
      with (s ++ slash :: join_with [slash] (t :: segs)).
    rewrite split_on_app, split_on_plain by exact Hs.
    rewrite IH by discriminate. reflexivity.
Qed.

Lemma split_on_parts s : Forall (fun x => forallb not_slash x = true) (split_on slash s).
Proof.
  induction s as [|c s IH]; cbn [split_on]; [repeat constructor|].
  destruct (chr_eqb c slash) eqn:E; [constructor; [reflexivity | exact IH]|].
  destruct (split_on slash s) as [|seg segs]; [repeat constructor; cbn|].
  - unfold not_slash, is_slash. rewrite E. reflexivity.
  - inversion IH; subst. constructor; auto. cbn.
    unfold not_slash, is_slash at 1. rewrite E. cbn. assumption.
Qed.

Lemma normalize_step_plain acc s :
  plain_name s -> normalize_step false acc s = s :: acc.
Proof.
  intros (H1 & H2 & H3 & _). unfold normalize_step.
  apply str_eqb_neq in H1, H2, H3. rewrite H1, H2, H3. reflexivity.
Qed.

Lemma normalize_plain segs : forall acc,
  Forall plain_name segs -> fold_left (normalize_step false) segs acc = rev segs ++ acc.
Proof.
  induction segs as [|s segs IH]; intros acc H; [reflexivity|].
  inversion H; subst. cbn [fold_left rev]. rewrite normalize_step_plain by assumption.
  rewrite IH by assumption. rewrite <- app_assoc. reflexivity.
Qed.

(** What the normalisation keeps is made of plain names. *)
Lemma normalize_keeps_plain segs : forall acc,
  Forall (fun x => forallb not_slash x = true) segs ->
  Forall plain_name acc ->
  Forall plain_name (fold_left (normalize_step false) segs acc).
Proof.
  induction segs as [|s segs IH]; intros acc Hs Hacc; [exact Hacc|].
  inversion Hs; subst. cbn [fold_left]. apply IH; auto.
  unfold normalize_step.
  destruct (str_eqb s []) eqn:E1; [exact Hacc|].
  destruct (str_eqb s (lit ".")) eqn:E2; [exact Hacc|]. cbn [orb].
  destruct (str_eqb s (lit "..")) eqn:E3.
  - destruct acc as [|top acc]; [constructor|].
    inversion Hacc as [|? ? (_ & _ & Htop & _) Hrest]; subst.
    apply str_eqb_neq in Htop. rewrite Htop. exact Hrest.
  - constructor; auto. apply str_eqb_neq in E1, E2, E3. repeat split; auto.
Qed.

Lemma path_segments_plain p : Forall plain_name (path_segments p).
Proof.
  unfold path_segments, normalize_segments. apply Forall_rev.
  apply normalize_keeps_plain; [apply split_on_parts | constructor].
Qed.

Lemma normalize_fixed segs :
  Forall plain_name segs -> normalize_segments false segs = segs.
Proof.
  intros H. unfold normalize_segments. rewrite normalize_plain by exact H.
  rewrite app_nil_r. apply rev_involutive.
Qed.

Lemma plain_names_no_slash segs :
  Forall plain_name segs -> Forall (fun s => forallb not_slash s = true) segs.
Proof. apply Forall_impl. intros s H. apply H. Qed.

(** The segments of an absolute path are those of its normal form. *)
Lemma path_segments_normalize q :
  startsWith [slash] q = true -> path_segments (path_normalize q) = path_segments q.
Proof.
  intros Habs. destruct q as [|c q]; [discriminate|].
  unfold path_normalize. rewrite Habs. cbn [negb].
  fold (path_segments (c :: q)).
  pose proof (path_segments_plain (c :: q)) as Hplain.
  set (N := path_segments (c :: q)) in *.
  assert (Hroot : forall body, path_segments (slash :: body) = path_segments body).
  { intros body. unfold path_segments. cbn [split_on].
    change (chr_eqb slash slash) with true. cbn iota. reflexivity. }
  assert (Hbody : N <> [] -> path_segments (join_with [slash] N) = N).
  { intros Hne. unfold path_segments.
    rewrite split_join by (auto using plain_names_no_slash). apply normalize_fixed, Hplain. }
  destruct (join_with [slash] N) as [|b body] eqn:Ej.
  - destruct N as [|s N'] eqn:EN; [reflexivity|].
    exfalso. inversion Hplain as [|? ? (Hs & _) _]; subst.
    destruct N'; cbn in Ej; [contradiction|].
    destruct s; [contradiction | discriminate].
  - assert (Hne : N <> []) by (intros E; rewrite E in Ej; discriminate).
    destruct (endsWith [slash] (c :: q)); cbv zeta; rewrite Hroot; [|apply Hbody, Hne].
    transitivity (path_segments (b :: body)); [|apply Hbody, Hne].
    unfold path_segments.
    change ((b :: body) ++ [slash]) with ((b :: body) ++ slash :: []).
    rewrite split_on_app. cbn [split_on].
    unfold normalize_segments. rewrite fold_left_app. cbn [fold_left normalize_step].
    change (str_eqb [] []) with true. cbn [orb]. reflexivity.
Qed.

(** Below an absolute directory, a relative path made of plain names leads
    where its names say. *)
Lemma path_segments_join dir segs :
  startsWith [slash] dir = true -> segs <> [] -> Forall plain_name segs ->
  path_segments (path_join [dir; join_with [slash] segs]) = path_segments dir ++ segs.
Proof.
  intros Habs Hne Hplain.
  assert (Hrel : join_with [slash] segs <> []).
  { destruct segs as [|s segs]; [contradiction|].
    inversion Hplain as [|? ? (Hs & _) _]; subst.
    destruct segs; cbn; [exact Hs|]. destruct s; [contradiction | discriminate]. }
  unfold path_join. cbn [filter].
  destruct dir as [|d dir]; [discriminate|]. cbn [str_eqb negb].
  destruct (join_with [slash] segs) as [|r rel] eqn:Ej; [contradiction|].
  cbn [str_eqb negb join_with]. rewrite path_segments_normalize by exact Habs.
  unfold path_segments. change ((d :: dir) ++ [slash] ++ r :: rel)
    with ((d :: dir) ++ slash :: r :: rel).
  rewrite split_on_app, <- Ej, split_join by (auto using plain_names_no_slash).
  unfold normalize_segments. rewrite fold_left_app, normalize_plain by exact Hplain.
  rewrite rev_app_distr, rev_involutive. reflexivity.
Qed.

(** ** From the overlay to the listing and the contents *)

(** X11.  Steps 7 to 9 of the task compose: a generated file whose name is a
    relative path made of plain names, written below an absolute output
    directory and not overwritten by a later entry, is in the listing of the
    output directory under that very name, and its content is captured when
    the name passes [isTextFile] and the content is smaller than one
    megabyte. *)
Theorem generated_file_is_listed_and_read
    (outputDir : str) (before after : obj) (segs : list str) (content : str)
    (w w' : World) :
  startsWith [slash] outputDir = true ->
  segs <> [] -> Forall plain_name segs ->
  addGeneratedCodeToProject outputDir
    (before ++ (join_with [slash] segs, content) :: after) w = (Ok tt, w') ->
  (forall f' c', In (f', c') after ->
     path_segments (path_join [outputDir; f']) <> path_segments outputDir ++ segs) ->
  exists projectFiles,
    readdir_files outputDir w' = (Ok projectFiles, w') /\
    In (join_with [slash] segs) projectFiles /\
    (isTextFile (join_with [slash] segs) = true ->
     (utf8_size content < ONE_MEGABYTE)%N ->
     own_get (read_small_text_files (w_fs w') outputDir projectFiles)
             (join_with [slash] segs) = Some content).
Proof.
  intros Habs Hne Hplain Hrun Hlast.
  pose proof (path_segments_join outputDir segs Habs Hne Hplain) as Hpath.
  assert (Hfile : fs_lookup (w_fs w') (path_segments outputDir ++ segs) = Some (File content)).
  { apply overlay_split in Hrun. destruct Hrun as [wm Hrun].
    apply overlay_entry in Hrun. destruct Hrun as (w1 & w2 & _ & Hw & Hrest).
    eapply overlay_content_kept; [exact Hrest | | ].
    - rewrite <- Hpath. eapply writeFileSync_content, Hw.
    - exact Hlast. }
  pose proof Hfile as Hsub. rewrite fs_lookup_app in Hsub.
  destruct (fs_lookup (w_fs w') (path_segments outputDir)) as [[c0|es]|] eqn:Hdir;
    [destruct segs; [contradiction | discriminate] | | discriminate].
  exists (list_files [] (Dir es)).
  assert (Hin : In (join_with [slash] segs) (list_files [] (Dir es))).
  { rewrite <- relative_join_root.
    - eapply list_files_complete; eauto.
    - eapply Forall_impl; [|exact Hplain]. intros s Hs. apply Hs. }
  split; [|split; [exact Hin|]].
  - unfold readdir_files, bind, get_world. cbn [fst snd]. rewrite Hdir. reflexivity.
  - intros Htext Hsmall. unfold read_small_text_files.
    apply read_small_text_files_complete; auto.
    + intros E. rewrite E in Htext. vm_compute in Htext. discriminate.
    + rewrite Hpath. exact Hfile.
Qed.

Lemma generated_file_is_listed_and_read_witness :
  exists projectFiles,
    readdir_files (lit "/")
      (snd (addGeneratedCodeToProject (lit "/") sample_entries sample_world))
    = (Ok projectFiles,
       snd (addGeneratedCodeToProject (lit "/") sample_entries sample_world)) /\
    In (lit "src/App.jsx") projectFiles.
Proof.
  assert (H : addGeneratedCodeToProject (lit "/")
                ([] ++ (join_with [slash] [lit "src"; lit "App.jsx"],
                        lit "export default () => 'new';")
                    :: [(lit "README.md", lit "# App")]) sample_world
              = (Ok tt, snd (addGeneratedCodeToProject (lit "/") sample_entries sample_world)))
    by (vm_compute; reflexivity).
  destruct (generated_file_is_listed_and_read (lit "/") [] [(lit "README.md", lit "# App")]
              [lit "src"; lit "App.jsx"] (lit "export default () => 'new';")
              sample_world _ eq_refl ltac:(discriminate)
              ltac:(repeat constructor; discriminate) H)
    as (projectFiles & Hread & Hin & _).
  - intros f' c' [[= <- <-]|[]]. vm_compute. discriminate.
  - exists projectFiles. split; [exact Hread | exact Hin].
Defined.

(** ** Polling *)

Lemma await_run A env (request : nat -> outcome A) w :
  await env request w = (request (w_calls w), snd (suspend env w)).
Proof.
  unfold await, bind, suspend. cbn [fst snd]. destruct (request (w_calls w)); reflexivity.
Qed.

(** One turn of the polling loop. *)
Lemma poll_loop_step env threadId runId n w :
  poll_loop env threadId runId (S n) w =
  match threads_runs_retrieve env (w_calls w) threadId runId with
  | Ok s =>
      if is_terminal_run_status s then (Ok s, snd (suspend env w))
      else if str_eqb s (lit "requires_action") then (Ok (lit "failed"), snd (suspend env w))
      else poll_loop env threadId runId n (snd (sleep POLLING_INTERVAL_MS (snd (suspend env w))))
  | Throw e => (Throw e, snd (suspend env w))
  end.
Proof.
  cbn [poll_loop]. unfold bind at 1. rewrite await_run.
  destruct (threads_runs_retrieve env (w_calls w) threadId runId) as [s|e]; [|reflexivity].
  destruct (is_terminal_run_status s); [reflexivity|].
  destruct (str_eqb s (lit "requires_action")); reflexivity.
Qed.

Lemma poll_loop_bounded env threadId runId n : forall w,
  w_calls (snd (poll_loop env threadId runId n w)) <= w_calls w + n /\
  forall s, fst (poll_loop env threadId runId n w) = Ok s ->
            is_terminal_run_status s = true /\
            w_calls w < w_calls (snd (poll_loop env threadId runId n w)).
Proof.
  induction n as [|n IH]; intros w.
  - cbn. split; [lia | discriminate].
  - rewrite poll_loop_step.
    destruct (threads_runs_retrieve env (w_calls w) threadId runId) as [s|e].
    + destruct (is_terminal_run_status s) eqn:Et.
      * cbn. split; [lia|]. intros s' [= <-]. split; [exact Et | lia].
      * destruct (str_eqb s (lit "requires_action")).
        -- cbn. split; [lia|]. intros s' [= <-]. split; [reflexivity | lia].
        -- destruct (IH (snd (sleep POLLING_INTERVAL_MS (snd (suspend env w))))) as [Hb Hs].
           cbn [sleep suspend fst snd w_calls] in Hb, Hs |- *.
           split; [lia|]. intros s' Hs'. destruct (Hs s' Hs'). split; [assumption | lia].
    + cbn. split; [lia | discriminate].
Qed.

(** X12.  Polling asks for the run at most [MAX_POLLING_ATTEMPTS] times, that
    is 300 times, whatever the answers; and when it returns, after at least
    one request, the status it returns is one of [completed], [failed],
    [cancelled] and [expired] (a run that requires an action is returned as
    [failed]). *)
Theorem polling_is_bounded_and_ends_terminal (env : Env) (threadId runId : str) (w : World) :
  w_calls (snd (pollForRunCompletion env threadId runId w))
    <= w_calls w + MAX_POLLING_ATTEMPTS /\
  forall s, fst (pollForRunCompletion env threadId runId w) = Ok s ->
    In s (map lit ["completed"; "failed"; "cancelled"; "expired"]%string) /\
    w_calls w < w_calls (snd (pollForRunCompletion env threadId runId w)).
Proof.
  unfold pollForRunCompletion.
  destruct (poll_loop_bounded env threadId runId MAX_POLLING_ATTEMPTS w) as [Hb Hs].
  split; [exact Hb|]. intros s H. destruct (Hs s H) as [Ht Hc]. split; [|exact Hc].
  unfold is_terminal_run_status in Ht. apply existsb_exists in Ht.
  destruct Ht as (x & Hx & E). apply str_eqb_eq in E. subst x. exact Hx.
Qed.

Lemma poll_loop_times_out env threadId runId n : forall w,
  (forall k, w_calls w <= k < w_calls w + n ->
     exists s, threads_runs_retrieve env k threadId runId = Ok s /\
               is_terminal_run_status s = false /\ s <> lit "requires_action") ->
  exists w',
    poll_loop env threadId runId n w
    = (Throw (lit "Run polling timed out after maximum attempts"), w') /\
    w_calls w' = w_calls w + n /\
    w_now w + n * POLLING_INTERVAL_MS <= w_now w'.
Proof.
  induction n as [|n IH]; intros w H.
  - exists w. cbn [poll_loop throw]. repeat split; lia.
  - rewrite poll_loop_step.
    destruct (H (w_calls w)) as (s & -> & Ht & Hr); [lia|].
    rewrite Ht. apply str_eqb_neq in Hr. rewrite Hr.
    destruct (IH (snd (sleep POLLING_INTERVAL_MS (snd (suspend env w)))))
      as (w' & Hrun & Hc & Hn).
    { cbn [sleep suspend fst snd w_calls]. intros k Hk. apply H. lia. }
    cbn [sleep suspend fst snd w_calls w_now] in Hc, Hn.
    exists w'. split; [exact Hrun|]. split; lia.
Qed.

(** X13.  When every answer is a status that is neither terminal nor
    [requires_action], polling gives up with its time-out error after exactly
    [MAX_POLLING_ATTEMPTS] requests, that is 300, having waited the polling
    interval of 2000 milliseconds after each of them. *)
Theorem polling_times_out (env : Env) (threadId runId : str) (w : World) :
  (forall k, w_calls w <= k < w_calls w + MAX_POLLING_ATTEMPTS ->
     exists s, threads_runs_retrieve env k threadId runId = Ok s /\
               is_terminal_run_status s = false /\ s <> lit "requires_action") ->
  exists w',
    pollForRunCompletion env threadId runId w
    = (Throw (lit "Run polling timed out after maximum attempts"), w') /\
    w_calls w' = w_calls w + MAX_POLLING_ATTEMPTS /\
    w_now w + MAX_POLLING_ATTEMPTS * POLLING_INTERVAL_MS <= w_now w'.
Proof. apply poll_loop_times_out. Qed.

Lemma polling_times_out_witness :
  exists w',
    pollForRunCompletion stalled_env (lit "thread_1") (lit "run_1") demo_world
    = (Throw (lit "Run polling timed out after maximum attempts"), w') /\
    w_calls w' = 300.
Proof.
  destruct (polling_times_out stalled_env (lit "thread_1") (lit "run_1") demo_world)
    as (w' & Hrun & Hc & _).
  - intros k _. exists (lit "queued"). repeat split. discriminate.
  - exists w'. split; [exact Hrun | exact Hc].
Defined.

(** ** Deployment *)





(** ** The address that is reported *)

Lemma search_from_found r : forall s i m,
  search_from r i s = Some m ->
  exists pre s' y,
    s = pre ++ s' /\ m_index m = i + length pre /\
    In y (matcher r (MState (m_index m) s' no_captures)) /\
    m_end m = endIndex y /\ m_text m = firstn (endIndex y - m_index m) s'.
Proof.
  induction s as [|c s IH]; intros i m H; cbn [search_from] in H.
  - unfold match_at in H.
    destruct (matcher r (MState i [] no_captures)) as [|y l] eqn:Hm; [discriminate|].
    injection H as <-. exists [], [], y. cbn. rewrite Nat.add_0_r, Hm.
    repeat split; auto. left; reflexivity.
  - unfold match_at in H.
    destruct (matcher r (MState i (c :: s) no_captures)) as [|y l] eqn:Hm.
    + apply IH in H. destruct H as (pre & s' & y & E & I & Hin & He & Ht).
      exists (c :: pre), s', y. cbn. repeat split; auto.
      * rewrite E. reflexivity.
      * rewrite I. lia.
    + injection H as <-. exists [], (c :: s), y. cbn. rewrite Nat.add_0_r, Hm.
      repeat split; auto. left; reflexivity.
Qed.

Lemma startsWith_prefix l : forall a b,
  startsWith l (a ++ b) = true -> length l <= length a -> startsWith l a = true.
Proof.
  induction l as [|c l IH]; intros a b H Hlen; [reflexivity|].
  destruct a as [|x a]; [cbn in Hlen; lia|]. cbn in H |- *.
  apply andb_prop in H. destruct H as [-> H]. cbn. eapply IH; eauto. cbn in Hlen. lia.
Qed.

Lemma startsWith_longer l : forall a b, startsWith l a = true -> startsWith l (a ++ b) = true.
Proof.
  induction l as [|c l IH]; intros a b H; [reflexivity|].
  destruct a as [|x a]; [discriminate|]. cbn in H |- *.
  apply andb_prop in H. destruct H as [-> H]. cbn. apply IH, H.
Qed.

(** A prefix that is followed by a code unit foreign to [l] holds [l] when
    the whole text starts with [l]. *)
Lemma startsWith_before l : forall a c b,
  startsWith l (a ++ c :: b) = true -> ~ In c l -> startsWith l a = true.
Proof.
  induction l as [|x l IH]; intros a c b H Hc; [reflexivity|].
  destruct a as [|y a]; cbn in H |- *.
  - apply andb_prop in H. destruct H as [H _]. apply Ascii.eqb_eq in H.
    exfalso. apply Hc. left. exact H.
  - apply andb_prop in H. destruct H as [-> H]. cbn.
    eapply IH; [exact H|]. intros Hin. apply Hc. right. exact Hin.
Qed.

Lemma endsWith_slash_added s : endsWith [slash] (s ++ [slash]) = true.
Proof. unfold endsWith. rewrite rev_app_distr. reflexivity. Qed.

Lemma forallb_firstn (P : ascii -> bool) n : forall s,
  forallb P s = true -> forallb P (firstn n s) = true.
Proof.
  induction n as [|n IH]; intros [|c s] H; cbn; auto.
  cbn in H. apply andb_prop in H. destruct H as [-> H]. cbn. apply IH, H.
Qed.

Lemma forallb_skipn (P : ascii -> bool) n : forall s,
  forallb P s = true -> forallb P (skipn n s) = true.
Proof.
  induction n as [|n IH]; intros [|c s] H; cbn; auto.
  cbn in H. apply andb_prop in H. destruct H as [_ H]. apply IH, H.
Qed.

Lemma trim_without_space s : forallb not_space s = true -> trim s = s.
Proof.
  intros H. apply no_space_at_ends_trim. split; intros c s' ->.
  - cbn in H. apply andb_prop in H. destruct H as [H _].
    unfold not_space in H. destruct (is_space c); [discriminate | reflexivity].
  - rewrite forallb_app in H. apply andb_prop in H. destruct H as [_ H].
    cbn in H. unfold not_space in H. destruct (is_space c); [discriminate | reflexivity].
Qed.

Lemma urlRegex_atoms : atoms_sat not_space urlRegex.
Proof.
  unfold urlRegex, seqs, Lt, Plus. cbn [atoms_sat Lit lit list_ascii_of_string].
  repeat split; intros c H; try exact H;
    unfold chr_eqb in H; apply Ascii.eqb_eq in H; subst c; reflexivity.
Qed.

(** What the address pattern matches: a text without white space that
    starts with [https://]. *)
Lemma url_match deployOutput m :
  str_match urlRegex deployOutput = Some m ->
  startsWith (lit "https://") (m_text m) = true /\ forallb not_space (m_text m) = true.
Proof.
  unfold str_match. intros H. apply search_from_found in H.
  destruct H as (pre & s' & y & _ & _ & Hin & _ & Ht).
  pose proof (matcher_ok not_space 0 _ _ _ Hin) as (wd & E & I & L & A & _).
  cbn [rest endIndex] in E, I. change (min_len urlRegex) with 8 in L.
  assert (Htext : m_text m = wd).
  { rewrite Ht, I, E. replace (m_index m + length wd - m_index m) with (length wd) by lia.
    apply firstn_exact. }
  rewrite Htext. split; [|apply A, urlRegex_atoms].
  unfold urlRegex, seqs, Lt in Hin. rewrite matcher_Group, matcher_Seq in Hin.
  apply in_map_iff in Hin. destruct Hin as (z & _ & Hz).
  apply in_flat_map in Hz. destruct Hz as (z0 & Hz0 & _).
  rewrite matcher_Lit in Hz0. cbn [rest] in Hz0.
  destruct (startsWith (lit "https://") s') eqn:Es; [|contradiction].
  rewrite E in Es. eapply startsWith_prefix; [exact Es | exact L].
Qed.

(** The replacement of the preview suffix keeps the scheme and adds no white
    space. *)
Lemma suffix_replaced url :
  startsWith (lit "https://") url = true -> forallb not_space url = true ->
  startsWith (lit "https://") (str_replace previewSuffixRegex (lit ".vercel.app") url) = true /\
  forallb not_space (str_replace previewSuffixRegex (lit ".vercel.app") url) = true.
Proof.
  intros Hs Hn. unfold str_replace.
  destruct (str_match previewSuffixRegex url) as [m|] eqn:Em; [|auto].
  unfold str_match in Em. apply search_from_found in Em.
  destruct Em as (pre & s' & y & E & I & Hin & _ & _). cbn in I.
  unfold previewSuffixRegex in Hin. cbn [seqs] in Hin. unfold Lt in Hin.
  rewrite matcher_Seq in Hin. apply in_flat_map in Hin. destruct Hin as (z & Hz & _).
  rewrite matcher_Lit in Hz. cbn [rest] in Hz.
  destruct s' as [|c s']; [contradiction|]. cbn [startsWith lit list_ascii_of_string] in Hz.
  destruct (chr_eqb "-"%char c) eqn:Ec; [|contradiction].
  apply Ascii.eqb_eq in Ec. subst c.
  assert (Hpre : firstn (m_index m) url = pre).
  { rewrite I, E. apply firstn_exact. }
  rewrite Hpre. split.
  - apply startsWith_longer. rewrite E in Hs. eapply startsWith_before; [exact Hs|].
    intros H. cbn in H. intuition discriminate.
  - rewrite !forallb_app. rewrite forallb_skipn by exact Hn.
    rewrite E, forallb_app in Hn. apply andb_prop in Hn. destruct Hn as [-> _].
    reflexivity.
Qed.

(** X15.  Whatever the output of the deployment command, an address that is
    reported starts with [https://], ends with a slash and holds no white
    space. *)
Theorem reported_address_shape (deployOutput url : str) :
  parse_deployment_url deployOutput = Some url ->
  startsWith (lit "https://") url = true /\
  endsWith [slash] url = true /\
  forallb not_space url = true.
Proof.
  unfold parse_deployment_url.
  destruct (str_match urlRegex deployOutput) as [m|] eqn:Em; [|discriminate].
  destruct (url_match _ _ Em) as [Hs Hn].
  rewrite (trim_without_space _ Hn).
  destruct (truthy (Some (m_text m))); [|discriminate].
  destruct (suffix_replaced _ Hs Hn) as [Hs' Hn'].
  revert Hs' Hn'.
  generalize (str_replace previewSuffixRegex (lit ".vercel.app") (m_text m)).
  intros u Hs' Hn'. cbv zeta.
  destruct (endsWith [slash] u) eqn:Ee.
  - destruct (truthy (Some u)); [|discriminate]. intros [= <-]. auto.
  - match goal with
    | |- context [truthy ?t] =>
        assert (Ht : truthy t = true) by (destruct u; reflexivity); rewrite Ht
    end.
    intros [= <-].
    split; [apply startsWith_longer, Hs'|]. split; [apply endsWith_slash_added|].
    rewrite forallb_app, Hn'. reflexivity.
Qed.

Lemma reported_address_shape_witness :
  startsWith (lit "https://") production_url = true /\
  endsWith [slash] production_url = true /\
  forallb not_space production_url = true.
Proof.
  apply (reported_address_shape (lit "Production: " ++ preview_url ++ lit " [3s]")).
  vm_compute. reflexivity.
Defined.

(** X16.  An output of the deployment command in which [https://] does not occur
    gives no address, so that the deployment is answered as a failure. *)
Theorem output_without_address (deployOutput : str) :
  includes (lit "https://") deployOutput = false ->
  parse_deployment_url deployOutput = None.
Proof.
  intros H. unfold parse_deployment_url, str_match.
  rewrite search_from_none; [reflexivity|].
  intros k. apply no_url_here, includes_suffixes, H.
Qed.

Lemma output_without_address_witness :
  parse_deployment_url (lit "Error: project not found at http://vercel.com") = None.
Proof.
  apply (output_without_address (lit "Error: project not found at http://vercel.com")).
  vm_compute. reflexivity.
Defined.

(** ** What a finished job carries *)

Section JobFields.

Variable id : str.

Lemma has_assign B (f : Job -> Job) (k : unit -> M B) (I I' : Job -> Prop) Q :
  (forall j, I j -> I' (f j)) ->
  hoare (job_has id I') (k tt) Q ->
  hoare (job_has id I) (bind (job_assign id f) k) Q.
Proof.
  intros Hf Hk w (j & G & Hj). unfold bind, job_assign. rewrite G.
  apply Hk. exists (f j). cbn. rewrite jobs_get_set_same. auto.
Qed.

Lemma has_touch B (k : unit -> M B) (I : Job -> Prop) Q :
  (forall t j, I j -> I (set_lastUpdated t j)) ->
  hoare (job_has id I) (k tt) Q ->
  hoare (job_has id I) (bind (touch id) k) Q.
Proof.
  intros Hf Hk w Hw. unfold touch. rewrite bind_assoc. unfold bind at 1. cbn.
  apply (has_assign B (set_lastUpdated (w_now w)) k I I Q); auto.
Qed.

Lemma has_quiet_step (I : Job -> Prop) w w' :
  quiet_step w w' -> job_has id I w -> job_has id I w'.
Proof. intros (Hj & _) (j & G & Hi). exists j. rewrite Hj. auto. Qed.

Lemma has_quiet A B (c : M A) (k : A -> M B) (I : Job -> Prop) Q :
  preserved quiet_step c ->
  (forall a, hoare (job_has id I) (k a) Q) ->
  (forall e w, job_has id I w -> Q (Throw e) w) ->
  hoare (job_has id I) (bind c k) Q.
Proof.
  intros Hc Hk He.
  apply (hoare_bind _ _ _ _ _ (fun _ => job_has id I)); auto.
  apply (hoare_preserved A c quiet_step); auto.
  intros w w'. apply has_quiet_step.
Qed.

Lemma has_assign_last (f : Job -> Job) (I I' : Job -> Prop)
    (Q : outcome unit -> World -> Prop) :
  (forall j, I j -> I' (f j)) ->
  (forall w, job_has id I' w -> Q (Ok tt) w) ->
  hoare (job_has id I) (job_assign id f) Q.
Proof.
  intros Hf HQ w (j & G & Hj). unfold job_assign. rewrite G. cbn.
  apply HQ. exists (f j). cbn. rewrite jobs_get_set_same. auto.
Qed.

Lemma has_weaken (I I' : Job -> Prop) w :
  (forall j, I j -> I' j) -> job_has id I w -> job_has id I' w.
Proof. intros H (j & G & Hj). exists j. auto. Qed.

Ltac fields :=
  let j := fresh "j" in
  intros j (? & ? & ? & ? & ? & ? & ?); unfold job_is; cbn;
  repeat split; try assumption; try reflexivity; try discriminate;
  intros; try discriminate; try congruence; try tauto.

Lemma bind_ok_inv A B (c : M A) (k : A -> M B) w b w' :
  bind c k w = (Ok b, w') -> exists a w1, c w = (Ok a, w1) /\ k a w1 = (Ok b, w').
Proof.
  unfold bind. destruct (c w) as [[a|e] w1]; [|discriminate]. intros H. eauto.
Qed.

(** A deployment that succeeds reports the address parsed from the output
    that it reports; and with a token a deployment never throws. *)
Lemma deployToVercel_success env projectDir projectName w url output w' :
  deployToVercel env projectDir projectName w = (Ok (DeploySuccess url output), w') ->
  parse_deployment_url output = Some url.
Proof.
  unfold deployToVercel. destruct (negb (truthy (VERCEL_TOKEN env))); [discriminate|].
  unfold try_catch.
  match goal with
  | |- (match ?body w with _ => _ end) = _ -> _ => destruct (body w) as [[r|e] w1] eqn:E
  end; [|discriminate].
  intros [= -> ->].
  apply bind_ok_inv in E. destruct E as (o1 & w2 & _ & E).
  apply bind_ok_inv in E. destruct E as (o2 & w3 & _ & E). cbv zeta in E.
  apply bind_ok_inv in E. destruct E as (stale & w4 & _ & E).
  apply bind_ok_inv in E. destruct E as (u1 & w5 & _ & E).
  apply bind_ok_inv in E. destruct E as (u2 & w6 & _ & E).
  apply bind_ok_inv in E. destruct E as (out & w7 & _ & E).
  destruct (parse_deployment_url out) as [u|] eqn:Ep; [|discriminate].
  injection E as -> -> _. exact Ep.
Qed.

Lemma deployToVercel_never_throws env projectDir projectName w :
  truthy (VERCEL_TOKEN env) = true ->
  exists r, fst (deployToVercel env projectDir projectName w) = Ok r.
Proof.
  intros Htok. unfold deployToVercel. rewrite Htok. cbn [negb]. unfold try_catch.
  match goal with
  | |- exists r, fst (match ?body w with _ => _ end) = _ => destruct (body w) as [[r|e] w1]
  end; eexists; reflexivity.
Qed.

Lemma hoare_pure A (c : M A) (P : World -> Prop) (F : Prop) Q :
  (F -> hoare P c Q) -> hoare (fun w => P w /\ F) c Q.
Proof. intros H w [Hw Hf]. apply H; auto. Qed.

Lemma unrecorded_of s w :
  is_terminal s = false ->
  job_has id (job_is s false false false None None None) w -> job_has id unrecorded w.
Proof. intros Hs. apply has_weaken. intros j Hj. exists s. auto. Qed.

Lemma fields_finish (I I' : Job -> Prop) env :
  (forall t j, I j -> I (set_lastUpdated t j)) ->
  (forall j, I j -> I' (set_completed true j)) ->
  (forall j, I' j -> finished env j) ->
  hoare (job_has id I) (touch id ;; job_assign id (set_completed true))
        (fun r w => match r with
                    | Ok _ => job_has id (finished env) w
                    | Throw _ => job_has id unrecorded w
                    end).
Proof.
  intros Ht Hc Hf. apply has_touch; [exact Ht|].
  apply (has_assign_last _ I I'); [exact Hc|].
  intros w. apply has_weaken, Hf.
Qed.

Lemma fields_pipeline env prompt apiProvider outputDir :
  hoare (job_has id (job_is pending false false false None None None))
        (pipeline env prompt id apiProvider outputDir)
        (fun r w => match r with
                    | Ok _ => job_has id (finished env) w
                    | Throw _ => job_has id unrecorded w
                    end).
Proof.
  unfold pipeline.
  apply (has_assign _ _ _ _ (job_is generating false false false None None None)); [fields|].
  apply has_touch; [intros t; fields|].
  apply has_quiet; [apply quiet_generate_with | | intros e w; apply unrecorded_of; reflexivity].
  intros result. destruct (obj_keys (files result)) as [|key keys].
  { apply hoare_throw. intros w. apply unrecorded_of. reflexivity. }
  apply (has_assign _ _ _ _ (job_is scaffolding false false false None None None)); [fields|].
  apply has_touch; [intros t; fields|].
  apply has_quiet;
    [apply quiet_createScaffoldedProject | | intros e w; apply unrecorded_of; reflexivity].
  intros _.
  apply has_quiet;
    [apply quiet_addGeneratedCodeToProject | | intros e w; apply unrecorded_of; reflexivity].
  intros _.
  apply has_quiet;
    [apply quiet_readdir_files | | intros e w; apply unrecorded_of; reflexivity].
  intros projectFiles.
  apply has_quiet;
    [apply (preserved_get_world quiet_step quiet_refl) |
     | intros e w; apply unrecorded_of; reflexivity].
  intros w0.
  apply (has_assign _ _ _ _ (job_is scaffolding false true false None None None)); [fields|].
  apply (has_assign _ _ _ _ (job_is scaffolding false true true None None None)); [fields|].
  apply (has_assign _ _ _ _ (job_is deploying false true true None None None)); [fields|].
  apply has_touch; [intros t; fields|].
  destruct (truthy (VERCEL_TOKEN env)) eqn:Htok.
  - eapply hoare_ext; [intros; apply bind_assoc|].
    apply (hoare_bind _ _ _ _ _
             (fun r w => job_has id (job_is deploying false true true None None None) w /\
                         (forall e, r <> Throw e) /\
                         (forall url output, r = Ok (DeploySuccess url output) ->
                                             parse_deployment_url output = Some url))).
    + intros w Hw. split; [|split].
      * eapply has_quiet_step; [apply quiet_deployToVercel | exact Hw].
      * intros e E.
        destruct (deployToVercel_never_throws env outputDir (lit "ai-project-" ++ id) w Htok)
          as [r Hr].
        rewrite Hr in E. discriminate.
      * intros url output E.
        destruct (deployToVercel env outputDir (lit "ai-project-" ++ id) w) as [r w'] eqn:Ed.
        cbn [fst] in E. subst r. eapply deployToVercel_success, Ed.
    + intros [url output|error]; cbv beta; apply hoare_pure; intros [_ Hparse].
      * specialize (Hparse url output eq_refl).
        eapply hoare_ext; [intros; apply bind_assoc|].
        apply (has_assign _ _ _ _ (job_is completed false true true None None None));
          [fields|].
        eapply hoare_ext; [intros; apply bind_assoc|].
        apply (has_assign _ _ _ _ (job_is completed false true true (Some url) None None));
          [fields|].
        apply (has_assign _ _ _ _
                 (job_is completed false true true (Some url) (Some output) None));
          [fields|].
        apply (fields_finish _
                 (job_is completed true true true (Some url) (Some output) None));
          [intros t; fields | fields |].
        intros j Hj. unfold finished. rewrite (proj1 Hj). eauto.
      * eapply hoare_ext; [intros; apply bind_assoc|].
        apply (has_assign _ _ _ _ (job_is deployment_failed false true true None None None));
          [fields|].
        apply (has_assign _ _ _ _
                 (job_is deployment_failed false true true None None (Some error)));
          [fields|].
        apply (fields_finish _
                 (job_is deployment_failed true true true None None (Some error)));
          [intros t; fields | fields |].
        intros j Hj. unfold finished. rewrite (proj1 Hj). eauto.
    + intros e w (_ & H & _). exfalso. apply (H e). reflexivity.
  - eapply hoare_ext; [intros; apply bind_assoc|].
    apply (has_assign _ _ _ _
             (job_is completed_without_deployment false true true None None None)); [fields|].
    apply (has_assign _ _ _ _
             (job_is completed_without_deployment false true true None None
                     (Some NO_TOKEN_MESSAGE))); [fields|].
    apply (fields_finish _
             (job_is completed_without_deployment true true true None None
                     (Some NO_TOKEN_MESSAGE))); [intros t; fields | fields |].
    intros j Hj. unfold finished. rewrite (proj1 Hj). auto.
Qed.

Lemma fields_record_failure env message :
  hoare (job_has id unrecorded) (record_failure id message)
        (fun r w => r = Ok tt /\ job_has id (finished env) w).
Proof.
  intros w (j & G & s & Hs & Hj).
  assert (H : hoare (job_has id (job_is s false false false None None None))
                    (record_failure id message)
                    (fun r w => r = Ok tt /\ job_has id (finished env) w));
    [|apply H; exists j; auto].
  clear w j G Hj. unfold record_failure.
  apply (has_assign _ _ _ _ (job_is failed false false false None None None)); [fields|].
  apply (has_assign _ _ _ _ (job_is failed false false false None None (Some message)));
    [fields|].
  apply has_touch; [intros t; fields|].
  apply (has_assign_last _ _ (job_is failed true false false None None (Some message)));
    [fields|].
  intros w Hw. split; [reflexivity|]. revert Hw. apply has_weaken.
  intros j Hj. unfold finished. rewrite (proj1 Hj). eauto.
Qed.

Lemma fields_processGenerateAndDeploy env prompt apiProvider :
  hoare (job_has id (job_is pending false false false None None None))
        (processGenerateAndDeploy env prompt id apiProvider)
        (fun r w => r = Ok tt /\ job_has id (finished env) w).
Proof.
  unfold processGenerateAndDeploy.
  eapply hoare_try_catch; [apply fields_pipeline | |].
  - intros [] w H. split; auto.
  - intros e. apply fields_record_failure.
Qed.

End JobFields.

(** ** The request handler *)

Lemma jobs_get_set_other jobs id id' j :
  id' <> id -> jobs_get (jobs_set jobs id j) id' = jobs_get jobs id'.
Proof.
  intros Hne. induction jobs as [|[k j0] jobs IH]; cbn.
  - destruct (str_eqb id id') eqn:E; auto. apply str_eqb_eq in E. congruence.
  - destruct (str_eqb k id) eqn:E; cbn.
    + apply str_eqb_eq in E. subst k.
      destruct (str_eqb id id') eqn:E'; auto. apply str_eqb_eq in E'. congruence.
    + rewrite IH. reflexivity.
Qed.

(** What an accepted request leaves behind. *)
Lemma generateProject_accepted env req w0 id status url task ws :
  generateProject env req w0 = (Ok (Started id status url, task), ws) ->
  exists prompt apiProvider,
    body_prompt req = Some prompt /\ prompt <> [] /\
    apiProvider = match body_apiProvider req with Some p => p | None => lit "openai" end /\
    In apiProvider validProviders /\
    status = lit "pending" /\ url = lit "/getDeploymentStatus?jobId=" ++ id /\
    task = Some (prompt, id, apiProvider) /\
    jobs_get (w_jobs ws) id = Some (new_job id prompt apiProvider (w_now w0)) /\
    (forall id', id' <> id -> jobs_get (w_jobs ws) id' = jobs_get (w_jobs w0) id') /\
    fs_mkdirp (w_fs w0) (path_segments (path_join [OUTPUT_DIR_BASE env; id]))
      = Some (w_fs ws).
Proof.
  unfold generateProject.
  destruct (body_prompt req) as [[|c prompt]|]; cbn [truthy negb];
    try (intros H; discriminate H).
  set (apiProvider := match body_apiProvider req with Some p => p | None => lit "openai" end).
  destruct (existsb (str_eqb apiProvider) validProviders) eqn:Ev; cbn [negb];
    [|intros H; discriminate H].
  repeat match goal with
         | |- context [if ?b then _ else _] => destruct b; [cbn; intros H; discriminate H|]
         end.
  unfold bind, get_world, mkdirSync_recursive, Date_now, store_job, set_fs, ret, throw.
  cbn. destruct (fs_mkdirp (w_fs w0) _) as [fs'|] eqn:Em; cbn; [|intros H; discriminate H].
  intros [= <- <- <- <- <-].
  exists (c :: prompt), apiProvider. cbn.
  repeat split; auto; try discriminate.
  - apply existsb_exists in Ev. destruct Ev as (x & Hx & E).
    apply str_eqb_eq in E. subst x. exact Hx.
  - apply jobs_get_set_same.
  - intros id' Hid. apply jobs_get_set_other, Hid.
Qed.

(** *** The announced status is never reported *)

Section PastPending.

Variable id : str.
Variable w0 : World.

Lemma kp_ret A (a : A) : keeps_past id w0 (ret a).
Proof. intros w H. exact H. Qed.

Lemma kp_throw A (e : str) : keeps_past id w0 (@throw A e).
Proof. intros w H. exact H. Qed.

Lemma kp_bind A B (c : M A) (k : A -> M B) :
  keeps_past id w0 c -> (forall a, keeps_past id w0 (k a)) -> keeps_past id w0 (bind c k).
Proof.
  intros Hc Hk. apply (hoare_bind _ _ _ _ _ (fun _ w => seen_past_pending id w0 w)); auto.
Qed.

Lemma kp_try_catch A (c : M A) (h : str -> M A) :
  keeps_past id w0 c -> (forall e, keeps_past id w0 (h e)) -> keeps_past id w0 (try_catch c h).
Proof.
  intros Hc Hh.
  apply (hoare_try_catch _ _ _ _ (fun _ w => seen_past_pending id w0 w)); auto.
Qed.

Lemma kp_quiet A (c : M A) : preserved quiet_step c -> keeps_past id w0 c.
Proof.
  intros Hc w ((obs & Hobs & Hall) & Hnow). specialize (Hc w).
  destruct Hc as (Hjobs & _ & k & Hk). cbn. split.
  - exists (repeat (w_jobs w) k ++ obs). split.
    + rewrite Hk, Hobs, app_assoc. reflexivity.
    + apply Forall_app. split; [|exact Hall].
      apply Forall_forall. intros jobs Hin. apply repeat_spec in Hin. subst jobs. exact Hnow.
  - rewrite Hjobs. exact Hnow.
Qed.

Lemma kp_assign (f : Job -> Job) :
  (forall j, job_status j <> pending -> job_status (f j) <> pending) ->
  keeps_past id w0 (job_assign id f).
Proof.
  intros Hf w (Hobs & j & G & Hj). unfold job_assign. rewrite G. cbn. split; [exact Hobs|].
  exists (f j). cbn. rewrite jobs_get_set_same. auto.
Qed.

Lemma kp_touch : keeps_past id w0 (touch id).
Proof.
  unfold touch. apply kp_bind.
  - apply kp_quiet, (preserved_Date_now quiet_step quiet_refl).
  - intros t. apply kp_assign. intros j Hj. exact Hj.
Qed.

(** The first assignment of the task, made before any status query can
    run. *)
Lemma first_assignment (s : Status) :
  s <> pending ->
  hoare (not_seen_yet id w0) (job_assign id (set_status s))
        (fun _ w => seen_past_pending id w0 w).
Proof.
  intros Hs w (Hobs & j & G). unfold job_assign. rewrite G. cbn. split.
  - exists []. split; [exact Hobs | constructor].
  - exists (set_status s j). cbn. rewrite jobs_get_set_same. auto.
Qed.

Ltac past :=
  repeat
    match goal with
    | |- keeps_past _ _ (bind _ _) => apply kp_bind; [| intros ?]
    | |- keeps_past _ _ (ret _) => apply kp_ret
    | |- keeps_past _ _ (throw _) => apply kp_throw
    | |- keeps_past _ _ (touch _) => apply kp_touch
    | |- keeps_past _ _ (job_assign _ _) =>
        apply kp_assign; let j := fresh "j" in let Hj := fresh "Hj" in
                         intros j Hj; cbn; first [exact Hj | discriminate]
    | |- keeps_past _ _ get_world =>
        apply kp_quiet, (preserved_get_world quiet_step quiet_refl)
    | |- keeps_past _ _ (if ?b then _ else _) => destruct b
    | |- keeps_past _ _ (match ?x with _ => _ end) => destruct x
    | |- keeps_past _ _ (let _ := _ in _) => cbv zeta
    | |- keeps_past _ _ _ => apply kp_quiet; solve [auto with steps]
    end.

Lemma past_pipeline env prompt apiProvider outputDir :
  hoare (not_seen_yet id w0) (pipeline env prompt id apiProvider outputDir)
        (fun _ w => seen_past_pending id w0 w).
Proof.
  unfold pipeline.
  apply (hoare_bind _ _ _ _ _ (fun _ w => seen_past_pending id w0 w));
    [apply first_assignment; discriminate | intros [] | auto].
  change (keeps_past id w0
            (touch id ;;
             result <- generate_with env prompt apiProvider ;;
             match obj_keys (files result) with
             | [] => throw NO_FILES_MESSAGE
             | _ :: _ =>
                 job_assign id (set_status scaffolding) ;;
                 touch id ;;
                 createScaffoldedProject env outputDir (projectInfo result) ;;
                 addGeneratedCodeToProject outputDir (Object_entries (files result)) ;;
                 projectFiles <- readdir_files outputDir ;;
                 w <- get_world ;;
                 (let fileContents := read_small_text_files (w_fs w) outputDir projectFiles in
                  job_assign id (set_files projectFiles) ;;
                  job_assign id (set_fileContents fileContents) ;;
                  job_assign id (set_status deploying) ;;
                  touch id ;;
                  (if truthy (VERCEL_TOKEN env) then
                     let projectName := lit "ai-project-" ++ id in
                     deployResult <- deployToVercel env outputDir projectName ;;
                     match deployResult with
                     | DeploySuccess url output =>
                         job_assign id (set_status completed) ;;
                         job_assign id (set_deploymentUrl url) ;;
                         job_assign id (set_deploymentOutput output)
                     | DeployFailure error =>
                         job_assign id (set_status deployment_failed) ;;
                         job_assign id (set_error error)
                     end
                   else
                     job_assign id (set_status completed_without_deployment) ;;
                     job_assign id (set_error NO_TOKEN_MESSAGE)) ;;
                  touch id ;;
                  job_assign id (set_completed true))
             end)).
  past.
Qed.

Lemma past_record_failure message : keeps_past id w0 (record_failure id message).
Proof. unfold record_failure. past. Qed.

Lemma past_processGenerateAndDeploy env prompt apiProvider :
  hoare (not_seen_yet id w0) (processGenerateAndDeploy env prompt id apiProvider)
        (fun _ w => seen_past_pending id w0 w).
Proof.
  unfold processGenerateAndDeploy. cbv zeta.
  eapply hoare_try_catch; [apply past_pipeline | auto |].
  intros e. apply past_record_failure.
Qed.

End PastPending.

(** The handler itself reaches no point at which a status query could
    run. *)
Lemma generateProject_not_seen env req w0 r ws :
  generateProject env req w0 = (r, ws) -> w_observed ws = w_observed w0.
Proof.
  unfold generateProject.
  repeat match goal with
         | |- context [if ?b then _ else _] => destruct b; [cbn; intros [= <- <-]; reflexivity|]
         end.
  unfold bind, get_world, mkdirSync_recursive, Date_now, store_job, set_fs, ret, throw.
  cbn. destruct (fs_mkdirp (w_fs w0) _); cbn; intros [= <- <-]; reflexivity.
Qed.

Lemma status_text_pending s : status_text s = lit "pending" -> s = pending.
Proof. destruct s; intros H; (reflexivity || discriminate H). Qed.

Lemma past_pending_reported id jobs includeFiles :
  id <> [] -> past_pending id jobs ->
  exists body,
    getDeploymentStatus jobs (mkStatusQuery (Some id) includeFiles) = Status200 body /\
    r_status body <> lit "pending".
Proof.
  intros Hid (j & G & Hj). unfold getDeploymentStatus. cbn [query_jobId query_includeFiles].
  destruct id as [|c id]; [contradiction|]. cbn [truthy negb]. rewrite G.
  eexists. split; [reflexivity|].
  unfold status_body. destruct (job_completed j); cbn [r_status];
    intros E; apply Hj, status_text_pending, E.
Qed.

(** X17.  The answer to an accepted request announces the status [pending]
    and the address of the status endpoint for the job.  Yet no status query
    is ever answered with [pending]: the task is started before the answer is
    sent and sets the status to [generating] before it first waits, so that
    at every point where a query can run while the task is under way, and
    once the task has ended, the endpoint finds the job and reports another
    status. *)
Theorem accepted_request_is_never_reported_pending
    (env : Env) (req : GenerateRequest) (w0 w1 : World) (id status url : str) :
  submit_and_process env req w0 = (Ok (Started id status url), w1) -> id <> [] ->
  status = lit "pending" /\
  url = lit "/getDeploymentStatus?jobId=" ++ id /\
  exists obs,
    w_observed w1 = obs ++ w_observed w0 /\
    forall jobs includeFiles, In jobs (w_jobs w1 :: obs) ->
      exists body,
        getDeploymentStatus jobs (mkStatusQuery (Some id) includeFiles) = Status200 body /\
        r_status body <> lit "pending".
Proof.
  unfold submit_and_process, bind.
  destruct (generateProject env req w0) as [[[response task]|e] ws] eqn:Hg;
    [|intros H; discriminate H].
  destruct response as [err|jobId st u].
  { destruct task as [[[p i] a]|]; cbn.
    - destruct (background_task env p i a ws) as [[[]|e] w]; intros H; discriminate H.
    - intros H. discriminate H. }
  pose proof (generateProject_not_seen _ _ _ _ _ Hg) as Hobs.
  apply generateProject_accepted in Hg.
  destruct Hg as (prompt & apiProvider & _ & _ & _ & _ & Hst & Hu & -> & Hjob & _).
  assert (Hstart : job_has jobId (job_is pending false false false None None None) ws).
  { exists (new_job jobId prompt apiProvider (w_now w0)). split; [exact Hjob|].
    unfold job_is. cbn. repeat split; try discriminate; intros H; contradiction. }
  pose proof (fields_processGenerateAndDeploy jobId env prompt apiProvider ws Hstart)
    as [Hok _].
  assert (Hpre : not_seen_yet jobId ws ws) by (split; [reflexivity | eauto]).
  pose proof (past_processGenerateAndDeploy jobId ws env prompt apiProvider ws Hpre)
    as ((obs & Hseen & Hall) & Hnow).
  unfold background_task, try_catch.
  destruct (processGenerateAndDeploy env prompt jobId apiProvider ws) as [r w] eqn:Hp.
  cbn [fst snd] in Hok, Hseen, Hall, Hnow. subst r. cbn. intros [= <- <- <- <-] Hid.
  split; [exact Hst|]. split; [exact Hu|].
  exists obs. split; [rewrite Hseen, Hobs; reflexivity|].
  intros jobs includeFiles [<-|Hin]; apply past_pending_reported; auto.
  rewrite Forall_forall in Hall. apply Hall, Hin.
Qed.

Lemma accepted_request_is_never_reported_pending_witness :
  exists obs,
    w_observed (snd (submit_and_process (demo_env None scenario_text) demo_request demo_world))
      = obs ++ [] /\
    forall jobs includeFiles,
      In jobs (w_jobs (snd (submit_and_process (demo_env None scenario_text)
                              demo_request demo_world)) :: obs) ->
      exists body,
        getDeploymentStatus jobs (mkStatusQuery (Some (lit "abc")) includeFiles)
          = Status200 body /\
        r_status body <> lit "pending".
Proof.
  destruct (accepted_request_is_never_reported_pending
              (demo_env None scenario_text) demo_request demo_world
              (snd (submit_and_process (demo_env None scenario_text) demo_request demo_world))
              (lit "abc") (lit "pending") (lit "/getDeploymentStatus?jobId=abc"))
    as (_ & _ & H).
  - vm_compute. reflexivity.
  - discriminate.
  - exact H.
Defined.

(** X18.  A request that is rejected leaves no trace: no job is stored, no
    directory is created, nothing is started. *)
Theorem rejected_request_changes_nothing (env : Env) (req : GenerateRequest) (w w' : World)
    (message : str) (task : option (str * str * str)) :
  generateProject env req w = (Ok (BadRequest message, task), w') ->
  w' = w /\ task = None.
Proof.
  unfold generateProject.
  repeat match goal with
         | |- context [if ?b then _ else _] =>
             destruct b; [cbn; intros [= <- <- <-]; split; reflexivity|]
         end.
  unfold bind, get_world, mkdirSync_recursive, Date_now, store_job, set_fs, ret, throw.
  cbn. destruct (fs_mkdirp (w_fs w) _); cbn; intros H; discriminate H.
Qed.

Lemma rejected_request_changes_nothing_witness :
  snd (generateProject (demo_env None scenario_text)
         (mkGenerateRequest (Some (lit "counter app")) (Some (lit "mistral"))) demo_world)
  = demo_world.
Proof.
  assert (H : generateProject (demo_env None scenario_text)
                (mkGenerateRequest (Some (lit "counter app")) (Some (lit "mistral"))) demo_world
              = (Ok (BadRequest (lit "Invalid apiProvider. Must be one of: openai, gemini, claude"),
                     None),
                 snd (generateProject (demo_env None scenario_text)
                        (mkGenerateRequest (Some (lit "counter app")) (Some (lit "mistral")))
                        demo_world)))
    by (vm_compute; reflexivity).
  destruct (rejected_request_changes_nothing _ _ _ _ _ _ H) as [Hw _]. exact Hw.
Defined.

(** ** The end of the background task *)

(** X19.  Whatever exception escapes the [try] block of the task, the [catch]
    block records it: the task itself ends without exception, and the job is
    [failed], flagged as completed, with the message of the exception as its
    error. *)
Theorem escaped_exception_is_recorded (env : Env) (req : GenerateRequest) (w0 ws w : World)
    (id status url prompt apiProvider message : str) :
  generateProject env req w0 = (Ok (Started id status url, Some (prompt, id, apiProvider)), ws) ->
  pipeline env prompt id apiProvider (path_join [OUTPUT_DIR_BASE env; id]) ws
    = (Throw message, w) ->
  exists w1 final,
    processGenerateAndDeploy env prompt id apiProvider ws = (Ok tt, w1) /\
    jobs_get (w_jobs w1) id = Some final /\
    job_status final = failed /\
    job_completed final = true /\
    job_error final = Some message.
Proof.
  intros Hg Hp. apply generateProject_started in Hg.
  destruct Hg as (p & a & _ & Hstate).
  pose proof (hoare_pipeline w0 id env prompt apiProvider
                (path_join [OUTPUT_DIR_BASE env; id]) ws Hstate) as Hpost.
  rewrite Hp in Hpost. cbn in Hpost.
  destruct Hpost as (s & _ & hist & obs & _ & _ & _ & _ & _ & _ & j & G & _).
  destruct (record_failure_run id message j w G)
    as (w1 & final & h & Hrun & Hget & Hst & Hc & He & _).
  exists w1, final. repeat split; auto.
  unfold processGenerateAndDeploy, try_catch. rewrite Hp. exact Hrun.
Qed.

Lemma escaped_exception_is_recorded_witness :
  exists w1 final,
    processGenerateAndDeploy offline_env (lit "counter app") (lit "abc") (lit "gemini")
      (snd (generateProject offline_env demo_request demo_world)) = (Ok tt, w1) /\
    jobs_get (w_jobs w1) (lit "abc") = Some final /\
    job_status final = failed /\
    job_error final = Some (lit "fetch failed").
Proof.
  pose (ws := snd (generateProject offline_env demo_request demo_world)).
  assert (Hg : generateProject offline_env demo_request demo_world
               = (Ok (Started (lit "abc") (lit "pending")
                        (lit "/getDeploymentStatus?jobId=abc"),
                      Some (lit "counter app", lit "abc", lit "gemini")), ws))
    by (vm_compute; reflexivity).
  assert (Hp : pipeline offline_env (lit "counter app") (lit "abc") (lit "gemini")
                 (path_join [OUTPUT_DIR_BASE offline_env; lit "abc"]) ws
               = (Throw (lit "fetch failed"),
                  snd (pipeline offline_env (lit "counter app") (lit "abc") (lit "gemini")
                         (path_join [OUTPUT_DIR_BASE offline_env; lit "abc"]) ws)))
    by (vm_compute; reflexivity).
  destruct (escaped_exception_is_recorded _ _ _ _ _ _ _ _ _ _ _ Hg Hp)
    as (w1 & final & Hrun & Hget & Hs & _ & He).
  exists w1, final. exact (conj Hrun (conj Hget (conj Hs He))).
Defined.

(** X20.  When the handler has accepted a request and the background task has
    run, the job carries what its status says: a [completed] job has the
    listing, the contents, the output of the deployment command and the
    address parsed from that output, and no error; a job in
    [deployment_failed] or [completed_without_deployment] has the listing,
    the contents and an error, and no address (the first with a token
    configured, the second without one and with the message that says so); a
    [failed] job has an error and neither listing, contents nor address.  In
    every case the job is flagged as completed and its status is one of these
    four. *)
Theorem finished_job_carries_what_its_status_says
    (env : Env) (req : GenerateRequest) (w0 w1 : World) (id status url : str) :
  submit_and_process env req w0 = (Ok (Started id status url), w1) ->
  exists final,
    jobs_get (w_jobs w1) id = Some final /\
    job_completed final = true /\
    finished env final.
Proof.
  unfold submit_and_process, bind.
  destruct (generateProject env req w0) as [[[response task]|e] ws] eqn:Hg;
    [|intros H; discriminate H].
  destruct response as [err|jobId st u].
  { destruct task as [[[p i] a]|]; cbn.
    - destruct (background_task env p i a ws) as [[[]|e] w]; intros H; discriminate H.
    - intros H. discriminate H. }
  apply generateProject_accepted in Hg.
  destruct Hg as (prompt & apiProvider & _ & _ & _ & _ & _ & _ & -> & Hjob & _).
  assert (Hstart : job_has jobId (job_is pending false false false None None None) ws).
  { exists (new_job jobId prompt apiProvider (w_now w0)). split; [exact Hjob|].
    unfold job_is. cbn. repeat split; try discriminate; intros H; contradiction. }
  pose proof (fields_processGenerateAndDeploy jobId env prompt apiProvider ws Hstart)
    as [Hok Hfin].
  unfold background_task, try_catch.
  destruct (processGenerateAndDeploy env prompt jobId apiProvider ws) as [r w] eqn:Hp.
  cbn [fst snd] in Hok, Hfin. subst r. cbn. intros [= <- <- <- <-].
  destruct Hfin as (final & Hget & Hf). exists final. repeat split; auto.
  unfold finished in Hf. unfold job_is in Hf.
  destruct (job_status final); try contradiction.
  - destruct Hf as (? & ? & (_ & Hd & _) & _). exact Hd.
  - destruct Hf as ((_ & Hd & _) & _). exact Hd.
  - destruct Hf as (? & (_ & Hd & _) & _). exact Hd.
  - destruct Hf as (? & _ & Hd & _). exact Hd.
Qed.

Lemma finished_job_carries_what_its_status_says_witness :
  exists final,
    jobs_get (w_jobs (snd (submit_and_process (demo_env (Some (lit "tok")) scenario_text)
                             demo_request demo_world))) (lit "abc") = Some final /\
    finished (demo_env (Some (lit "tok")) scenario_text) final /\
    job_status final = completed /\
    job_deploymentUrl final = Some production_url.
Proof.
  destruct (finished_job_carries_what_its_status_says
              (demo_env (Some (lit "tok")) scenario_text) demo_request demo_world
              (snd (submit_and_process (demo_env (Some (lit "tok")) scenario_text)
                      demo_request demo_world))
              (lit "abc") (lit "pending") (lit "/getDeploymentStatus?jobId=abc"))
    as (final & Hget & _ & Hf).
  { vm_compute. reflexivity. }
  exists final. split; [exact Hget|]. split; [exact Hf|].
  assert (E : option_map (fun j => (job_status j, job_deploymentUrl j))
                (jobs_get (w_jobs (snd (submit_and_process
                                          (demo_env (Some (lit "tok")) scenario_text)
                                          demo_request demo_world))) (lit "abc"))
              = Some (completed, Some production_url)) by (vm_compute; reflexivity).
  rewrite Hget in E. cbn in E. injection E as E1 E2. split; assumption.
Defined.

(** ** The commands of the task *)

Section Commands.

Variable P : str * str -> Prop.

Lemma command_refl w : command_step P w w.
Proof. exists []. rewrite app_nil_r. split; auto. Qed.

Lemma command_trans a b c : command_step P a b -> command_step P b c -> command_step P a c.
Proof.
  intros (c1 & E1 & F1) (c2 & E2 & F2). exists (c1 ++ c2). split.
  - rewrite E2, E1, app_assoc. reflexivity.
  - apply Forall_app. split; assumption.
Qed.

Lemma command_suspend env : preserved (command_step P) (suspend env).
Proof. intros w. prim_no_build. Qed.

Lemma command_sleep ms : preserved (command_step P) (sleep ms).
Proof. intros w. prim_no_build. Qed.

Lemma command_set_fs fs : preserved (command_step P) (set_fs fs).
Proof. intros w. prim_no_build. Qed.

Lemma command_existsSync p : preserved (command_step P) (existsSync p).
Proof. intros w. prim_no_build. Qed.

Lemma command_job_assign id f : preserved (command_step P) (job_assign id f).
Proof.
  intros w. unfold job_assign. destruct (jobs_get (w_jobs w) id); prim_no_build.
Qed.

Lemma command_executeCommand env command cwd :
  P (command, cwd) -> preserved (command_step P) (executeCommand env command cwd).
Proof.
  intros Hc w. unfold executeCommand.
  destruct (exec env (w_calls w) command cwd (w_fs w)) as [r fs'].
  exists [(command, cwd)]. split; [reflexivity|]. constructor; auto.
Qed.

End Commands.

#[export] Hint Resolve command_suspend command_sleep command_set_fs command_existsSync
  command_job_assign : steps.

Ltac commands P := follow (command_step P) (command_refl P) (command_trans P).

Lemma command_await P A env (request : nat -> outcome A) :
  preserved (command_step P) (await env request).
Proof. unfold await. commands P. Qed.

Lemma command_mkdirSync P p : preserved (command_step P) (mkdirSync_recursive p).
Proof. unfold mkdirSync_recursive. commands P. Qed.

Lemma command_writeFileSync P p content : preserved (command_step P) (writeFileSync p content).
Proof. unfold writeFileSync. commands P. Qed.

Lemma command_rmSync P p : preserved (command_step P) (rmSync_recursive_force p).
Proof. unfold rmSync_recursive_force. commands P. Qed.

Lemma command_readdir_files P dir : preserved (command_step P) (readdir_files dir).
Proof. unfold readdir_files. commands P. Qed.

Lemma command_touch P id : preserved (command_step P) (touch id).
Proof. unfold touch. commands P. Qed.

#[export] Hint Resolve command_await command_mkdirSync command_writeFileSync command_rmSync
  command_readdir_files command_touch : steps.

Lemma command_poll_loop P env threadId runId n :
  preserved (command_step P) (poll_loop env threadId runId n).
Proof. induction n as [|n IH]; cbn [poll_loop]; commands P. Qed.

#[export] Hint Resolve command_poll_loop : steps.

Lemma command_generate_with P env prompt apiProvider :
  preserved (command_step P) (generate_with env prompt apiProvider).
Proof.
  unfold generate_with, pollForRunCompletion, extractCodeFromAssistantResponse,
    generateCodeWithGemini, generateCodeWithClaude.
  commands P.
Qed.

Lemma command_addGeneratedCodeToProject P projectDir entries :
  preserved (command_step P) (addGeneratedCodeToProject projectDir entries).
Proof.
  induction entries as [|[filename content] entries IH];
    cbn [addGeneratedCodeToProject]; commands P.
Qed.

#[export] Hint Resolve command_generate_with command_addGeneratedCodeToProject : steps.

Lemma scaffold_command_listed env id info :
  In (scaffold_command info) (task_command_lines env id).
Proof.
  unfold task_command_lines. apply in_or_app. left.
  destruct info as [[] [] c f]; cbn; tauto.
Qed.

Ltac listed_command :=
  split; [|reflexivity]; cbn [fst];
  first [ apply scaffold_command_listed
        | unfold task_command_lines; apply in_or_app; right; cbn [In]; tauto ].

Lemma command_createScaffoldedProject env id info :
  preserved (command_step (task_command env id))
    (createScaffoldedProject env (path_join [OUTPUT_DIR_BASE env; id]) info).
Proof.
  unfold createScaffoldedProject.
  repeat (commands (task_command env id);
          try (apply command_executeCommand; listed_command)).
Qed.

Lemma command_deployToVercel env id :
  preserved (command_step (task_command env id))
    (deployToVercel env (path_join [OUTPUT_DIR_BASE env; id]) (lit "ai-project-" ++ id)).
Proof.
  unfold deployToVercel.
  repeat (commands (task_command env id);
          try (apply command_executeCommand; listed_command)).
Qed.

#[export] Hint Resolve command_createScaffoldedProject command_deployToVercel : steps.


(** ** The other jobs *)

Lemma others_refl id w : others_kept id w w.
Proof. intros id' _. reflexivity. Qed.

Lemma others_trans id a b c : others_kept id a b -> others_kept id b c -> others_kept id a c.
Proof. intros H1 H2 id' Hid. rewrite (H2 id' Hid). apply H1, Hid. Qed.

Lemma others_of_quiet id A (c : M A) :
  preserved quiet_step c -> preserved (others_kept id) c.
Proof. intros H w id' _. destruct (H w) as [-> _]. reflexivity. Qed.

Lemma others_job_assign id f : preserved (others_kept id) (job_assign id f).
Proof.
  intros w id' Hid. unfold job_assign. destruct (jobs_get (w_jobs w) id); [|reflexivity].
  cbn. apply jobs_get_set_other, Hid.
Qed.

Ltac others id := follow (others_kept id) (others_refl id) (others_trans id).

Lemma others_touch id : preserved (others_kept id) (touch id).
Proof. unfold touch. others id; apply others_job_assign. Qed.

(** X22.  The task of a job assigns to no other job: whatever it does, the other
    entries of the store are after the task what they were before it. *)
Theorem task_leaves_other_jobs_alone (env : Env) (prompt id apiProvider : str) (w : World)
    (other : str) :
  other <> id ->
  jobs_get (w_jobs (snd (processGenerateAndDeploy env prompt id apiProvider w))) other
  = jobs_get (w_jobs w) other.
Proof.
  intros Hother.
  assert (H : preserved (others_kept id) (processGenerateAndDeploy env prompt id apiProvider)).
  { unfold processGenerateAndDeploy, pipeline, record_failure.
    repeat (others id;
            try first [ apply others_job_assign | apply others_touch
                      | apply others_of_quiet; solve [auto with steps] ]). }
  exact (H w other Hother).
Qed.

Lemma task_leaves_other_jobs_alone_witness :
  jobs_get (w_jobs (snd (processGenerateAndDeploy (demo_env None scenario_text)
                           (lit "counter app") (lit "abc") (lit "gemini")
                           (snd (generateProject (demo_env None scenario_text)
                                   demo_request busy_world))))) (lit "zzz")
  = Some (new_job (lit "zzz") (lit "todo list") (lit "gemini") 900).
Proof.
  rewrite (task_leaves_other_jobs_alone (demo_env None scenario_text)
             (lit "counter app") (lit "abc") (lit "gemini")
             (snd (generateProject (demo_env None scenario_text) demo_request busy_world))
             (lit "zzz")).
  - vm_compute. reflexivity.
  - discriminate.
Defined.

(** ** Names that leave the output directory *)

Lemma path_segments_up dir parent d x :
  startsWith [slash] dir = true -> path_segments dir = parent ++ [d] -> plain_name x ->
  path_segments (path_join [dir; lit "../" ++ x]) = parent ++ [x].
Proof.
  intros Habs Hdir Hx.
  pose proof (path_segments_plain dir) as Hplain. rewrite Hdir in Hplain.
  apply Forall_app in Hplain. destruct Hplain as [_ Hplain].
  inversion Hplain as [|? ? (_ & _ & Hd & _) _]; subst.
  apply str_eqb_neq in Hd.
  unfold path_join. cbn [filter].
  destruct dir as [|c dir]; [discriminate|]. cbn [str_eqb negb app lit list_ascii_of_string].
  cbn [join_with]. rewrite path_segments_normalize by exact Habs.
  unfold path_segments in *.
  change ((c :: dir) ++ [slash] ++ "."%char :: "."%char :: "/"%char :: x)
    with ((c :: dir) ++ slash :: (lit "..") ++ slash :: x).
  rewrite split_on_app, split_on_app.
  rewrite (split_on_plain (lit "..")) by reflexivity.
  rewrite (split_on_plain x) by apply Hx.
  unfold normalize_segments in *. rewrite fold_left_app. cbn [fold_left app].
  apply (f_equal (@rev str)) in Hdir. rewrite rev_involutive, rev_app_distr in Hdir.
  cbn [rev app] in Hdir. rewrite Hdir.
  rewrite normalize_step_plain by exact Hx.
  replace (normalize_step false (d :: rev parent) (lit "..")) with (rev parent).
  - cbn [rev]. rewrite rev_involutive. reflexivity.
  - unfold normalize_step. change (str_eqb (lit "..") []) with false.
    change (str_eqb (lit "..") (lit ".")) with false.
    change (str_eqb (lit "..") (lit "..")) with true.
    cbn [orb]. rewrite Hd. reflexivity.
Qed.

(** X23.  The file names of a response are joined to the output directory as they
    are.  A block whose name is [../] followed by a plain name passes the
    pattern of the extraction, and the overlay, when it succeeds, writes its
    trimmed content beside the output directory, into the parent directory,
    not below the output directory. *)
Theorem name_with_dot_dot_is_written_beside_the_output_directory
    (b : prompted_block) (closing outputDir : str) (parent : list str) (d x : str)
    (w w' : World) :
  well_formed_block b -> pb_name b = lit "../" ++ x -> plain_name x ->
  forallb not_backtick closing = true ->
  startsWith [slash] outputDir = true -> path_segments outputDir = parent ++ [d] ->
  addGeneratedCodeToProject outputDir
    (Object_entries (files (extractCodeFromResponse (render_blocks [b] closing)))) w
    = (Ok tt, w') ->
  files (extractCodeFromResponse (render_blocks [b] closing))
    = [(lit "../" ++ x, trim (pb_content b))] /\
  fs_lookup (w_fs w') (parent ++ [x]) = Some (File (trim (pb_content b))).
Proof.
  intros Hb Hname Hx Hclosing Habs Hdir.
  rewrite formatted_response_files by (auto using Forall_cons, Forall_nil).
  unfold requested_files. cbn [fold_left]. rewrite Hname.
  unfold obj_set. change (str_eqb (lit "../" ++ x) proto_key) with false. cbn [own_set].
  change (Object_entries [(lit "../" ++ x, trim (pb_content b))])
    with [(lit "../" ++ x, trim (pb_content b))].
  intros H. split; [reflexivity|].
  apply overlay_entry in H. destruct H as (w1 & w2 & _ & Hw & Hrest).
  injection Hrest as <-. apply writeFileSync_content in Hw.
  rewrite <- (path_segments_up _ _ _ _ Habs Hdir Hx). exact Hw.
Qed.

Lemma name_with_dot_dot_is_written_beside_the_output_directory_witness :
  fs_lookup
    (w_fs (snd (addGeneratedCodeToProject (lit "/src")
                  (Object_entries (files (extractCodeFromResponse (render_blocks [sibling_block] nl))))
                  sample_world)))
    [lit "deploy.sh"] = Some (File (lit "echo hi")).
Proof.
  assert (H : addGeneratedCodeToProject (lit "/src")
                (Object_entries (files (extractCodeFromResponse (render_blocks [sibling_block] nl))))
                sample_world
              = (Ok tt, snd (addGeneratedCodeToProject (lit "/src")
                  (Object_entries (files (extractCodeFromResponse (render_blocks [sibling_block] nl))))
                  sample_world)))
    by (vm_compute; reflexivity).
  assert (Hb : well_formed_block sibling_block)
    by (repeat split; try reflexivity; vm_compute; discriminate).
  assert (Hx : plain_name (lit "deploy.sh"))
    by (repeat split; try reflexivity; vm_compute; discriminate).
  destruct (name_with_dot_dot_is_written_beside_the_output_directory
              sibling_block nl (lit "/src") [] (lit "src") (lit "deploy.sh") _ _
              Hb eq_refl Hx eq_refl eq_refl eq_refl H) as [_ Hfile].
  exact Hfile.
Defined.

(** ** The configuration of Vite *)

Lemma startsWith_split p : forall s, startsWith p s = true -> s = p ++ skipn (length p) s.
Proof.
  induction p as [|x p IH]; intros s H; [reflexivity|].
  destruct s as [|y s]; [discriminate|]. cbn in H. apply andb_prop in H. destruct H as [Hc H].
  unfold chr_eqb in Hc. apply Ascii.eqb_eq in Hc. subst y.
  cbn [length skipn app]. f_equal. apply IH, H.
Qed.

Lemma indexOf_split p : forall s i,
  indexOf p s = Some i -> s = firstn i s ++ p ++ skipn (i + length p) s.
Proof.
  induction s as [|c s IH]; intros i H; cbn [indexOf] in H.
  - destruct (startsWith p []) eqn:E; [|discriminate]. injection H as <-.
    apply startsWith_split in E. exact E.
  - destruct (startsWith p (c :: s)) eqn:E.
    + injection H as <-. apply startsWith_split in E. exact E.
    + destruct (indexOf p s) as [j|] eqn:Ej; [|discriminate]. injection H as <-.
      cbn [firstn skipn Nat.add app]. f_equal. apply IH. reflexivity.
Qed.

Lemma includes_indexOf p : forall s, includes p s = true -> exists i, indexOf p s = Some i.
Proof.
  induction s as [|c s IH]; intros H; cbn [includes indexOf] in *.
  - rewrite orb_false_r in H. rewrite H. eauto.
  - destruct (startsWith p (c :: s)); [eauto|]. cbn [orb] in H.
    destruct (IH H) as [i ->]. cbn. eauto.
Qed.

Lemma includes_split p s : includes p s = true -> exists a b, s = a ++ p ++ b.
Proof.
  intros H. apply includes_indexOf in H. destruct H as [i H].
  apply indexOf_split in H. eauto.
Qed.

Lemma includes_intro p : forall a b, includes p (a ++ p ++ b) = true.
Proof.
  induction a as [|c a IH]; intros b.
  - cbn [app]. destruct (p ++ b) eqn:E; cbn [includes]; rewrite <- E, startsWith_app; reflexivity.
  - cbn [app includes]. rewrite IH. apply orb_true_r.
Qed.

Lemma includes_middle p q a b : includes p q = true -> includes p (a ++ q ++ b) = true.
Proof.
  intros H. apply includes_split in H. destruct H as (u & v & ->).
  replace (a ++ (u ++ p ++ v) ++ b) with ((a ++ u) ++ p ++ (v ++ b))
    by (rewrite <- !app_assoc; reflexivity).
  apply includes_intro.
Qed.

Lemma replace_first_split p r s :
  includes p s = true -> exists a b, s = a ++ p ++ b /\ replace_first p r s = a ++ r ++ b.
Proof.
  intros H. apply includes_indexOf in H. destruct H as [i H].
  unfold replace_first. rewrite H. apply indexOf_split in H. eauto.
Qed.

(** An occurrence of [p] in a text lies on one side of a code unit that [p]
    does not hold. *)
Lemma occurrence_beside (p : str) (c : ascii) : forall a b u v : str,
  a ++ p ++ b = u ++ c :: v -> ~ In c p ->
  (exists t, u = a ++ p ++ t) \/ (exists t, v = t ++ p ++ b).
Proof.
  intros a b u v H Hc. apply app_eq_app in H. destruct H as [l [[-> H]|[-> H]]].
  - destruct l as [|x l].
    + destruct p as [|y p].
      * left. exists []. cbn [app]. rewrite !app_nil_r. reflexivity.
      * cbn in H. injection H as <- _. exfalso. apply Hc. left. reflexivity.
    + cbn in H. injection H as <- ->. right. eauto.
  - apply app_eq_app in H. destruct H as [m [[-> H]|[-> H]]].
    + destruct m as [|x m].
      * left. exists []. rewrite !app_nil_r. reflexivity.
      * cbn in H. injection H as <- _. exfalso. apply Hc, in_or_app. right. left. reflexivity.
    + left. exists m. reflexivity.
Qed.

(** What is inserted behind a code unit that [p] does not hold, or at the
    start of the text, removes no occurrence of [p]. *)
Lemma includes_insert p x ins y :
  includes p (x ++ y) = true ->
  x = [] \/ (exists x' c, x = x' ++ [c] /\ ~ In c p) ->
  includes p (x ++ ins ++ y) = true.
Proof.
  intros H Hx. apply includes_split in H. destruct H as (a & b & H).
  destruct Hx as [->|(x' & c & -> & Hc)].
  - cbn [app] in *. rewrite H.
    replace (ins ++ a ++ p ++ b) with ((ins ++ a) ++ p ++ b) by (rewrite <- app_assoc; reflexivity).
    apply includes_intro.
  - rewrite <- app_assoc in H. cbn [app] in H. symmetry in H.
    destruct (occurrence_beside _ _ _ _ _ _ H Hc) as [[t ->]|[t ->]].
    + rewrite <- !app_assoc. apply includes_intro.
    + replace ((x' ++ [c]) ++ ins ++ t ++ p ++ b) with (((x' ++ [c]) ++ ins ++ t) ++ p ++ b)
        by (rewrite <- !app_assoc; reflexivity).
      apply includes_intro.
Qed.

(** A replacement that keeps the pattern and adds to it is such an
    insertion. *)
Lemma includes_replace_first p q extra c s :
  includes q s = true -> In c q -> ~ In c p -> includes p s = true ->
  (exists q', q = q' ++ [c]) ->
  includes p (replace_first q (q ++ extra) s) = true.
Proof.
  intros Hq _ Hc Hp [q' Eq].
  destruct (replace_first_split q (q ++ extra) s Hq) as (a & b & Es & ->).
  replace (a ++ (q ++ extra) ++ b) with ((a ++ q) ++ extra ++ b)
    by (rewrite <- !app_assoc; reflexivity).
  apply includes_insert.
  - rewrite <- app_assoc, <- Es. exact Hp.
  - right. exists (a ++ q'), c. split; [|exact Hc]. rewrite Eq, app_assoc. reflexivity.
Qed.

(** What is inserted between two code units that [p] does not hold, and that
    does not hold [p] itself, adds no occurrence of [p]. *)
Lemma includes_insert_none (p x y mid : str) (f l : ascii) :
  includes p (x ++ y) = false -> ~ In f p -> ~ In l p -> includes p mid = false ->
  includes p (x ++ (f :: mid ++ [l]) ++ y) = false.
Proof.
  intros Hxy Hf Hl Hmid.
  destruct (includes p (x ++ (f :: mid ++ [l]) ++ y)) eqn:E; [|reflexivity].
  apply includes_split in E. destruct E as (a & b & E). symmetry in E.
  cbn [app] in E. rewrite <- app_assoc in E. cbn [app] in E.
  destruct (occurrence_beside _ _ _ _ _ _ E Hf) as [[t ->]|[t E2]].
  - rewrite <- !app_assoc, includes_intro in Hxy. discriminate.
  - symmetry in E2. destruct (occurrence_beside _ _ _ _ _ _ E2 Hl) as [[t' ->]|[t' ->]].
    + rewrite includes_intro in Hmid. discriminate.
    + replace (x ++ t' ++ p ++ b) with ((x ++ t') ++ p ++ b) in Hxy
        by (rewrite <- app_assoc; reflexivity).
      rewrite includes_intro in Hxy. discriminate.
Qed.

Lemma startsWith_length p : forall s, startsWith p s = true -> length p <= length s.
Proof.
  intros s H. apply startsWith_split in H. rewrite H, length_app. lia.
Qed.

Lemma indexOf_le p : forall s k, indexOf p s = Some k -> k + length p <= length s.
Proof.
  induction s as [|c s IH]; intros k H; cbn [indexOf] in H.
  - destruct (startsWith p []) eqn:E; [|discriminate]. injection H as <-.
    apply startsWith_length in E. exact E.
  - destruct (startsWith p (c :: s)) eqn:E.
    + injection H as <-. apply startsWith_length in E. exact E.
    + destruct (indexOf p s) as [j|] eqn:Ej; [|discriminate]. injection H as <-.
      specialize (IH j eq_refl). cbn [length]. lia.
Qed.

Lemma lastIndexOf_here p : forall s i,
  lastIndexOf p s = Some i -> startsWith p (skipn i s) = true.
Proof.
  induction s as [|c s IH]; intros i H; cbn [lastIndexOf] in H.
  - destruct (startsWith p []) eqn:E; [|discriminate]. injection H as <-. exact E.
  - destruct (lastIndexOf p s) as [j|] eqn:Ej.
    + injection H as <-. cbn [skipn]. apply IH. reflexivity.
    + destruct (startsWith p (c :: s)) eqn:E; [|discriminate]. injection H as <-. exact E.
Qed.

Lemma firstn_skipn_exact (a b : str) n :
  length a = n -> firstn n (a ++ b) = a /\ skipn n (a ++ b) = b.
Proof.
  intros <-. split.
  - rewrite firstn_app, Nat.sub_diag, firstn_all. cbn. apply app_nil_r.
  - rewrite skipn_app, Nat.sub_diag, skipn_all. reflexivity.
Qed.

(** The text is cut behind the line break that [indexOf] finds. *)
Lemma cut_behind_line_break s i e :
  indexOf_from nl s i = Some e ->
  exists x' y, s = (x' ++ nl) ++ y /\
               firstn (e + 1) s = x' ++ nl /\ skipn (e + 1) s = y.
Proof.
  unfold indexOf_from. intros H.
  destruct (indexOf nl (skipn i s)) as [k|] eqn:Ek; [|discriminate]. injection H as <-.
  pose proof (indexOf_le _ _ _ Ek) as Hk. pose proof (indexOf_split _ _ _ Ek) as Et.
  rewrite length_skipn in Hk. change (length nl) with 1 in *.
  set (t := skipn i s) in *.
  exists (firstn i s ++ firstn k t), (skipn (k + 1) t).
  assert (Es : s = ((firstn i s ++ firstn k t) ++ nl) ++ skipn (k + 1) t).
  { rewrite <- !app_assoc, <- Et. unfold t. symmetry. apply firstn_skipn. }
  split; [exact Es|].
  assert (Hlen : length ((firstn i s ++ firstn k t) ++ nl) = i + k + 1).
  { rewrite !length_app, !length_firstn. unfold t. rewrite length_skipn.
    change (length nl) with 1. lia. }
  rewrite Es at 1 3. apply firstn_skipn_exact, Hlen.
Qed.

(** In a text that ends with a line break, a line break follows every
    occurrence of a pattern that is not empty. *)
Lemma line_break_follows p s i :
  p <> [] -> endsWith nl s = true -> lastIndexOf p s = Some i ->
  exists e, indexOf_from nl s i = Some e.
Proof.
  intros Hp Hend Hi. apply lastIndexOf_here in Hi.
  apply startsWith_split in Hi.
  assert (Hlen : i + length p <= length s).
  { apply (f_equal (@length ascii)) in Hi. rewrite length_app, !length_skipn in Hi.
    destruct p; [contradiction|]. cbn [length] in *. lia. }
  unfold endsWith in Hend. apply startsWith_split in Hend.
  apply (f_equal (@rev ascii)) in Hend. rewrite rev_involutive, rev_app_distr in Hend.
  change (rev (rev nl)) with nl in Hend.
  set (z := rev (skipn (length (rev nl)) (rev s))) in *.
  assert (Hz : length s = length z + 1) by (rewrite Hend, length_app; reflexivity).
  assert (Hinc : includes nl (skipn i s) = true).
  { rewrite Hend, skipn_app.
    replace (i - length z) with 0 by (destruct p; [contradiction | cbn [length] in Hlen; lia]).
    cbn [skipn]. rewrite <- (app_nil_r nl) at 2. apply includes_intro. }
  apply includes_indexOf in Hinc. destruct Hinc as [k Hk].
  exists (i + k). unfold indexOf_from. rewrite Hk. reflexivity.
Qed.

Lemma absent (c : ascii) (p : str) :
  forallb (fun x => negb (chr_eqb x c)) p = true -> ~ In c p.
Proof.
  intros H Hin. rewrite forallb_forall in H. specialize (H c Hin).
  unfold chr_eqb in H. rewrite Ascii.eqb_refl in H. discriminate.
Qed.

Lemma endsWith_nl_kept (a q extra b : str) (c : ascii) :
  chr_eqb (ascii_of_nat 10) c = false ->
  endsWith nl (a ++ (q ++ [c]) ++ b) = true ->
  endsWith nl (a ++ ((q ++ [c]) ++ extra) ++ b) = true.
Proof.
  unfold endsWith. intros Hc. rewrite !rev_app_distr.
  destruct (rev b) as [|x r] eqn:Eb.
  - cbn [app rev]. rewrite <- !app_assoc. cbn [app startsWith nl rev].
    rewrite Hc. discriminate.
  - cbn [app startsWith nl rev]. auto.
Qed.

Lemma css_entry_added c2 :
  includes react_import c2 = true -> includes (lit "plugins: [react()]") c2 = true ->
  includes react_import (if negb (includes (lit "css:") c2) then add_css_entry c2 else c2) = true /\
  includes (lit "plugins: [react()]")
    (if negb (includes (lit "css:") c2) then add_css_entry c2 else c2) = true /\
  includes (lit "css:") (if negb (includes (lit "css:") c2) then add_css_entry c2 else c2) = true.
Proof.
  intros G1 G2.
  destruct (includes (lit "css:") c2) eqn:Ecss; cbn [negb]; [auto|].
  unfold add_css_entry. rewrite G2.
  change css_entry
    with (lit "plugins: [react()]"
            ++ (","%char :: nl ++ lit "  css: {" ++ nl ++ lit "    modules: false," ++ nl ++ lit "  }")).
  split; [|split].
  - apply (includes_replace_first _ _ _ "]"%char); auto.
    + right. cbn. tauto.
    + apply absent. reflexivity.
    + exists (lit "plugins: [react()"). reflexivity.
  - destruct (replace_first_split (lit "plugins: [react()]")
                (lit "plugins: [react()]"
                   ++ (","%char :: nl ++ lit "  css: {" ++ nl ++ lit "    modules: false," ++ nl ++ lit "  }"))
                c2 G2) as (u & v & _ & ->).
    apply includes_middle. reflexivity.
  - destruct (replace_first_split (lit "plugins: [react()]")
                (lit "plugins: [react()]"
                   ++ (","%char :: nl ++ lit "  css: {" ++ nl ++ lit "    modules: false," ++ nl ++ lit "  }"))
                c2 G2) as (u & v & _ & ->).
    apply includes_middle. reflexivity.
Qed.

Lemma plugins_entry_added content :
  includes (lit "import react from") content = false ->
  includes (lit "defineConfig({") content = true ->
  endsWith nl content = true ->
  includes (lit "plugins: [react()]")
    (replace_first (lit "defineConfig({") plugins_entry content) = true /\
  includes (lit "import react from")
    (replace_first (lit "defineConfig({") plugins_entry content) = false /\
  endsWith nl (replace_first (lit "defineConfig({") plugins_entry content) = true.
Proof.
  intros Himport Hdefine Hend.
  destruct (replace_first_split (lit "defineConfig({") plugins_entry content Hdefine)
    as (a & b & Ec & ->).
  split; [|split].
  - apply includes_middle. reflexivity.
  - change plugins_entry
      with (lit "defineConfig({" ++ (ascii_of_nat 10 :: lit "  plugins: [react()]" ++ [","%char])).
    replace (a ++ (lit "defineConfig({"
                     ++ ascii_of_nat 10 :: lit "  plugins: [react()]" ++ [","%char]) ++ b)
      with ((a ++ lit "defineConfig({")
              ++ (ascii_of_nat 10 :: lit "  plugins: [react()]" ++ [","%char]) ++ b)
      by (rewrite <- !app_assoc; reflexivity).
    apply includes_insert_none; try (apply absent; reflexivity); [|reflexivity].
    rewrite <- app_assoc, <- Ec. exact Himport.
  - change plugins_entry
      with ((lit "defineConfig(" ++ ["{"%char])
              ++ (ascii_of_nat 10 :: lit "  plugins: [react()],")).
    apply endsWith_nl_kept; [reflexivity|]. rewrite Ec in Hend. exact Hend.
Qed.

Lemma react_import_added c1 :
  includes (lit "plugins: [react()]") c1 = true -> endsWith nl c1 = true ->
  forall c2,
    c2 = match lastIndexOf (lit "import") c1 with
         | Some lastImportIndex =>
             match indexOf_from nl c1 lastImportIndex with
             | Some endOfImport =>
                 firstn (endOfImport + 1) c1 ++ react_import ++ skipn (endOfImport + 1) c1
             | None => c1
             end
         | None => react_import ++ c1
         end ->
    includes react_import c2 = true /\ includes (lit "plugins: [react()]") c2 = true.
Proof.
  intros F1 F3 c2 ->.
  destruct (lastIndexOf (lit "import") c1) as [i|] eqn:Ei.
  - destruct (line_break_follows (lit "import") c1 i ltac:(discriminate) F3 Ei) as [e He].
    rewrite He. destruct (cut_behind_line_break _ _ _ He) as (x' & y & Es & -> & ->). split.
    + apply includes_middle. rewrite <- (app_nil_r react_import) at 2.
      apply (includes_intro react_import []).
    + apply includes_insert; [rewrite <- Es; exact F1|].
      right. exists x', (ascii_of_nat 10). split; [reflexivity|]. apply absent. reflexivity.
  - split.
    + rewrite <- (app_nil_r c1). apply (includes_intro react_import []).
    + apply (includes_insert _ [] react_import c1); [exact F1 | left; reflexivity].
Qed.

(** What the update makes of a configuration that calls [defineConfig], ends
    with a line break and names neither the plugin nor an import of
    [react]. *)
Lemma updated_bare_config content :
  includes (lit "@vitejs/plugin-react") content = false ->
  includes (lit "import react from") content = false ->
  includes (lit "defineConfig({") content = true ->
  endsWith nl content = true ->
  includes react_import (updated_config content) = true /\
  includes (lit "plugins: [react()]") (updated_config content) = true /\
  includes (lit "css:") (updated_config content) = true.
Proof.
  intros Hplugin Himport Hdefine Hend.
  destruct (plugins_entry_added content Himport Hdefine Hend) as (F1 & F2 & F3).
  unfold updated_config. rewrite Hplugin. cbn [negb]. cbv zeta.
  unfold add_react_plugin. rewrite Hdefine. cbv zeta. rewrite F2. cbn [negb].
  destruct (react_import_added _ F1 F3 _ eq_refl) as [G1 G2].
  apply css_entry_added; assumption.
Qed.

Lemma set_entry_same s c : forall es, lookup_entry s es = Some c -> set_entry s c es = es.
Proof.
  induction es as [|[n c'] es IH]; cbn; [discriminate|].
  destruct (str_eqb n s); [intros [= ->]; reflexivity|].
  intros H. rewrite IH by exact H. reflexivity.
Qed.

Lemma fs_write_same segs : forall n c,
  fs_lookup n segs = Some (File c) -> fs_write n segs c = inl n.
Proof.
  induction segs as [|s segs IH]; intros n c H; cbn in *.
  - injection H as ->. reflexivity.
  - destruct n as [|es]; [discriminate|].
    destruct (lookup_entry s es) as [ch|] eqn:El; [|discriminate].
    rewrite (IH _ _ H), set_entry_same by exact El. reflexivity.
Qed.

Lemma fs_write_existing segs : forall n c c',
  fs_lookup n segs = Some (File c) -> exists n', fs_write n segs c' = inl n'.
Proof.
  induction segs as [|s segs IH]; intros n c c' H; cbn in *.
  - injection H as ->. eauto.
  - destruct n as [|es]; [discriminate|].
    destruct (lookup_entry s es) as [ch|] eqn:El; [|discriminate].
    destruct (IH _ _ c' H) as [n' ->]. eauto.
Qed.

Lemma fs_write_new segs name c : forall n es,
  fs_lookup n segs = Some (Dir es) -> fs_lookup n (segs ++ [name]) = None ->
  exists n', fs_write n (segs ++ [name]) c = inl n'.
Proof.
  induction segs as [|s segs IH]; intros n es H Hnew; cbn [app] in *.
  - cbn in H. injection H as ->. cbn in Hnew |- *.
    destruct (lookup_entry name es); [discriminate | eauto].
  - cbn in H, Hnew |- *. destruct n as [|es0]; [discriminate|].
    destruct (lookup_entry s es0) as [ch|]; [|discriminate].
    destruct (IH _ _ H Hnew) as [n' ->]. eauto.
Qed.

Lemma join_with_last name : forall segs,
  exists pre, join_with [slash] (segs ++ [name]) = pre ++ name.
Proof.
  induction segs as [|s segs [pre IH]].
  - exists []. reflexivity.
  - exists (s ++ [slash] ++ pre). cbn [app].
    destruct (segs ++ [name]) as [|t rest] eqn:E; [destruct segs; discriminate|].
    cbn [join_with]. cbn [join_with] in IH. rewrite IH, <- !app_assoc. reflexivity.
Qed.

(** The path of a file named by a plain name, below an absolute directory:
    it does not end with a slash, and its segments are those of the
    directory and the name. *)
Lemma path_of_file dir name :
  startsWith [slash] dir = true -> plain_name name ->
  endsWith [slash] (path_join [dir; name]) = false /\
  path_segments (path_join [dir; name]) = path_segments dir ++ [name].
Proof.
  intros Habs Hname. split.
  - pose proof Hname as (Hne & _ & _ & Hslash).
    destruct (exists_last Hne) as (n0 & c & ->).
    assert (Hc : chr_eqb slash c = false).
    { rewrite forallb_app in Hslash. apply andb_prop in Hslash. destruct Hslash as [_ Hc].
      cbn in Hc. unfold not_slash, is_slash, chr_eqb in *.
      rewrite Ascii.eqb_sym. destruct (Ascii.eqb c slash); [discriminate | reflexivity]. }
    assert (Hend : forall pre, endsWith [slash] (pre ++ n0 ++ [c]) = false).
    { intros pre. unfold endsWith. rewrite !app_assoc, rev_app_distr. cbn [rev app startsWith].
      rewrite Hc. reflexivity. }
    set (name := n0 ++ [c]) in *.
    unfold path_join. cbn [filter].
    destruct dir as [|d dir]; [discriminate|]. cbn [str_eqb negb].
    replace (negb (str_eqb name [])) with true
      by (destruct name; [contradiction | reflexivity]).
    cbn [join_with]. unfold path_normalize. cbn [app].
    change (d :: dir ++ slash :: name) with ((d :: dir) ++ slash :: name).
    rewrite (startsWith_longer [slash] (d :: dir) _ Habs).
    pose proof (Hend ((d :: dir) ++ [slash])) as Hend'. rewrite <- app_assoc in Hend'.
    cbn [app] in Hend'. cbn [app]. rewrite Hend'. cbn [negb].
    change (d :: dir ++ slash :: name) with ((d :: dir) ++ slash :: name).
    rewrite split_on_app, (split_on_plain name) by exact Hslash.
    unfold normalize_segments. rewrite fold_left_app. cbn [fold_left].
    rewrite normalize_step_plain by exact Hname.
    cbn [rev].
    destruct (join_with_last name
                (rev (fold_left (normalize_step false) (split_on slash (d :: dir)) [])))
      as [pre ->].
    destruct (pre ++ name) as [|b body] eqn:Eb;
      [destruct pre; [cbn in Eb; contradiction | discriminate]|].
    rewrite <- Eb. apply (Hend (slash :: pre)).
  - apply (path_segments_join dir [name]); [exact Habs | discriminate | auto].
Qed.

Lemma filter_existing_run projectDir files w :
  filter_existing projectDir files w
    = (Ok (filter (fun file => on_disk (w_fs w) (path_join [projectDir; file])) files), w).
Proof.
  induction files as [|file files IH]; [reflexivity|].
  cbn [filter_existing filter]. unfold bind, existsSync, ret, on_disk in *. rewrite IH.
  destruct (fs_lookup (w_fs w) (path_segments (path_join [projectDir; file]))); reflexivity.
Qed.

(** Without a configuration file the helper writes one. *)
Lemma ensureViteConfig_without projectDir w :
  config_in_use (w_fs w) projectDir = None ->
  ensureViteConfig projectDir w
    = writeFileSync (path_join [projectDir; lit "vite.config.js"]) viteConfig w.
Proof.
  unfold config_in_use, ensureViteConfig, bind. rewrite filter_existing_run.
  cbn [find filter].
  destruct (on_disk (w_fs w) (path_join [projectDir; lit "vite.config.js"])); [discriminate|].
  destruct (on_disk (w_fs w) (path_join [projectDir; lit "vite.config.ts"])); [discriminate|].
  reflexivity.
Qed.

(** With a configuration file the helper reads it and writes it back,
    updated. *)
Lemma ensureViteConfig_with projectDir configFile w :
  config_in_use (w_fs w) projectDir = Some configFile ->
  plain_name configFile /\
  ensureViteConfig projectDir w
    = (configContent <- readFileSync_utf8 (path_join [projectDir; configFile]) ;;
       writeFileSync (path_join [projectDir; configFile]) (updated_config configContent)) w.
Proof.
  unfold config_in_use, ensureViteConfig. unfold bind at 1. rewrite filter_existing_run.
  cbn [find filter].
  destruct (on_disk (w_fs w) (path_join [projectDir; lit "vite.config.js"])).
  - intros [= <-]. split; [|reflexivity]. repeat split; try reflexivity; discriminate.
  - destruct (on_disk (w_fs w) (path_join [projectDir; lit "vite.config.ts"])); [|discriminate].
    intros [= <-]. split; [|reflexivity]. repeat split; try reflexivity; discriminate.
Qed.

Lemma set_fs_same w : set_fs (w_fs w) w = (Ok tt, w).
Proof. destruct w. reflexivity. Qed.

Lemma readFileSync_utf8_file p content w :
  fs_lookup (w_fs w) (path_segments p) = Some (File content) ->
  readFileSync_utf8 p w = (Ok content, w).
Proof.
  intros H. unfold readFileSync_utf8, bind, get_world. rewrite H. reflexivity.
Qed.

Lemma writeFileSync_run p content fs' w :
  endsWith [slash] p = false -> fs_write (w_fs w) (path_segments p) content = inl fs' ->
  writeFileSync p content w = set_fs fs' w.
Proof.
  intros Hend H. unfold writeFileSync, bind, get_world. rewrite Hend, H. reflexivity.
Qed.

(** Reading an existing file and writing a text back to it. *)
Lemma rewrite_file p content updated w :
  endsWith [slash] p = false ->
  fs_lookup (w_fs w) (path_segments p) = Some (File content) ->
  exists w',
    (configContent <- readFileSync_utf8 p ;; writeFileSync p (updated configContent)) w
      = (Ok tt, w') /\
    fs_lookup (w_fs w') (path_segments p) = Some (File (updated content)) /\
    (updated content = content -> w' = w).
Proof.
  intros Hend Hfile.
  destruct (fs_write_existing _ _ _ (updated content) Hfile) as [fs' Hw].
  unfold bind. rewrite (readFileSync_utf8_file _ _ _ Hfile).
  rewrite (writeFileSync_run _ _ _ _ Hend Hw).
  eexists. split; [reflexivity|]. split.
  - cbn. eapply fs_write_lookup, Hw.
  - intros E. rewrite E, (fs_write_same _ _ _ Hfile) in Hw. injection Hw as <-.
    apply (f_equal snd (set_fs_same w)).
Qed.

(** *** What the helper does to a project *)

(** X24.  In a project directory without [vite.config.js] and [vite.config.ts] the
    helper creates [vite.config.js] with the standard configuration, and a
    second run leaves everything as the first one left it. *)
Theorem vite_config_is_created_once (projectDir : str) (es : list (str * node)) (w : World) :
  startsWith [slash] projectDir = true ->
  fs_lookup (w_fs w) (path_segments projectDir) = Some (Dir es) ->
  config_in_use (w_fs w) projectDir = None ->
  exists w',
    ensureViteConfig projectDir w = (Ok tt, w') /\
    fs_lookup (w_fs w') (path_segments projectDir ++ [lit "vite.config.js"])
      = Some (File viteConfig) /\
    ensureViteConfig projectDir w' = (Ok tt, w').
Proof.
  intros Habs Hdir Hnone.
  assert (Hjs : plain_name (lit "vite.config.js"))
    by (repeat split; try reflexivity; discriminate).
  destruct (path_of_file projectDir _ Habs Hjs) as [Hend Hsegs].
  assert (Hnew : fs_lookup (w_fs w) (path_segments projectDir ++ [lit "vite.config.js"]) = None).
  { unfold config_in_use in Hnone. cbn [find] in Hnone. unfold on_disk in Hnone.
    rewrite Hsegs in Hnone.
    destruct (fs_lookup (w_fs w) (path_segments projectDir ++ [lit "vite.config.js"]));
      [discriminate | reflexivity]. }
  destruct (fs_write_new _ _ viteConfig _ _ Hdir Hnew) as [fs' Hw].
  rewrite ensureViteConfig_without by exact Hnone.
  rewrite <- Hsegs in Hw. rewrite (writeFileSync_run _ _ _ _ Hend Hw). rewrite Hsegs in Hw.
  eexists. split; [reflexivity|].
  pose proof (fs_write_lookup _ _ _ _ Hw) as Hfile. split; [exact Hfile|].
  match goal with |- ensureViteConfig _ ?w1 = _ => set (w' := w1) end.
  assert (Huse : config_in_use (w_fs w') projectDir = Some (lit "vite.config.js")).
  { unfold config_in_use. cbn [find]. unfold on_disk. rewrite Hsegs.
    unfold w'. cbn [w_fs]. rewrite Hfile. reflexivity. }
  destruct (ensureViteConfig_with _ _ _ Huse) as [_ ->].
  destruct (rewrite_file _ viteConfig updated_config w' Hend) as (w2 & -> & _ & Hsame).
  - rewrite Hsegs. exact Hfile.
  - rewrite Hsame; reflexivity.
Qed.

Lemma vite_config_is_created_once_witness :
  exists w',
    ensureViteConfig (lit "/src") sample_world = (Ok tt, w') /\
    fs_lookup (w_fs w') [lit "src"; lit "vite.config.js"] = Some (File viteConfig) /\
    ensureViteConfig (lit "/src") w' = (Ok tt, w').
Proof.
  exact (vite_config_is_created_once (lit "/src") _ sample_world eq_refl eq_refl eq_refl).
Defined.

(** X25.  A configuration that names the plugin and has a [css:] entry is written
    back as it is: the run changes nothing. *)
Theorem complete_vite_config_is_left_alone
    (projectDir configFile content : str) (w : World) :
  startsWith [slash] projectDir = true ->
  config_in_use (w_fs w) projectDir = Some configFile ->
  fs_lookup (w_fs w) (path_segments projectDir ++ [configFile]) = Some (File content) ->
  includes (lit "@vitejs/plugin-react") content = true ->
  includes (lit "css:") content = true ->
  ensureViteConfig projectDir w = (Ok tt, w).
Proof.
  intros Habs Huse Hfile Hplugin Hcss.
  destruct (ensureViteConfig_with _ _ _ Huse) as [Hname ->].
  destruct (path_of_file projectDir _ Habs Hname) as [Hend Hsegs].
  rewrite <- Hsegs in Hfile.
  destruct (rewrite_file _ content updated_config w Hend Hfile) as (w2 & -> & _ & Hsame).
  rewrite Hsame; [reflexivity|].
  unfold updated_config. rewrite Hplugin. cbn [negb]. rewrite Hcss. reflexivity.
Qed.

Lemma complete_vite_config_is_left_alone_witness :
  ensureViteConfig (lit "/p") (config_world viteConfig) = (Ok tt, config_world viteConfig).
Proof.
  exact (complete_vite_config_is_left_alone (lit "/p") (lit "vite.config.ts") viteConfig
           (config_world viteConfig) eq_refl eq_refl eq_refl eq_refl eq_refl).
Defined.

(** X26.  A configuration that calls [defineConfig], ends with a line break and
    names neither the plugin nor an import of [react] is completed: after the
    run the file holds the import of the plugin, the [plugins] entry and a
    [css:] entry. *)
Theorem bare_vite_config_is_completed
    (projectDir configFile content : str) (w : World) :
  startsWith [slash] projectDir = true ->
  config_in_use (w_fs w) projectDir = Some configFile ->
  fs_lookup (w_fs w) (path_segments projectDir ++ [configFile]) = Some (File content) ->
  includes (lit "@vitejs/plugin-react") content = false ->
  includes (lit "import react from") content = false ->
  includes (lit "defineConfig({") content = true ->
  endsWith nl content = true ->
  exists w' updated,
    ensureViteConfig projectDir w = (Ok tt, w') /\
    fs_lookup (w_fs w') (path_segments projectDir ++ [configFile]) = Some (File updated) /\
    includes react_import updated = true /\
    includes (lit "plugins: [react()]") updated = true /\
    includes (lit "css:") updated = true.
Proof.
  intros Habs Huse Hfile Hplugin Himport Hdefine Hend.
  destruct (ensureViteConfig_with _ _ _ Huse) as [Hname ->].
  destruct (path_of_file projectDir _ Habs Hname) as [Hslash Hsegs].
  rewrite <- Hsegs in Hfile |- *.
  destruct (rewrite_file _ content updated_config w Hslash Hfile) as (w2 & -> & Hnew & _).
  exists w2, (updated_config content). split; [reflexivity|]. split; [exact Hnew|].
  apply updated_bare_config; assumption.
Qed.

Lemma bare_vite_config_is_completed_witness :
  exists w' updated,
    ensureViteConfig (lit "/p") (config_world bare_config) = (Ok tt, w') /\
    fs_lookup (w_fs w') [lit "p"; lit "vite.config.ts"] = Some (File updated) /\
    includes react_import updated = true /\
    includes (lit "plugins: [react()]") updated = true /\
    includes (lit "css:") updated = true.
Proof.
  exact (bare_vite_config_is_completed (lit "/p") (lit "vite.config.ts") bare_config
           (config_world bare_config) eq_refl eq_refl eq_refl eq_refl eq_refl eq_refl eq_refl).
Defined.

(** ** The style files of the components *)

Lemma files_kept_refl w : files_kept w w.
Proof. intros segs c H. exact H. Qed.

Lemma files_kept_trans a b c : files_kept a b -> files_kept b c -> files_kept a c.
Proof. intros H1 H2 segs x H. apply H2, H1, H. Qed.

Lemma still_on_disk_refl w : still_on_disk w w.
Proof. intros segs H. exact H. Qed.

Lemma still_on_disk_trans a b c : still_on_disk a b -> still_on_disk b c -> still_on_disk a c.
Proof. intros H1 H2 segs H. apply H2, H1, H. Qed.

(** Writing a file and making directories take nothing away. *)
Lemma fs_write_still segs' : forall n n' c' segs,
  fs_write n segs' c' = inl n' -> fs_lookup n segs <> None -> fs_lookup n' segs <> None.
Proof.
  induction segs' as [|s segs' IH]; intros n n' c' segs H Hf; cbn in H.
  - destruct n; [|discriminate]. injection H as <-.
    destruct segs; [discriminate | contradiction].
  - destruct n as [|es]; [discriminate|].
    destruct segs as [|t segs]; [destruct (lookup_entry s es) as [ch|];
      [destruct (fs_write ch segs' c'); [|discriminate] | destruct segs'; [|discriminate]];
      injection H as <-; discriminate|].
    cbn in Hf. destruct (lookup_entry t es) as [cht|] eqn:Et; [|contradiction].
    destruct (list_eq_dec ascii_dec t s) as [->|Hts].
    + rewrite Et in H.
      destruct (fs_write cht segs' c') as [ch'|e] eqn:Ew; [|discriminate].
      injection H as <-. cbn. rewrite lookup_set_same. eapply IH; eauto.
    + assert (Hkeep : forall ch, fs_lookup (Dir (set_entry s ch es)) (t :: segs) <> None).
      { intros ch. cbn. rewrite lookup_set_other, Et; auto. }
      destruct (lookup_entry s es) as [ch|].
      * destruct (fs_write ch segs' c') as [ch'|e]; [|discriminate].
        injection H as <-. apply Hkeep.
      * destruct segs'; [|discriminate]. injection H as <-. apply Hkeep.
Qed.

Lemma fs_mkdirp_still segs' : forall n n' segs,
  fs_mkdirp n segs' = Some n' -> fs_lookup n segs <> None -> fs_lookup n' segs <> None.
Proof.
  induction segs' as [|s segs' IH]; intros n n' segs H Hf.
  - destruct n; cbn in H; [discriminate|]. injection H as <-. exact Hf.
  - destruct n as [|es]; cbn in H; [discriminate|].
    destruct (fs_mkdirp match lookup_entry s es with
                        | Some c => c
                        | None => Dir []
                        end segs') as [ch'|] eqn:Em; [|discriminate].
    injection H as <-.
    destruct segs as [|t segs]; [discriminate|]. cbn in Hf.
    destruct (lookup_entry t es) as [cht|] eqn:Et; [|contradiction].
    destruct (list_eq_dec ascii_dec t s) as [->|Hne].
    + rewrite Et in Em. cbn. rewrite lookup_set_same. eapply IH; eauto.
    + cbn. rewrite lookup_set_other, Et; auto.
Qed.

Lemma writeFileSync_still p content : preserved still_on_disk (writeFileSync p content).
Proof.
  intros w. unfold writeFileSync, bind, get_world, set_fs, throw.
  destruct (endsWith [slash] p); [apply still_on_disk_refl|].
  destruct (fs_write (w_fs w) (path_segments p) content) as [fs'|e] eqn:E;
    [|apply still_on_disk_refl].
  intros segs H. cbn. eapply fs_write_still; eauto.
Qed.

Lemma mkdirSync_still p : preserved still_on_disk (mkdirSync_recursive p).
Proof.
  intros w. unfold mkdirSync_recursive, bind, get_world, set_fs, throw.
  destruct (fs_mkdirp (w_fs w) (path_segments p)) as [fs'|] eqn:E;
    [|apply still_on_disk_refl].
  intros segs H. cbn. eapply fs_mkdirp_still; eauto.
Qed.

Lemma mkdirSync_kept p : preserved files_kept (mkdirSync_recursive p).
Proof.
  intros w. unfold mkdirSync_recursive, bind, get_world, set_fs, throw.
  destruct (fs_mkdirp (w_fs w) (path_segments p)) as [fs'|] eqn:E;
    [|apply files_kept_refl].
  intros segs c H. cbn. eapply fs_mkdirp_other; eauto.
Qed.

(** A write to a path that held nothing in the world [w1] changes no file of
    [w1]. *)
Lemma writeFileSync_kept p content w1 w :
  on_disk (w_fs w1) p = false -> files_kept w1 w ->
  files_kept w1 (snd (writeFileSync p content w)).
Proof.
  intros Hnew Hkept. unfold writeFileSync, bind, get_world, set_fs, throw.
  destruct (endsWith [slash] p); [exact Hkept|].
  destruct (fs_write (w_fs w) (path_segments p) content) as [fs'|e] eqn:E; [|exact Hkept].
  intros segs c H. cbn. eapply fs_write_other; [exact E | | apply Hkept, H].
  intros ->. unfold on_disk in Hnew. rewrite H in Hnew. discriminate.
Qed.

Lemma writeFileSync_on_disk p content w w' :
  writeFileSync p content w = (Ok tt, w') -> on_disk (w_fs w') p = true.
Proof.
  intros H. apply writeFileSync_content in H. unfold on_disk. rewrite H. reflexivity.
Qed.

Lemma on_disk_still w w' p :
  still_on_disk w w' -> on_disk (w_fs w) p = true -> on_disk (w_fs w') p = true.
Proof.
  unfold on_disk. intros H Hp. specialize (H (path_segments p)).
  destruct (fs_lookup (w_fs w) (path_segments p)); [|discriminate].
  destruct (fs_lookup (w_fs w') (path_segments p)); [reflexivity|].
  exfalso. apply H; [discriminate | reflexivity].
Qed.

Ltac still := follow still_on_disk still_on_disk_refl still_on_disk_trans.

Lemma still_existsSync p : preserved still_on_disk (existsSync p).
Proof. intros w. apply still_on_disk_refl. Qed.

Lemma still_readFileSync p : preserved still_on_disk (readFileSync_utf8 p).
Proof. unfold readFileSync_utf8. still; intros w; apply still_on_disk_refl. Qed.

Lemma still_readdirSync p : preserved still_on_disk (readdirSync p).
Proof. unfold readdirSync. still; intros w; apply still_on_disk_refl. Qed.

#[export] Hint Resolve still_existsSync still_readFileSync still_readdirSync
  writeFileSync_still mkdirSync_still : steps.

(** The collection only reads: it ends in the world in which it started, with
    the imports whose file is not on disk added to the list. *)
Lemma collect_missing_run projectDir componentsDir content : forall fuel lastIndex acc w,
  exists items,
    collect_missing fuel projectDir componentsDir content lastIndex acc w = (Ok items, w) /\
    (forall f p, In (f, p) items -> In (f, p) acc \/ on_disk (w_fs w) p = false) /\
    (forall f p, In (f, p) acc -> In (f, p) items) /\
    (forall m, In m (style_imports_from fuel content lastIndex) ->
       on_disk (w_fs w) (importedStylePath projectDir componentsDir (group_text m 2)) = true \/
       In (group_text m 2, importedStylePath projectDir componentsDir (group_text m 2)) items).
Proof.
  induction fuel as [|fuel IH]; intros lastIndex acc w;
    cbn [collect_missing style_imports_from].
  - exists acc. repeat split; auto; intros ? [].
  - destruct (regex_exec styleImportRegex content lastIndex) as [m|].
    + cbv zeta. unfold bind. rewrite existsSync_run.
      set (p := importedStylePath projectDir componentsDir (group_text m 2)).
      destruct (on_disk (w_fs w) p) eqn:Ep.
      * destruct (IH (m_end m) acc w) as (items & -> & H1 & H2 & H3).
        exists items. repeat split; auto.
        intros m' [<-|Hin]; [left; exact Ep | apply H3, Hin].
      * destruct (IH (m_end m) (acc ++ [(group_text m 2, p)]) w) as (items & -> & H1 & H2 & H3).
        exists items. split; [reflexivity|]. split; [|split].
        -- intros f q Hin. destruct (H1 f q Hin) as [Hacc|Hq]; [|right; exact Hq].
           apply in_app_or in Hacc. destruct Hacc as [Hacc|[[= <- <-]|[]]]; auto.
        -- intros f q Hin. apply H2, in_or_app. left. exact Hin.
        -- intros m' [<-|Hin]; [|apply H3, Hin].
           right. apply H2, in_or_app. right. left. reflexivity.
    + exists acc. repeat split; auto; intros ? [].
Qed.

Lemma still_create_missing baseName missingImports :
  preserved still_on_disk (create_missing baseName missingImports).
Proof.
  induction missingImports as [|[f p] items IH]; cbn [create_missing]; still.
Qed.

#[export] Hint Resolve still_create_missing : steps.

(** The files created are on disk afterwards. *)
Lemma create_missing_on_disk baseName : forall missingImports w w',
  create_missing baseName missingImports w = (Ok tt, w') ->
  forall f p, In (f, p) missingImports -> on_disk (w_fs w') p = true.
Proof.
  induction missingImports as [|[f0 p0] items IH]; intros w w' H f p Hin; [destruct Hin|].
  cbn [create_missing] in H. cbv zeta in H. unfold bind at 1 in H.
  rewrite existsSync_run in H. unfold bind at 1 in H.
  destruct ((if on_disk (w_fs w) (path_dirname p0) then ret tt
             else mkdirSync_recursive (path_dirname p0)) w) as [[[]|e] w1]; [|discriminate].
  unfold bind at 1 in H.
  destruct (writeFileSync p0 (cssContent (strip_source_extension baseName)) w1)
    as [[[]|e] w2] eqn:Ew; [|discriminate].
  destruct Hin as [[= <- <-]|Hin]; [|eapply IH; eauto].
  apply writeFileSync_on_disk in Ew.
  eapply on_disk_still; [|exact Ew].
  pose proof (still_create_missing baseName items w2) as Hs. rewrite H in Hs. exact Hs.
Qed.

(** The creation of files that were not on disk in the world [w1] changes no
    file of [w1]. *)
Lemma create_missing_kept baseName w1 : forall missingImports w,
  files_kept w1 w ->
  (forall f p, In (f, p) missingImports -> on_disk (w_fs w1) p = false) ->
  files_kept w1 (snd (create_missing baseName missingImports w)).
Proof.
  induction missingImports as [|[f0 p0] items IH]; intros w Hkept Hnew; [exact Hkept|].
  cbn [create_missing]. cbv zeta. unfold bind at 1. rewrite existsSync_run. unfold bind at 1.
  assert (H1 : files_kept w1 (snd ((if on_disk (w_fs w) (path_dirname p0) then ret tt
                                    else mkdirSync_recursive (path_dirname p0)) w))).
  { destruct (on_disk (w_fs w) (path_dirname p0)); [exact Hkept|].
    eapply files_kept_trans; [exact Hkept | apply mkdirSync_kept]. }
  destruct ((if on_disk (w_fs w) (path_dirname p0) then ret tt
             else mkdirSync_recursive (path_dirname p0)) w) as [[[]|e] w2]; [|exact H1].
  cbn [snd] in H1. unfold bind at 1.
  pose proof (writeFileSync_kept p0 (cssContent (strip_source_extension baseName)) w1 w2
                (Hnew f0 p0 (or_introl eq_refl)) H1) as H2.
  destruct (writeFileSync p0 (cssContent (strip_source_extension baseName)) w2)
    as [[[]|e] w3]; [|exact H2].
  apply IH; [exact H2|]. intros f p Hin. eapply Hnew. right. exact Hin.
Qed.

(** A style import found by the pattern ends after the place where the
    search started and within the text, so that the loop ends by a failed
    search: more fuel than the length of the text changes nothing. *)
Lemma style_import_found content lastIndex m :
  regex_exec styleImportRegex content lastIndex = Some m ->
  lastIndex < m_end m /\ m_end m <= length content.
Proof.
  intros H. apply regex_exec_sound in H.
  destruct H as (s' & y & Hi & Hin & Hlen & He & Hg).
  pose proof (matcher_ok dot 2 _ _ _ Hin) as (w & E & I & L & _).
  cbn [rest endIndex captures] in *.
  assert (Hw : length s' = length w + length (rest y)).
  { rewrite E, length_app. reflexivity. }
  change (min_len styleImportRegex) with 12 in L. lia.
Qed.

Lemma style_imports_fuel fuel1 : forall fuel2 content lastIndex,
  length content - lastIndex < fuel1 ->
  length content - lastIndex < fuel2 ->
  style_imports_from fuel1 content lastIndex = style_imports_from fuel2 content lastIndex.
Proof.
  induction fuel1 as [|fuel1 IH]; intros fuel2 content lastIndex H1 H2; [lia|].
  destruct fuel2 as [|fuel2]; [lia|]. cbn [style_imports_from].
  destruct (regex_exec styleImportRegex content lastIndex) as [m|] eqn:E; auto.
  apply style_import_found in E. destruct E as (Hlt & Hle).
  f_equal. apply IH; lia.
Qed.

Lemma readFileSync_world p w : snd (readFileSync_utf8 p w) = w.
Proof.
  unfold readFileSync_utf8, bind, get_world.
  destruct (fs_lookup (w_fs w) (path_segments p)) as [[c|es]|]; reflexivity.
Qed.

Lemma readdirSync_world p w : snd (readdirSync p w) = w.
Proof.
  unfold readdirSync, bind, get_world.
  destruct (fs_lookup (w_fs w) (path_segments p)) as [[c|es]|]; reflexivity.
Qed.

Lemma kept_check_component projectDir componentsDir componentFile :
  preserved files_kept (check_component projectDir componentsDir componentFile).
Proof.
  intros w. unfold check_component. cbv zeta. unfold bind at 1.
  pose proof (readFileSync_world (path_join [componentsDir; componentFile]) w) as Hw.
  destruct (readFileSync_utf8 (path_join [componentsDir; componentFile]) w)
    as [[content|e] w1]; cbn [snd] in Hw; subst w1; [|apply files_kept_refl].
  unfold bind at 1.
  destruct (collect_missing_run projectDir componentsDir content
              (S (length content)) 0 [] w) as (items & -> & Hnew & _).
  apply create_missing_kept; [apply files_kept_refl|].
  intros f p Hin. destruct (Hnew f p Hin) as [[]|H]. exact H.
Qed.

Lemma kept_check_components projectDir componentsDir componentFiles :
  preserved files_kept (check_components projectDir componentsDir componentFiles).
Proof.
  induction componentFiles as [|file files IH]; cbn [check_components].
  - intros w. apply files_kept_refl.
  - apply (preserved_bind files_kept files_kept_trans);
      [apply kept_check_component | intros _; exact IH].
Qed.

Lemma kept_check_directory projectDir componentsDir :
  preserved files_kept (check_directory projectDir componentsDir).
Proof.
  intros w. unfold check_directory. unfold bind at 1. rewrite existsSync_run.
  destruct (on_disk (w_fs w) componentsDir); cbn [negb]; [|apply files_kept_refl].
  unfold bind at 1. pose proof (readdirSync_world componentsDir w) as Hw.
  destruct (readdirSync componentsDir w) as [[files|e] w1]; cbn [snd] in Hw; subst w1;
    [|apply files_kept_refl].
  apply kept_check_components.
Qed.

Lemma kept_check_directories projectDir dirs :
  preserved files_kept (check_directories projectDir dirs).
Proof.
  induction dirs as [|d dirs IH]; cbn [check_directories].
  - intros w. apply files_kept_refl.
  - apply (preserved_bind files_kept files_kept_trans);
      [apply kept_check_directory | intros _; exact IH].
Qed.

Lemma still_check_component projectDir componentsDir componentFile :
  preserved still_on_disk (check_component projectDir componentsDir componentFile).
Proof.
  unfold check_component. cbv zeta.
  apply (preserved_bind still_on_disk still_on_disk_trans); [auto with steps|].
  intros content. apply (preserved_bind still_on_disk still_on_disk_trans);
    [|intros items; auto with steps].
  intros w. destruct (collect_missing_run projectDir componentsDir content
                        (S (length content)) 0 [] w) as (items & -> & _).
  apply still_on_disk_refl.
Qed.

#[export] Hint Resolve still_check_component : steps.

Lemma still_check_components projectDir componentsDir componentFiles :
  preserved still_on_disk (check_components projectDir componentsDir componentFiles).
Proof. induction componentFiles as [|file files IH]; cbn [check_components]; still. Qed.

#[export] Hint Resolve still_check_components : steps.

Lemma still_check_directory projectDir componentsDir :
  preserved still_on_disk (check_directory projectDir componentsDir).
Proof. unfold check_directory. still. Qed.

#[export] Hint Resolve still_check_directory : steps.

Lemma still_check_directories projectDir dirs :
  preserved still_on_disk (check_directories projectDir dirs).
Proof. induction dirs as [|d dirs IH]; cbn [check_directories]; still. Qed.

Lemma fs_lookup_snoc name x : forall segs n,
  fs_lookup n (segs ++ [name]) = Some x ->
  exists es, fs_lookup n segs = Some (Dir es) /\ lookup_entry name es = Some x.
Proof.
  induction segs as [|s segs IH]; intros n H; cbn [app] in H.
  - cbn in H. destruct n as [|es]; [discriminate|].
    destruct (lookup_entry name es) as [ch|] eqn:E; [|discriminate].
    injection H as <-. exists es. split; [reflexivity | exact E].
  - cbn in H |- *. destruct n as [|es]; [discriminate|].
    destruct (lookup_entry s es) as [ch|]; [|discriminate]. apply IH, H.
Qed.

Lemma lookup_entry_In name x : forall es,
  lookup_entry name es = Some x -> In name (map fst es).
Proof.
  induction es as [|[n c] es IH]; cbn; [discriminate|].
  destruct (str_eqb n name) eqn:E; [|auto].
  apply str_eqb_eq in E. auto.
Qed.

(** A path joined to an absolute directory is absolute. *)
Lemma path_join_absolute dir parts :
  startsWith [slash] dir = true -> startsWith [slash] (path_join (dir :: parts)) = true.
Proof.
  intros Habs. unfold path_join. cbn [filter].
  destruct dir as [|d dir]; [discriminate|]. cbn [str_eqb negb].
  match goal with
  | |- context [path_normalize ?joined] =>
      assert (Hq : exists q, joined = d :: q)
        by (destruct (filter (fun a => negb (str_eqb a [])) parts);
            cbn [join_with app]; eauto);
      destruct Hq as [q ->]
  end.
  unfold path_normalize.
  cbn [startsWith] in Habs |- *. rewrite Habs. cbn [negb].
  destruct (join_with [slash] (normalize_segments false (split_on slash (d :: q))));
    reflexivity.
Qed.

(** After a successful check of a component, each of its style imports is on
    disk. *)
Lemma check_component_imports projectDir componentsDir componentFile content w w' m :
  check_component projectDir componentsDir componentFile w = (Ok tt, w') ->
  fs_lookup (w_fs w) (path_segments (path_join [componentsDir; componentFile]))
    = Some (File content) ->
  In m (style_imports content) ->
  on_disk (w_fs w') (importedStylePath projectDir componentsDir (group_text m 2)) = true.
Proof.
  intros H Hfile Hm. unfold check_component in H. cbv zeta in H. unfold bind at 1 in H.
  rewrite (readFileSync_utf8_file _ _ _ Hfile) in H. unfold bind at 1 in H.
  destruct (collect_missing_run projectDir componentsDir content
              (S (length content)) 0 [] w) as (items & E & _ & _ & Hall).
  rewrite E in H. destruct (Hall m Hm) as [Hthere|Hin].
  - eapply on_disk_still; [|exact Hthere].
    pose proof (still_create_missing
                  (path_basename_suffix componentFile (path_extname componentFile)) items w)
      as Hs.
    rewrite H in Hs. exact Hs.
  - eapply create_missing_on_disk; eauto.
Qed.

Lemma check_components_imports projectDir componentsDir content m componentFile :
  forall componentFiles w w',
  check_components projectDir componentsDir componentFiles w = (Ok tt, w') ->
  In componentFile componentFiles ->
  fs_lookup (w_fs w) (path_segments (path_join [componentsDir; componentFile]))
    = Some (File content) ->
  In m (style_imports content) ->
  on_disk (w_fs w') (importedStylePath projectDir componentsDir (group_text m 2)) = true.
Proof.
  induction componentFiles as [|file files IH]; intros w w' H Hin Hfile Hm; [destruct Hin|].
  cbn [check_components] in H. unfold bind at 1 in H.
  pose proof (kept_check_component projectDir componentsDir file w) as Hkept.
  destruct (check_component projectDir componentsDir file w) as [[[]|e] w1] eqn:E1;
    [|discriminate].
  cbn [snd] in Hkept. destruct Hin as [->|Hin].
  - eapply on_disk_still; [|eapply check_component_imports; eauto].
    pose proof (still_check_components projectDir componentsDir files w1) as Hs.
    rewrite H in Hs. exact Hs.
  - eapply IH; eauto.
Qed.

Lemma check_directory_imports projectDir componentsDir componentFile content m w w' :
  check_directory projectDir componentsDir w = (Ok tt, w') ->
  startsWith [slash] componentsDir = true ->
  plain_name componentFile -> has_source_extension componentFile = true ->
  fs_lookup (w_fs w) (path_segments componentsDir ++ [componentFile]) = Some (File content) ->
  In m (style_imports content) ->
  on_disk (w_fs w') (importedStylePath projectDir componentsDir (group_text m 2)) = true.
Proof.
  intros H Habs Hname Hext Hfile Hm.
  destruct (fs_lookup_snoc _ _ _ _ Hfile) as (es & Hdir & Hentry).
  destruct (path_of_file componentsDir componentFile Habs Hname) as [_ Hsegs].
  unfold check_directory in H. unfold bind at 1 in H. rewrite existsSync_run in H.
  unfold on_disk in H at 1. rewrite Hdir in H. cbn [negb] in H.
  unfold bind at 1 in H.
  assert (Hread : readdirSync componentsDir w = (Ok (map fst es), w))
    by (unfold readdirSync, bind, get_world; rewrite Hdir; reflexivity).
  rewrite Hread in H.
  eapply check_components_imports; [exact H | | rewrite Hsegs; exact Hfile | exact Hm].
  apply filter_In. split; [|exact Hext]. eapply lookup_entry_In, Hentry.
Qed.

(** *** What the helper does to a project *)

(** X27.  Whether the validation ends well or throws, every regular file that was
    there before it is there after it, with the content it had: the helper
    only creates files where there was nothing. *)
Theorem validation_changes_no_existing_file
    (projectDir : str) (w : World) (segs : list str) (c : str) :
  fs_lookup (w_fs w) segs = Some (File c) ->
  fs_lookup (w_fs (snd (validateComponentImports projectDir w))) segs = Some (File c).
Proof.
  intros H. apply (kept_check_directories projectDir (dirsToCheck projectDir) w), H.
Qed.

Lemma validation_changes_no_existing_file_witness :
  fs_lookup (w_fs (snd (validateComponentImports (lit "/p") component_world)))
            [lit "p"; lit "src"; lit "theme"; lit "dark.css"] = Some (File (lit "body {}")).
Proof.
  exact (validation_changes_no_existing_file (lit "/p") component_world
           [lit "p"; lit "src"; lit "theme"; lit "dark.css"] (lit "body {}") eq_refl).
Defined.

(** X28.  After a validation that ended well, every style import that the pattern
    finds in a component file of [src/components] or of [src] (a regular file
    with one of the four source endings) leads to something on disk, at the
    path where the helper looks for it. *)
Theorem validated_imports_are_on_disk
    (projectDir componentsDir componentFile content : str) (w w' : World) (m : match_result) :
  startsWith [slash] projectDir = true ->
  In componentsDir (dirsToCheck projectDir) ->
  plain_name componentFile -> has_source_extension componentFile = true ->
  fs_lookup (w_fs w) (path_segments componentsDir ++ [componentFile]) = Some (File content) ->
  validateComponentImports projectDir w = (Ok tt, w') ->
  In m (style_imports content) ->
  on_disk (w_fs w') (importedStylePath projectDir componentsDir (group_text m 2)) = true.
Proof.
  intros Habs Hdir Hname Hext Hfile H Hm.
  unfold validateComponentImports, dirsToCheck in H. cbn [check_directories] in H.
  unfold bind at 1 in H.
  pose proof (kept_check_directory projectDir
                (path_join [projectDir; lit "src"; lit "components"]) w) as Hkept.
  destruct (check_directory projectDir
              (path_join [projectDir; lit "src"; lit "components"]) w)
    as [[[]|e] w1] eqn:E1; [|discriminate].
  cbn [snd] in Hkept. unfold bind at 1 in H.
  pose proof (still_check_directory projectDir (path_join [projectDir; lit "src"]) w1) as Hs.
  destruct (check_directory projectDir (path_join [projectDir; lit "src"]) w1)
    as [[[]|e] w2] eqn:E2; [|discriminate].
  cbn [snd] in Hs. injection H as <-.
  destruct Hdir as [<-|[<-|[]]].
  - eapply on_disk_still; [exact Hs|].
    eapply check_directory_imports; eauto. apply path_join_absolute, Habs.
  - eapply check_directory_imports; eauto. apply path_join_absolute, Habs.
Qed.

Lemma validated_imports_are_on_disk_witness :
  on_disk (w_fs (snd (validateComponentImports (lit "/p") component_world)))
          (lit "/p/src/components/Card.css") = true.
Proof.
  assert (H : validateComponentImports (lit "/p") component_world
              = (Ok tt, snd (validateComponentImports (lit "/p") component_world)))
    by (vm_compute; reflexivity).
  assert (Hname : plain_name (lit "Card.jsx"))
    by (repeat split; try reflexivity; discriminate).
  assert (Hm : In (hd (MatchResult 0 0 [] no_captures) (style_imports component_source))
                  (style_imports component_source))
    by (vm_compute; left; reflexivity).
  exact (validated_imports_are_on_disk (lit "/p")
           (path_join [lit "/p"; lit "src"; lit "components"]) (lit "Card.jsx")
           component_source component_world _ _
           eq_refl (or_introl eq_refl) Hname eq_refl eq_refl H Hm).
Defined.
